(** * thash_impl.h: an open-addressing hash table with linear probing

    A shallow embedding of [src/aprilsam/common/thash_impl.h] and the
    verification of its documented behaviour.  The header is a macro
    template: the key type, the value type, the hash function [TKEYHASH]
    and the equality test [TKEYEQUAL] are supplied by the instantiating
    file, so they are section variables here. *)

From Stdlib Require Import ZArith Lia Bool Sorted.
From stdpp Require Import base list.

Local Open Scope Z_scope.

(** ** Machine arithmetic

    [int] is a 32-bit two's complement integer and [uint32_t] a 32-bit
    unsigned one.  Both are carried as [Z]; every arithmetic result is
    reduced into the type's range. *)

Definition wrap (z : Z) : Z := (z + 2 ^ 31) mod 2 ^ 32 - 2 ^ 31.
Definition u32 (z : Z) : Z := z mod 2 ^ 32.

(** ** Outcomes of a call

    [Done] is a normal return.  [Abort] is a failed [assert].  [Fault] is a
    read or write outside the slot array.  [OutOfFuel] says that the loop
    budget given to the model was used up before the call returned. *)

Inductive outcome (A : Type) : Type :=
| Done (a : A)
| Abort
| Fault
| OutOfFuel.

Arguments Done {A} a.
Arguments Abort {A}.
Arguments Fault {A}.
Arguments OutOfFuel {A}.

Definition bind {A B : Type} (m : outcome A) (f : A → outcome B) : outcome B :=
  match m with
  | Done a => f a
  | Abort => Abort
  | Fault => Fault
  | OutOfFuel => OutOfFuel
  end.

Notation "x ⇐ m ; k" := (bind m (fun x => k))
  (at level 100, m at next level, right associativity, only parsing).

(** A call [m] yields [r] within the budget [B]: whatever the budget, the
    call either returns [r] or runs out of budget, and above [B] it
    returns. *)
Definition Yields {A : Type} (m : nat → outcome A) (B : nat) (r : A) : Prop :=
  ∀ fuel : nat,
    (m fuel = Done r ∨ m fuel = OutOfFuel) ∧ ((B < fuel)%nat → m fuel = Done r).

(** The growth target in the words of the specification: the smallest
    power of two that is at least [4 * target], with a floor of 8. *)
Definition growth_target (target : Z) : Z :=
  2 ^ Z.log2_up (Z.max (4 * target) 8).

(** The slot indices [0 .. n-1] that the [for] loops walk through. *)
Definition indices (n : Z) : list Z := Z.of_nat <$> seq 0 (Z.to_nat n).

Module THash.
Section Template.

Context {K V : Type}.

(** [TKEYHASH] and [TKEYEQUAL] of the instantiation. *)
Variable TKEYHASH : K → Z.
Variable TKEYEQUAL : K → K → bool.

(** The key and the value whose bytes are all zero, which is what [calloc]
    and [memset] leave in a slot. *)
Variable key0 : K.
Variable value0 : V.

(** [struct TFN(_entry)] *)
Record entry : Type := Entry { valid : bool; key : K; value : V }.

(** [struct TTYPENAME]; the projection [size] is also [TFN(size)]. *)
Record table : Type := Table { entries : list entry; nentries : Z; size : Z }.

Definition zero_entry : entry := Entry false key0 value0.

(** [hash->entries[i]] as a read and as a write.  Below, every write is
    preceded by a read of the same slot, and the read is what faults when
    the index is outside the array. *)
Definition slot (es : list entry) (i : Z) : option entry :=
  if i <? 0 then None else es !! Z.to_nat i.

Definition store (es : list entry) (i : Z) (e : entry) : list entry :=
  <[Z.to_nat i := e]> es.

(** The [while (nentries < _nentries) nentries *= 2] loop. *)
Fixpoint double_until (fuel : nat) (n target : Z) : outcome Z :=
  match fuel with
  | O => OutOfFuel
  | S fuel =>
      if n <? target then double_until fuel (wrap (n * 2)) target else Done n
  end.

Definition THASH_FACTOR_CRITICAL : Z := 2.
Definition THASH_FACTOR_REALLOC : Z := 4.

Definition create_capacity (fuel : nat) (capacity : Z) : outcome table :=
  let _nentries := wrap (THASH_FACTOR_REALLOC * capacity) in
  let _nentries := if _nentries <? 8 then 8 else _nentries in
  n ⇐ (if negb (Z.land _nentries (wrap (_nentries - 1)) =? 0)
        then double_until fuel 8 _nentries
        else Done _nentries);
  if Z.land n (wrap (n - 1)) =? 0
  then Done (Table (replicate (Z.to_nat n) zero_entry) n 0)
  else Abort.

Definition create (fuel : nat) : outcome table := create_capacity fuel 8.

Definition clear (hash : table) : outcome table :=
  if Z.of_nat (length (entries hash)) <? nentries hash then Fault
  else Done (Table (replicate (Z.to_nat (nentries hash)) zero_entry
                      ++ drop (Z.to_nat (nentries hash)) (entries hash))
                   (nentries hash) 0).

(** The result of the probe loop shared, as the same text, by
    [get_volatile], [get], [put] and [remove]: it leaves the loop at a valid
    slot whose key equals the searched key, or at a slot that is not valid. *)
Inductive probe : Type :=
| Hit (entry_idx : Z) (e : entry)
| Miss (entry_idx : Z).

(** [code & (hash->nentries - 1)] and
    [(entry_idx + 1) & (hash->nentries - 1)] on [uint32_t]. *)
Definition first_idx (hash : table) (k : K) : Z :=
  Z.land (u32 (TKEYHASH k)) (u32 (wrap (nentries hash - 1))).

Definition next_idx (hash : table) (entry_idx : Z) : Z :=
  Z.land (u32 (entry_idx + 1)) (u32 (wrap (nentries hash - 1))).

Fixpoint scan (fuel : nat) (hash : table) (k : K) (entry_idx : Z) : outcome probe :=
  match fuel with
  | O => OutOfFuel
  | S fuel =>
      match slot (entries hash) entry_idx with
      | None => Fault
      | Some e =>
          if valid e then
            if TKEYEQUAL k (key e) then Done (Hit entry_idx e)
            else scan fuel hash k (next_idx hash entry_idx)
          else Done (Miss entry_idx)
      end
  end.

(** [get_volatile] hands out a pointer into the slot array; the pointer is
    the index of the slot. *)
Definition get_volatile (fuel : nat) (hash : table) (k : K) : outcome (option Z) :=
  r ⇐ scan fuel hash k (first_idx hash k);
  match r with
  | Hit entry_idx _ => Done (Some entry_idx)
  | Miss _ => Done None
  end.

Definition get (fuel : nat) (hash : table) (k : K) : outcome (option V) :=
  r ⇐ scan fuel hash k (first_idx hash k);
  match r with
  | Hit _ e => Done (Some (value e))
  | Miss _ => Done None
  end.

(** The body of [for (entry_idx = 0; entry_idx < hash->nentries; entry_idx++)
    if (hash->entries[entry_idx].valid) ...] of the rehash and of [copy]. *)
Fixpoint for_valid (body : table → entry → outcome table) (es : list entry)
    (idxs : list Z) (newhash : table) : outcome table :=
  match idxs with
  | [] => Done newhash
  | entry_idx :: idxs =>
      match slot es entry_idx with
      | None => Fault
      | Some e =>
          if valid e then
            newhash ⇐ body newhash e;
            for_valid body es idxs newhash
          else for_valid body es idxs newhash
      end
  end.

(** [if (put(newhash, &key, &value, NULL, NULL)) assert(0);] for a given
    [put]. *)
Definition put_new (put : table → K → V → outcome (table * option (K * V)))
    (newhash : table) (e : entry) : outcome table :=
  r ⇐ put newhash (key e) (value e);
  match r with
  | (_, Some _) => Abort
  | (newhash, None) => Done newhash
  end.

(** [put] returns the table and, for the return value 1, the pair written
    to [*oldkey] and [*oldvalue]. *)
Fixpoint put (fuel : nat) (hash : table) (k : K) (v : V)
    : outcome (table * option (K * V)) :=
  match fuel with
  | O => OutOfFuel
  | S fuel =>
      r ⇐ scan fuel hash k (first_idx hash k);
      match r with
      | Hit entry_idx e =>
          Done (Table (store (entries hash) entry_idx (Entry (valid e) k v))
                      (nentries hash) (size hash),
                Some (key e, value e))
      | Miss entry_idx =>
          let hash := Table (store (entries hash) entry_idx (Entry true k v))
                            (nentries hash) (wrap (size hash + 1)) in
          if nentries hash <? wrap (THASH_FACTOR_CRITICAL * size hash) then
            newhash ⇐ create_capacity fuel (wrap (size hash + 1));
            newhash ⇐ for_valid (put_new (put fuel)) (entries hash)
                         (indices (nentries hash)) newhash;
            Done (newhash, None)
          else Done (hash, None)
      end
  end.

(** The [while (hash->entries[entry_idx].valid)] loop that re-puts the
    entries following a vacated slot.  [remove] steps a [uint32_t] index,
    [iterator_remove] an [int] one; [step] is that difference. *)
Fixpoint reput (step : table → Z → Z) (fuel : nat) (hash : table) (entry_idx : Z)
    : outcome table :=
  match fuel with
  | O => OutOfFuel
  | S fuel =>
      match slot (entries hash) entry_idx with
      | None => Fault
      | Some e =>
          if valid e then
            let hash := Table (store (entries hash) entry_idx
                                 (Entry false (key e) (value e)))
                              (nentries hash) (wrap (size hash - 1)) in
            hash ⇐ put_new (put fuel) hash e;
            reput step fuel hash (step hash entry_idx)
          else Done hash
      end
  end.

Definition remove (fuel : nat) (hash : table) (k : K)
    : outcome (table * option (K * V)) :=
  r ⇐ scan fuel hash k (first_idx hash k);
  match r with
  | Hit entry_idx e =>
      let hash := Table (store (entries hash) entry_idx
                           (Entry false (key e) (value e)))
                        (nentries hash) (wrap (size hash - 1)) in
      hash ⇐ reput next_idx fuel hash (next_idx hash entry_idx);
      Done (hash, Some (key e, value e))
  | Miss _ => Done (hash, None)
  end.

Definition copy (fuel : nat) (hash : table) : outcome table :=
  newhash ⇐ create_capacity fuel (size hash);
  for_valid (put_new (put fuel)) (entries hash) (indices (nentries hash)) newhash.

(** [struct TFN(iterator)]: the table pointer is the table passed along
    with the iterator. *)
Record iterator : Type := Iterator { last_entry : Z }.

Definition iterator_init : iterator := Iterator (-1).

Fixpoint iterator_next (fuel : nat) (hash : table) (iter : iterator)
    : outcome (iterator * option (K * V)) :=
  match fuel with
  | O => OutOfFuel
  | S fuel =>
      if nentries hash <=? wrap (last_entry iter + 1) then Done (iter, None)
      else
        let iter := Iterator (wrap (last_entry iter + 1)) in
        match slot (entries hash) (last_entry iter) with
        | None => Fault
        | Some e =>
            if valid e then Done (iter, Some (key e, value e))
            else iterator_next fuel hash iter
        end
  end.

(** [(entry_idx + 1) & (hash->nentries - 1)] on [int]. *)
Definition next_int (hash : table) (entry_idx : Z) : Z :=
  Z.land (wrap (entry_idx + 1)) (wrap (nentries hash - 1)).

Definition iterator_remove (fuel : nat) (hash : table) (iter : iterator)
    : outcome table :=
  match slot (entries hash) (last_entry iter) with
  | None => Fault
  | Some e =>
      let hash := Table (store (entries hash) (last_entry iter)
                           (Entry false (key e) (value e)))
                        (nentries hash) (size hash) in
      hash ⇐ reput next_int fuel hash (next_int hash (last_entry iter));
      Done (Table (entries hash) (nentries hash) (wrap (size hash - 1)))
  end.

(** A full pass over the table, as a caller writes it: [iterator_next] is
    called until it returns 0.  The pass collects the cursor, the key and
    the value of every call that returned 1.  [calls] bounds the number of
    calls. *)
Fixpoint iterate (calls fuel : nat) (hash : table) (iter : iterator)
    : outcome (list (Z * K * V) * iterator) :=
  match calls with
  | O => OutOfFuel
  | S calls =>
      r ⇐ iterator_next fuel hash iter;
      match r with
      | (iter, Some (k, v)) =>
          rest ⇐ iterate calls fuel hash iter;
          Done ((last_entry iter, k, v) :: fst rest, snd rest)
      | (iter, None) => Done ([], iter)
      end
  end.

(** [put] for each pair of a list, in order, as a caller writes it. *)
Fixpoint put_each (fuel : nat) (hash : table) (kvs : list (K * V))
    : outcome table :=
  match kvs with
  | [] => Done hash
  | (k, v) :: kvs =>
      r ⇐ put fuel hash k v;
      put_each fuel (fst r) kvs
  end.

(** The keys of a list are pairwise different under [TKEYEQUAL]. *)
Fixpoint distinct_keys (ks : list K) : bool :=
  match ks with
  | [] => true
  | k :: ks => forallb (fun k' => negb (TKEYEQUAL k k')) ks && distinct_keys ks
  end.

(** The tables that the operations build: [create_capacity] (and so
    [create]) makes one, and [put], [remove], [clear], [copy] and
    [iterator_remove] after an [iterator_next] that returned an entry lead
    from one to the next. *)
Inductive reachable : table → Prop :=
| reach_create fuel capacity t :
    create_capacity fuel capacity = Done t → reachable t
| reach_put fuel t k v t' r :
    reachable t → put fuel t k v = Done (t', r) → reachable t'
| reach_remove fuel t k t' r :
    reachable t → remove fuel t k = Done (t', r) → reachable t'
| reach_clear t t' :
    reachable t → clear t = Done t' → reachable t'
| reach_copy fuel t t' :
    reachable t → copy fuel t = Done t' → reachable t'
| reach_iterator_remove fuel fuel' t iter iter' kv t' :
    reachable t → iterator_next fuel t iter = Done (iter', Some kv) →
    iterator_remove fuel' t iter' = Done t' → reachable t'.

(** ** The contract of the instantiation

    Equal keys hash alike, and the equality test is an equivalence. *)
Record contract : Prop := Contract {
  keq_refl : ∀ a, TKEYEQUAL a a = true;
  keq_sym : ∀ a b, TKEYEQUAL a b = true → TKEYEQUAL b a = true;
  keq_trans : ∀ a b c,
    TKEYEQUAL a b = true → TKEYEQUAL b c = true → TKEYEQUAL a c = true;
  hash_eq : ∀ a b, TKEYEQUAL a b = true → TKEYHASH a = TKEYHASH b
}.

(** ** Invariants of the data structure *)

(** A total read of a slot, for stating properties; outside the array it
    reads as a slot that is not valid. *)
Definition ent (es : list entry) (i : Z) : entry := default zero_entry (slot es i).

(** The number of steps a probe takes from slot [a] forward, wrapping at
    [n], to slot [b]. *)
Definition cdist (n a b : Z) : Z := (b - a) mod n.

(** The slot where the probe for [k] starts in an array of [n] slots. *)
Definition home (n : Z) (k : K) : Z := u32 (TKEYHASH k) mod n.

(** The probe for [k] steps over slot [i]. *)
Definition passes (es : list entry) (k : K) (i : Z) : bool :=
  valid (ent es i) && negb (TKEYEQUAL k (key (ent es i))).

(** Where the probe loop leaves when it stops at slot [p]. *)
Definition leave (es : list entry) (p : Z) : probe :=
  if valid (ent es p) then Hit p (ent es p) else Miss p.

(** [p] is the first slot, from [i] on, that the probe for [k] does not
    step over. *)
Definition first_stop (es : list entry) (n : Z) (k : K) (i p : Z) : Prop :=
  0 ≤ p < n ∧ passes es k p = false
  ∧ ∀ x, 0 ≤ x < n → cdist n i x < cdist n i p → passes es k x = true.

Fixpoint count_valid (es : list entry) : Z :=
  match es with
  | [] => 0
  | e :: es => (if valid e then 1 else 0) + count_valid es
  end.

Definition all_idx (n : Z) (P : Z → bool) : bool := forallb P (indices n).

(** The capacity is a power of two, at least 8, and representable. *)
Definition cap_ok (n : Z) : bool :=
  (n =? 2 ^ Z.log2 n) && (8 <=? n) && (n <=? 2 ^ 30).

(** No slot that is not valid lies between the home of a stored key and
    the slot that stores it. *)
Definition probe_ok (es : list entry) (n : Z) : bool :=
  all_idx n (fun j => all_idx n (fun q =>
    implb (valid (ent es j) && negb (valid (ent es q)))
          (cdist n (home n (key (ent es j))) j <? cdist n q j))).

(** No two valid slots hold equal keys. *)
Definition nodup (es : list entry) (n : Z) : bool :=
  all_idx n (fun i => all_idx n (fun j =>
    implb (valid (ent es i) && valid (ent es j)
           && TKEYEQUAL (key (ent es i)) (key (ent es j)))
          (i =? j))).

(** The slot array has [nentries] slots and [nentries] is such a capacity. *)
Definition shaped (t : table) : bool :=
  (Z.of_nat (length (entries t)) =? nentries t) && cap_ok (nentries t).

(** The structural invariants of section 3 of the specification, as a
    check that can be run on a table: the slot array has [nentries] slots,
    [nentries] is a power of two, [size] counts the valid slots, and the
    two properties above hold. *)
Definition sound (t : table) : bool :=
  shaped t
  && (size t =? count_valid (entries t))
  && probe_ok (entries t) (nentries t)
  && nodup (entries t) (nentries t).

(** A table at rest is sound and at most half full: the growth trigger
    [nentries < 2 * size] does not hold. *)
Definition table_ok (t : table) : bool :=
  sound t && (THASH_FACTOR_CRITICAL * size t <=? nentries t).

(** The pair [(k, v)] sits in a valid slot of the table. *)
Definition stored (t : table) (k : K) (v : V) : Prop :=
  ∃ i, 0 ≤ i < nentries t ∧ valid (ent (entries t) i) = true
       ∧ key (ent (entries t) i) = k ∧ value (ent (entries t) i) = v.

(** No valid slot holds a key equal to [k]. *)
Definition absent (t : table) (k : K) : Prop :=
  ∀ i, 0 ≤ i < nentries t → valid (ent (entries t) i) = true →
       TKEYEQUAL k (key (ent (entries t) i)) = false.

(** The state of the loop that re-puts the entries after the vacated slot
    [i], when it is about to look at the slot [t] steps after [i].
    [stop] is the first slot after [i] that was not valid when the loop
    began.  The slots from the cursor up to [stop] are still valid, and a
    stored key has no vacated slot between its home and its slot, unless
    the key is still waiting for the cursor, which excuses the vacated
    slots behind the cursor. *)
Definition reput_inv (es : list entry) (n i stop t : Z) : Prop :=
  valid (ent es stop) = false
  ∧ (∀ x, 0 ≤ x < n → t ≤ cdist n i x < cdist n i stop →
          valid (ent es x) = true)
  ∧ (∀ j q, 0 ≤ j < n → 0 ≤ q < n →
       valid (ent es j) = true → valid (ent es q) = false →
       cdist n i j < t ∨ cdist n i stop < cdist n i j ∨ t ≤ cdist n i q →
       cdist n (home n (key (ent es j))) j < cdist n q j).

(** The valid slots in the order of their indices, each with its index,
    key and value. *)
Definition visits (t : table) : list (Z * K * V) :=
  (fun j => (j, key (ent (entries t) j), value (ent (entries t) j)))
    <$> List.filter (fun j => valid (ent (entries t) j)) (indices (nentries t)).

(** The number of valid slots among the slots [idxs]. *)
Definition count_at (es : list entry) (idxs : list Z) : Z :=
  Z.of_nat (length (List.filter (fun i => valid (ent es i)) idxs)).

(** What [put hash k v] leaves behind when it returns the table [t'] and
    the result [r]: a table at rest that stores [(k, v)] and every pair of
    [t] whose key differs from [k]; the old pair, if there was one, is
    returned and the size is kept, else the size grows by one; the
    capacity changes only when the growth trigger fires, and then to what
    [create_capacity (size + 1)] computes. *)
Definition put_post (t : table) (k : K) (v : V) (t' : table)
    (r : option (K * V)) : Prop :=
  table_ok t' = true
  ∧ (∀ x y, stored t' x y ↔
            (x = k ∧ y = v) ∨ (stored t x y ∧ TKEYEQUAL k x = false))
  ∧ match r with
    | None => absent t k ∧ size t' = size t + 1
    | Some (k0, v0) => stored t k0 v0 ∧ TKEYEQUAL k k0 = true ∧ size t' = size t
    end
  ∧ (r ≠ None ∨ 2 * (size t + 1) ≤ nentries t → nentries t' = nentries t)
  ∧ (r = None → nentries t < 2 * (size t + 1) → nentries t ≤ 2 ^ 28 →
     nentries t' = growth_target (size t + 1 + 1)).

(** ** A sequence of calls and the map it stands for

    What a caller does to a table, one call after the other. *)
Inductive op : Type :=
| Put (k : K) (v : V)
| Remove (k : K)
| Clear
| Copy.

(** The calls of a list, in order; [Copy] goes on with the copy. *)
Fixpoint run (fuel : nat) (hash : table) (ops : list op) : outcome table :=
  match ops with
  | [] => Done hash
  | o :: ops =>
      hash ⇐ match o with
             | Put k v => r ⇐ put fuel hash k v; Done (fst r)
             | Remove k => r ⇐ remove fuel hash k; Done (fst r)
             | Clear => clear hash
             | Copy => copy fuel hash
             end;
      run fuel hash ops
  end.

(** The map of the specification, as an association list with one pair
    for a key: a put replaces the pair of an equal key, a remove
    deletes it, a clear deletes all pairs and a copy has the same
    pairs. *)
Definition model_without (k : K) (m : list (K * V)) : list (K * V) :=
  List.filter (fun p => negb (TKEYEQUAL k (fst p))) m.

Definition model_step (m : list (K * V)) (o : op) : list (K * V) :=
  match o with
  | Put k v => (k, v) :: model_without k m
  | Remove k => model_without k m
  | Clear => []
  | Copy => m
  end.

Definition model (ops : list op) : list (K * V) := fold_left model_step ops [].

Fixpoint model_get (k : K) (m : list (K * V)) : option V :=
  match m with
  | [] => None
  | (x, y) :: m => if TKEYEQUAL k x then Some y else model_get k m
  end.

(** The table [t] holds the pairs of the association list [m], each
    once, and [size] is their number. *)
Definition agrees (t : table) (m : list (K * V)) : Prop :=
  NoDup m ∧ (∀ x y, stored t x y ↔ (x, y) ∈ m)
  ∧ size t = Z.of_nat (length m).


(** The capacity is a power of two, at least 8, and at least twice the
    length. *)
Definition load_inv (t : table) : Prop :=
  (∃ j, 0 ≤ j ∧ nentries t = 2 ^ j)
  ∧ 8 ≤ nentries t ∧ 2 * size t ≤ nentries t.

End Template.

(** ** An instantiation

    Integer keys and values, the key as its own hash, and a few tables of
    this instantiation. *)
Definition zhash (k : Z) : Z := k.

Definition zrow (o : option (Z * Z)) : @entry Z Z :=
  match o with
  | Some (k, v) => Entry true k v
  | None => Entry false 0 0
  end.

Definition ztable (slots : list (option (Z * Z))) (sz : Z) : @table Z Z :=
  Table (zrow <$> slots) (Z.of_nat (length slots)) sz.

Definition demo0 : @table Z Z :=
  ztable [None; None; None; None; None; None; None; None] 0.
Definition demo1 : @table Z Z :=
  ztable [None; Some (1, 10); None; None; None; None; None; None] 1.
Definition demo2 : @table Z Z :=
  ztable [None; Some (1, 10); Some (9, 90); None; None; None; None; None] 2.
Definition demo3 : @table Z Z :=
  ztable [None; Some (1, 10); Some (9, 90); Some (17, 170); None; None; None;
          None] 3.
Definition demo4 : @table Z Z :=
  ztable [None; Some (1, 10); Some (9, 90); Some (17, 170); Some (2, 20);
          None; None; None] 4.

Definition demo_pairs : list (Z * Z) :=
  (fun k => (k, 10 * k)) <$> seqZ 1 16.

(** A table whose run of entries wraps around the end of the slot array:
    the keys 6, 14 and 22 all have the home slot 6. *)
Definition demo_wrap : @table Z Z :=
  ztable [Some (22, 220); None; None; None; None; None; Some (6, 60);
          Some (14, 140)] 3.


(** The pairs [(0, 0), (1, 0), ..., (m - 1, 0)], to fill a table with [m]
    keys. *)
Definition fill (m : Z) : list (Z * Z) := (fun k => (k, 0)) <$> seqZ 0 m.


Section Proofs.

Context {K V : Type}.
Variable TKEYHASH : K → Z.
Variable TKEYEQUAL : K → K → bool.
Variable key0 : K.
Variable value0 : V.

Local Abbreviation entry := (@entry K V).
Local Abbreviation table := (@table K V).
Local Abbreviation probe := (@probe K V).
Local Abbreviation zero_entry := (zero_entry key0 value0).
Local Abbreviation ent := (ent key0 value0).
Local Abbreviation home := (home TKEYHASH).
Local Abbreviation passes := (passes TKEYEQUAL key0 value0).
Local Abbreviation leave := (leave key0 value0).
Local Abbreviation first_stop := (first_stop TKEYEQUAL key0 value0).
Local Abbreviation first_idx := (first_idx TKEYHASH).
Local Abbreviation scan := (scan TKEYEQUAL).
Local Abbreviation get := (get TKEYHASH TKEYEQUAL).
Local Abbreviation get_volatile := (get_volatile TKEYHASH TKEYEQUAL).
Local Abbreviation create_capacity := (create_capacity key0 value0).
Local Abbreviation create := (create key0 value0).
Local Abbreviation clear := (clear key0 value0).
Local Abbreviation put := (put TKEYHASH TKEYEQUAL key0 value0).
Local Abbreviation reput := (reput TKEYHASH TKEYEQUAL key0 value0).
Local Abbreviation remove := (remove TKEYHASH TKEYEQUAL key0 value0).
Local Abbreviation copy := (copy TKEYHASH TKEYEQUAL key0 value0).
Local Abbreviation iterator_remove :=
  (iterator_remove TKEYHASH TKEYEQUAL key0 value0).
Local Abbreviation probe_ok := (probe_ok TKEYHASH key0 value0).
Local Abbreviation nodup := (nodup TKEYEQUAL key0 value0).
Local Abbreviation sound := (sound TKEYHASH TKEYEQUAL key0 value0).
Local Abbreviation table_ok := (table_ok TKEYHASH TKEYEQUAL key0 value0).
Local Abbreviation stored := (stored key0 value0).
Local Abbreviation absent := (absent TKEYEQUAL key0 value0).
Local Abbreviation count_at := (count_at key0 value0).
Local Abbreviation reput_inv := (reput_inv TKEYHASH key0 value0).
Local Abbreviation reachable := (reachable TKEYHASH TKEYEQUAL key0 value0).
Local Abbreviation visits := (visits key0 value0).
Local Abbreviation iterator := (@iterator).
Local Abbreviation iterator_next := (@iterator_next K V).
Local Abbreviation iterate := (@iterate K V).
Local Abbreviation put_each := (put_each TKEYHASH TKEYEQUAL key0 value0).
Local Abbreviation distinct_keys := (distinct_keys TKEYEQUAL).
Local Abbreviation load_inv := (@load_inv K V).
Local Abbreviation op := (@op K V).
Local Abbreviation run := (run TKEYHASH TKEYEQUAL key0 value0).
Local Abbreviation model_without := (@model_without K V TKEYEQUAL).
Local Abbreviation model_step := (@model_step K V TKEYEQUAL).
Local Abbreviation model := (@model K V TKEYEQUAL).
Local Abbreviation model_get := (@model_get K V TKEYEQUAL).
Local Abbreviation agrees := (agrees key0 value0).

Local Abbreviation put_post := (put_post TKEYHASH TKEYEQUAL key0 value0).

(** *** Machine arithmetic in range *)

Lemma wrap_small z : - 2 ^ 31 ≤ z < 2 ^ 31 → wrap z = z.
Proof. intros Hz. unfold wrap. rewrite Z.mod_small; lia. Qed.

Lemma u32_small z : 0 ≤ z < 2 ^ 32 → u32 z = z.
Proof. intros Hz. unfold u32. now rewrite Z.mod_small. Qed.

Lemma u32_range z : 0 ≤ u32 z < 2 ^ 32.
Proof. unfold u32. apply Z.mod_pos_bound. lia. Qed.

Lemma cap_ok_pow2 n : cap_ok n = true → ∃ j, 3 ≤ j ≤ 30 ∧ n = 2 ^ j.
Proof.
  unfold cap_ok. rewrite !andb_true_iff, Z.eqb_eq, !Z.leb_le.
  intros [[Hn H8] H30]. exists (Z.log2 n). split; [|done].
  split.
  - change 3 with (Z.log2 8). now apply Z.log2_le_mono.
  - change 30 with (Z.log2 (2 ^ 30)). now apply Z.log2_le_mono.
Qed.

Lemma pow2_cap_ok j : 3 ≤ j ≤ 30 → cap_ok (2 ^ j) = true.
Proof.
  intros Hj. unfold cap_ok. rewrite !andb_true_iff, Z.eqb_eq, !Z.leb_le.
  rewrite Z.log2_pow2 by lia. repeat split.
  - change 8 with (2 ^ 3). apply Z.pow_le_mono_r; lia.
  - apply Z.pow_le_mono_r; lia.
Qed.

Lemma cap_ok_range n : cap_ok n = true → 8 ≤ n ≤ 2 ^ 30.
Proof. unfold cap_ok. rewrite !andb_true_iff, !Z.leb_le. tauto. Qed.

Lemma land_mask n x : cap_ok n = true → 0 ≤ x → Z.land x (n - 1) = x mod n.
Proof.
  intros Hn Hx. destruct (cap_ok_pow2 n Hn) as (j & Hj & ->).
  replace (2 ^ j - 1) with (Z.ones j) by (rewrite Z.ones_equiv; lia).
  apply Z.land_ones. lia.
Qed.

(** *** Reading and writing slots *)

Lemma ent_slot (es : list entry) i :
  0 ≤ i < Z.of_nat (length es) → slot es i = Some (ent es i).
Proof.
  intros Hi. unfold THash.ent, slot.
  destruct (Z.ltb_spec i 0); [lia|].
  destruct (lookup_lt_is_Some_2 es (Z.to_nat i)) as [e He]; [lia|].
  now rewrite He.
Qed.

Lemma slot_none (es : list entry) i :
  ¬ 0 ≤ i < Z.of_nat (length es) → slot es i = None.
Proof.
  intros Hi. unfold slot. destruct (Z.ltb_spec i 0); [done|].
  apply lookup_ge_None. lia.
Qed.

Lemma ent_outside (es : list entry) i :
  ¬ 0 ≤ i < Z.of_nat (length es) → ent es i = zero_entry.
Proof. intros Hi. unfold THash.ent. now rewrite slot_none. Qed.

Lemma valid_ent_range (es : list entry) i :
  valid (ent es i) = true → 0 ≤ i < Z.of_nat (length es).
Proof.
  intros Hv.
  destruct (decide (0 ≤ i < Z.of_nat (length es))) as [|Hn]; [done|].
  rewrite (ent_outside es i Hn) in Hv. discriminate.
Qed.

Lemma length_store (es : list entry) i e : length (store es i e) = length es.
Proof. apply length_insert. Qed.

Lemma ent_store (es : list entry) i e j :
  0 ≤ i < Z.of_nat (length es) → 0 ≤ j →
  ent (store es i e) j = if j =? i then e else ent es j.
Proof.
  intros Hi Hj. unfold THash.ent, slot, store.
  destruct (Z.ltb_spec j 0); [lia|].
  destruct (Z.eqb_spec j i) as [->|Hne].
  - rewrite list_lookup_insert_eq by lia. done.
  - rewrite list_lookup_insert_ne by lia. done.
Qed.

Lemma ent_replicate m i : ent (replicate m zero_entry) i = zero_entry.
Proof.
  unfold THash.ent, slot. destruct (i <? 0); [done|].
  destruct (replicate m zero_entry !! Z.to_nat i) as [e|] eqn:He; [|done].
  apply lookup_replicate in He as [-> _]. done.
Qed.

(** *** Index arithmetic of a shaped table *)

Lemma shaped_len (t : table) :
  shaped t = true → Z.of_nat (length (entries t)) = nentries t.
Proof. unfold shaped. rewrite andb_true_iff, Z.eqb_eq. tauto. Qed.

Lemma shaped_cap (t : table) : shaped t = true → cap_ok (nentries t) = true.
Proof. unfold shaped. rewrite andb_true_iff. tauto. Qed.

Lemma shaped_range (t : table) : shaped t = true → 8 ≤ nentries t ≤ 2 ^ 30.
Proof. intros Ht. apply cap_ok_range, shaped_cap, Ht. Qed.

Lemma mask_u32 n : cap_ok n = true → u32 (wrap (n - 1)) = n - 1.
Proof.
  intros Hn. apply cap_ok_range in Hn.
  rewrite wrap_small by lia. apply u32_small. lia.
Qed.

Lemma home_range n k : cap_ok n = true → 0 ≤ home n k < n.
Proof.
  intros Hn. apply cap_ok_range in Hn. unfold THash.home.
  apply Z.mod_pos_bound. lia.
Qed.

Lemma first_idx_home (t : table) k :
  shaped t = true → first_idx t k = home (nentries t) k.
Proof.
  intros Ht. apply shaped_cap in Ht. unfold THash.first_idx, THash.home.
  rewrite mask_u32 by done. apply land_mask; [done|]. apply u32_range.
Qed.

Lemma next_idx_mod (t : table) i :
  shaped t = true → 0 ≤ i < nentries t →
  next_idx t i = (i + 1) mod nentries t.
Proof.
  intros Ht Hi. pose proof (shaped_range t Ht). apply shaped_cap in Ht.
  unfold next_idx. rewrite mask_u32 by done.
  rewrite u32_small by lia. apply land_mask; [done|lia].
Qed.

Lemma next_int_mod (t : table) i :
  shaped t = true → 0 ≤ i < nentries t →
  next_int t i = (i + 1) mod nentries t.
Proof.
  intros Ht Hi. pose proof (shaped_range t Ht). apply shaped_cap in Ht.
  unfold next_int. rewrite !wrap_small by lia. apply land_mask; [done|lia].
Qed.

(** *** Distances along the probe sequence *)

Lemma cdist_cases n a b :
  0 ≤ a < n → 0 ≤ b < n →
  (a ≤ b ∧ cdist n a b = b - a) ∨ (b < a ∧ cdist n a b = b - a + n).
Proof.
  intros Ha Hb. unfold cdist. destruct (Z.le_gt_cases a b).
  - left. split; [done|]. apply Z.mod_small. lia.
  - right. split; [done|].
    rewrite <- (Z.mod_add (b - a) 1 n) by lia. rewrite Z.mod_small; lia.
Qed.

Lemma succ_mod_cases n i :
  0 ≤ i < n →
  (i + 1 < n ∧ (i + 1) mod n = i + 1) ∨ (i + 1 = n ∧ (i + 1) mod n = 0).
Proof.
  intros Hi. destruct (Z.eq_dec (i + 1) n) as [He|Hne].
  - right. split; [done|]. rewrite He. apply Z.mod_same. lia.
  - left. split; [lia|]. apply Z.mod_small. lia.
Qed.

Ltac cdist_case n a b :=
  let Hc := fresh "Hc" in
  let c := fresh "c" in
  let E := fresh "E" in
  pose proof (cdist_cases n a b ltac:(lia) ltac:(lia)) as Hc;
  remember (cdist n a b) as c eqn:E; clear E.

Ltac cdist_lia :=
  repeat match goal with
    | |- context [cdist ?n ?a ?b] => cdist_case n a b
    | H : context [cdist ?n ?a ?b] |- _ => cdist_case n a b
    end;
  lia.

Lemma cdist_range n a b : 0 ≤ a < n → 0 ≤ b < n → 0 ≤ cdist n a b < n.
Proof. intros. cdist_lia. Qed.

(** *** The probe loop *)

(** The loop started at [i] walks over the slots it passes and leaves at the
    first slot [p] it does not pass, [d] steps further; it needs a budget
    above [d]. *)
Lemma scan_walk (t : table) k p :
  shaped t = true → 0 ≤ p < nentries t →
  passes (entries t) k p = false →
  ∀ (d : nat) i fuel,
    0 ≤ i < nentries t → cdist (nentries t) i p = Z.of_nat d →
    (∀ x, 0 ≤ x < nentries t →
          cdist (nentries t) i x < cdist (nentries t) i p →
          passes (entries t) k x = true) →
    scan fuel t k i
    = if (fuel <=? d)%nat then OutOfFuel else Done (leave (entries t) p).
Proof.
  intros Ht Hp Hstop. pose proof (shaped_len t Ht) as Hlen.
  induction d as [|d IH]; intros i fuel Hi Hd Hpass.
  - destruct fuel as [|fuel]; [done|].
    assert (i = p) as -> by cdist_lia.
    cbn [THash.scan]. rewrite ent_slot by lia.
    unfold THash.passes, THash.leave in *.
    destruct (valid (ent (entries t) p)); [|done].
    destruct (TKEYEQUAL k (key (ent (entries t) p))); [done|discriminate].
  - destruct fuel as [|fuel]; [done|].
    assert (passes (entries t) k i = true) as Hi_pass.
    { apply Hpass; [done|]. cdist_lia. }
    cbn [THash.scan]. rewrite ent_slot by lia.
    unfold THash.passes in Hi_pass.
    apply andb_true_iff in Hi_pass as [-> Hne]. apply negb_true_iff in Hne.
    rewrite Hne, next_idx_mod by done.
    change (S fuel <=? S d)%nat with (fuel <=? d)%nat.
    destruct (succ_mod_cases (nentries t) i Hi) as [[Hlt ->]|[Heq ->]].
    + apply IH; [lia|cdist_lia|].
      intros x Hx Hxd. apply Hpass; [done|]. cdist_lia.
    + apply IH; [lia|cdist_lia|].
      intros x Hx Hxd. apply Hpass; [done|]. cdist_lia.
Qed.

Lemma first_fail_exists (P : Z → bool) n q :
  0 ≤ q < n → P q = false →
  ∀ (d : nat) i, 0 ≤ i < n → cdist n i q = Z.of_nat d →
    ∃ p, (0 ≤ p < n ∧ P p = false
          ∧ ∀ x, 0 ≤ x < n → cdist n i x < cdist n i p → P x = true)
         ∧ cdist n i p ≤ cdist n i q.
Proof.
  intros Hq Hstop. induction d as [|d IH]; intros i Hi Hd.
  - assert (i = q) as -> by cdist_lia. exists q. split; [|lia].
    repeat split; [lia|lia|done|]. intros x Hx Hlt. cdist_lia.
  - destruct (P i) eqn:Hpi.
    + destruct (succ_mod_cases n i Hi) as [[Hlt E]|[Heq E]].
      * destruct (IH (i + 1)) as (p & (Hp & Hps & Hbefore) & Hle);
          [lia|cdist_lia|].
        exists p. split; [|cdist_lia].
        repeat split; [lia|lia|done|]. intros x Hx Hxd.
        destruct (Z.eq_dec x i) as [->|Hne]; [done|].
        apply Hbefore; [done|]. cdist_lia.
      * destruct (IH 0) as (p & (Hp & Hps & Hbefore) & Hle);
          [lia|cdist_lia|].
        exists p. split; [|cdist_lia].
        repeat split; [lia|lia|done|]. intros x Hx Hxd.
        destruct (Z.eq_dec x i) as [->|Hne]; [done|].
        apply Hbefore; [done|]. cdist_lia.
    + exists i. split; [|cdist_lia].
      repeat split; [lia|lia|done|]. intros x Hx Hlt. cdist_lia.
Qed.

Lemma first_stop_exists (es : list entry) n k q :
  0 ≤ q < n → passes es k q = false →
  ∀ (d : nat) i, 0 ≤ i < n → cdist n i q = Z.of_nat d →
    ∃ p, first_stop es n k i p ∧ cdist n i p ≤ cdist n i q.
Proof. apply (first_fail_exists (passes es k)). Qed.

Lemma first_stop_unique (es : list entry) n k i p p' :
  0 ≤ i < n → first_stop es n k i p → first_stop es n k i p' → p = p'.
Proof.
  intros Hi (Hp & Hps & Hb) (Hp' & Hps' & Hb').
  destruct (Z.lt_trichotomy (cdist n i p) (cdist n i p')) as [Hlt|[Heq|Hgt]].
  - rewrite (Hb' p Hp Hlt) in Hps. discriminate.
  - cdist_lia.
  - rewrite (Hb p' Hp' Hgt) in Hps'. discriminate.
Qed.

Lemma scan_first_stop (t : table) k i p :
  shaped t = true → 0 ≤ i < nentries t →
  first_stop (entries t) (nentries t) k i p →
  Yields (fun fuel => scan fuel t k i) (Z.to_nat (nentries t) - 1)
         (leave (entries t) p).
Proof.
  intros Ht Hi (Hp & Hps & Hb) fuel.
  pose proof (cdist_range (nentries t) i p Hi Hp) as Hd.
  rewrite (scan_walk t k p Ht Hp Hps (Z.to_nat (cdist (nentries t) i p)) i fuel)
    by (done || lia).
  destruct (Nat.leb_spec fuel (Z.to_nat (cdist (nentries t) i p))).
  - split; [by right|]. lia.
  - split; [by left|done].
Qed.

(** *** Composing calls that yield *)

Lemma Yields_Done {A : Type} (m : nat → outcome A) B r fuel r' :
  Yields m B r → m fuel = Done r' → r' = r.
Proof. intros Hm E. destruct (Hm fuel) as [[E'|E'] _]; congruence. Qed.

Lemma Yields_weaken {A : Type} (m : nat → outcome A) B B' r :
  Yields m B r → (B ≤ B')%nat → Yields m B' r.
Proof.
  intros Hm HB fuel. destruct (Hm fuel) as [Hor Hbig].
  split; [done|]. intros. apply Hbig. lia.
Qed.

(** *** The checks, read as statements over all slots *)

Lemma elem_of_indices n i : i ∈ indices n ↔ 0 ≤ i < n.
Proof.
  unfold indices. rewrite list_elem_of_fmap. split.
  - intros (m & -> & Hm). apply elem_of_seq in Hm. lia.
  - intros Hi. exists (Z.to_nat i). split; [lia|]. apply elem_of_seq. lia.
Qed.

Lemma all_idx_spec n (P : Z → bool) :
  all_idx n P = true ↔ ∀ i, 0 ≤ i < n → P i = true.
Proof.
  unfold all_idx. rewrite forallb_forall. split.
  - intros H i Hi. apply H, list_elem_of_In, elem_of_indices, Hi.
  - intros H i Hi. apply H, elem_of_indices, list_elem_of_In, Hi.
Qed.

Lemma probe_ok_spec (es : list entry) n :
  probe_ok es n = true ↔
  ∀ j q, 0 ≤ j < n → 0 ≤ q < n →
    valid (ent es j) = true → valid (ent es q) = false →
    cdist n (home n (key (ent es j))) j < cdist n q j.
Proof.
  unfold THash.probe_ok. rewrite all_idx_spec. split.
  - intros H j q Hj Hq Hvj Hvq. specialize (H j Hj).
    rewrite all_idx_spec in H. specialize (H q Hq).
    rewrite Hvj, Hvq in H. cbn in H. lia.
  - intros H j Hj. rewrite all_idx_spec. intros q Hq.
    destruct (valid (ent es j)) eqn:Hvj; [|done].
    destruct (valid (ent es q)) eqn:Hvq; [done|]. cbn.
    apply Z.ltb_lt. now apply H.
Qed.

Lemma nodup_spec (es : list entry) n :
  nodup es n = true ↔
  ∀ i j, 0 ≤ i < n → 0 ≤ j < n →
    valid (ent es i) = true → valid (ent es j) = true →
    TKEYEQUAL (key (ent es i)) (key (ent es j)) = true → i = j.
Proof.
  unfold THash.nodup. rewrite all_idx_spec. split.
  - intros H i j Hi Hj Hvi Hvj Heq. specialize (H i Hi).
    rewrite all_idx_spec in H. specialize (H j Hj).
    rewrite Hvi, Hvj, Heq in H. cbn in H. lia.
  - intros H i Hi. rewrite all_idx_spec. intros j Hj.
    destruct (valid (ent es i)) eqn:Hvi; [|done].
    destruct (valid (ent es j)) eqn:Hvj; [|done].
    destruct (TKEYEQUAL _ _) eqn:Heq; [|done]. cbn.
    apply Z.eqb_eq. now apply H.
Qed.

(** *** Counting valid slots *)

Lemma count_valid_bounds (es : list entry) :
  0 ≤ count_valid es ≤ Z.of_nat (length es).
Proof.
  induction es as [|e es IH]; cbn [count_valid length]; [lia|].
  destruct (valid e); lia.
Qed.

Lemma count_valid_replicate m : count_valid (replicate m zero_entry) = 0.
Proof. induction m as [|m IH]; cbn; [done|]. apply IH. Qed.

Lemma count_valid_insert (es : list entry) (i : nat) e e0 :
  es !! i = Some e0 →
  count_valid (<[i := e]> es)
  = count_valid es - (if valid e0 then 1 else 0) + (if valid e then 1 else 0).
Proof.
  revert i. induction es as [|a es IH]; intros [|i] Hi; try done.
  - cbn in Hi. injection Hi as ->. cbn. lia.
  - cbn in Hi. change (<[S i := e]> (a :: es)) with (a :: <[i := e]> es).
    cbn [count_valid]. rewrite (IH i Hi). lia.
Qed.

Lemma count_valid_store (es : list entry) i e :
  0 ≤ i < Z.of_nat (length es) →
  count_valid (store es i e)
  = count_valid es - (if valid (ent es i) then 1 else 0)
    + (if valid e then 1 else 0).
Proof.
  intros Hi. unfold store. apply count_valid_insert.
  pose proof (ent_slot es i Hi) as E. unfold slot in E.
  destruct (Z.ltb_spec i 0); [lia|done].
Qed.

Lemma count_valid_full (es : list entry) :
  (∀ i, 0 ≤ i < Z.of_nat (length es) → valid (ent es i) = true) →
  count_valid es = Z.of_nat (length es).
Proof.
  induction es as [|e es IH]; intros Hall; [done|].
  cbn [count_valid length].
  assert (valid e = true) as ->.
  { apply (Hall 0). cbn [length]. lia. }
  rewrite IH; [lia|]. intros i Hi.
  specialize (Hall (i + 1)). unfold THash.ent, slot in *.
  destruct (Z.ltb_spec (i + 1) 0); [lia|].
  destruct (Z.ltb_spec i 0); [lia|].
  replace (Z.to_nat (i + 1)) with (S (Z.to_nat i)) in Hall by lia.
  apply Hall. cbn [length]. lia.
Qed.

Lemma vacant_exists (es : list entry) :
  count_valid es < Z.of_nat (length es) →
  ∃ q, 0 ≤ q < Z.of_nat (length es) ∧ valid (ent es q) = false.
Proof.
  intros Hlt.
  destruct (forallb (fun q => valid (ent es q))
              (indices (Z.of_nat (length es)))) eqn:Hall.
  - pose proof (proj1 (all_idx_spec _ _) Hall) as H.
    apply count_valid_full in H. lia.
  - apply not_true_iff_false in Hall.
    rewrite forallb_forall in Hall.
    destruct (existsb (fun q => negb (valid (ent es q)))
                (indices (Z.of_nat (length es)))) eqn:Hex.
    + apply existsb_exists in Hex as (q & Hq & Hv).
      exists q. split.
      * now apply elem_of_indices, list_elem_of_In.
      * now apply negb_true_iff.
    + exfalso. apply Hall. intros q Hq.
      apply not_true_iff_false in Hex. rewrite existsb_exists in Hex.
      destruct (valid (ent es q)) eqn:Hv; [done|].
      exfalso. apply Hex. exists q. now rewrite Hv.
Qed.

(** *** Where the probe for a key stops *)

Hypothesis Hcontract : contract TKEYHASH TKEYEQUAL.

Lemma keq_false_trans a b c :
  TKEYEQUAL a b = true → TKEYEQUAL a c = false → TKEYEQUAL b c = false.
Proof.
  intros Hab Hac. destruct (TKEYEQUAL b c) eqn:Hbc; [|done].
  rewrite (keq_trans _ _ Hcontract a b c Hab Hbc) in Hac. discriminate.
Qed.

Lemma home_eq n a b : TKEYEQUAL a b = true → home n a = home n b.
Proof.
  intros Hab. unfold THash.home. now rewrite (hash_eq _ _ Hcontract a b Hab).
Qed.

(** A stored key is where its probe stops. *)
Lemma found_first_stop (es : list entry) n k j :
  cap_ok n = true → probe_ok es n = true → nodup es n = true →
  0 ≤ j < n → valid (ent es j) = true →
  TKEYEQUAL k (key (ent es j)) = true →
  first_stop es n k (home n k) j.
Proof.
  intros Hn Hpr Hnd Hj Hvj Hkj.
  rewrite probe_ok_spec in Hpr. rewrite nodup_spec in Hnd.
  pose proof (home_range n k Hn) as Hh.
  repeat split; [lia|lia| |].
  - unfold THash.passes. now rewrite Hvj, Hkj.
  - intros x Hx Hlt. unfold THash.passes. apply andb_true_iff. split.
    + destruct (valid (ent es x)) eqn:Hvx; [done|].
      specialize (Hpr j x Hj Hx Hvj Hvx).
      rewrite <- (home_eq n k _ Hkj) in Hpr. cdist_lia.
    + apply negb_true_iff.
      destruct (TKEYEQUAL k (key (ent es x))) eqn:Hkx; [|done].
      destruct (valid (ent es x)) eqn:Hvx.
      * assert (x = j) as ->; [|lia].
        apply Hnd; try done.
        apply (keq_trans _ _ Hcontract _ k); [|done].
        now apply (keq_sym _ _ Hcontract).
      * specialize (Hpr j x Hj Hx Hvj Hvx).
        rewrite <- (home_eq n k _ Hkj) in Hpr. cdist_lia.
Qed.

(** The probe for a key that is not stored stops at a slot that is not
    valid. *)
Lemma absent_first_stop (es : list entry) n k q :
  cap_ok n = true → 0 ≤ q < n → valid (ent es q) = false →
  (∀ i, 0 ≤ i < n → valid (ent es i) = true →
        TKEYEQUAL k (key (ent es i)) = false) →
  ∃ p, first_stop es n k (home n k) p ∧ valid (ent es p) = false.
Proof.
  intros Hn Hq Hvq Habs.
  pose proof (home_range n k Hn) as Hh.
  assert (passes es k q = false) as Hpq.
  { unfold THash.passes. now rewrite Hvq. }
  pose proof (cdist_range n (home n k) q Hh Hq) as Hd.
  destruct (first_stop_exists es n k q Hq Hpq
              (Z.to_nat (cdist n (home n k) q)) (home n k) Hh)
    as (p & Hfs & _); [lia|].
  exists p. split; [done|].
  destruct Hfs as (Hp & Hps & _). unfold THash.passes in Hps.
  destruct (valid (ent es p)) eqn:Hvp; [|done].
  rewrite (Habs p Hp Hvp) in Hps. discriminate.
Qed.

Lemma first_stop_hit (es : list entry) n k i p :
  first_stop es n k i p → valid (ent es p) = true →
  TKEYEQUAL k (key (ent es p)) = true.
Proof.
  intros (_ & Hps & _) Hv. unfold THash.passes in Hps. rewrite Hv in Hps.
  now destruct (TKEYEQUAL k (key (ent es p))).
Qed.

(** *** [put] where the table does not grow *)

Lemma put_hit (t : table) k v p :
  shaped t = true →
  first_stop (entries t) (nentries t) k (home (nentries t) k) p →
  valid (ent (entries t) p) = true →
  Yields (fun fuel => put fuel t k v) (Z.to_nat (nentries t))
    (Table (store (entries t) p (Entry true k v)) (nentries t) (size t),
     Some (key (ent (entries t) p), value (ent (entries t) p))).
Proof.
  intros Ht Hfs Hv [|fuel]; [split; [by right|lia]|].
  cbn [THash.put]. rewrite first_idx_home by done.
  pose proof (home_range (nentries t) k (shaped_cap t Ht)) as Hh.
  destruct (scan_first_stop t k _ p Ht Hh Hfs fuel) as [[E|E] Hbig].
  - rewrite E. cbn [bind]. unfold THash.leave. rewrite Hv.
    cbv beta iota. rewrite Hv. split; [by left|done].
  - rewrite E. cbn [bind]. split; [by right|].
    intros Hf. rewrite Hbig in E by lia. discriminate.
Qed.

Lemma put_miss (t : table) k v p :
  shaped t = true →
  first_stop (entries t) (nentries t) k (home (nentries t) k) p →
  valid (ent (entries t) p) = false →
  - 2 ^ 30 ≤ size t → 2 * (size t + 1) ≤ nentries t →
  Yields (fun fuel => put fuel t k v) (Z.to_nat (nentries t))
    (Table (store (entries t) p (Entry true k v)) (nentries t) (size t + 1),
     None).
Proof.
  intros Ht Hfs Hv Hs0 Hs [|fuel]; [split; [by right|lia]|].
  cbn [THash.put]. rewrite first_idx_home by done.
  pose proof (home_range (nentries t) k (shaped_cap t Ht)) as Hh.
  pose proof (shaped_range t Ht) as Hn.
  destruct (scan_first_stop t k _ p Ht Hh Hfs fuel) as [[E|E] Hbig].
  - rewrite E. cbn [bind]. unfold THash.leave. rewrite Hv.
    cbv beta iota zeta. cbn [nentries size]. unfold THASH_FACTOR_CRITICAL.
    rewrite (wrap_small (size t + 1)) by lia.
    rewrite (wrap_small (2 * (size t + 1))) by lia.
    destruct (Z.ltb_spec (nentries t) (2 * (size t + 1))); [lia|].
    split; [by left|done].
  - rewrite E. cbn [bind]. split; [by right|].
    intros Hf. rewrite Hbig in E by lia. discriminate.
Qed.

(** *** Soundness is kept by a write at the slot where the probe stops *)

Lemma sound_spec (t : table) :
  sound t = true ↔
  shaped t = true ∧ size t = count_valid (entries t)
  ∧ probe_ok (entries t) (nentries t) = true
  ∧ nodup (entries t) (nentries t) = true.
Proof. unfold THash.sound. rewrite !andb_true_iff, Z.eqb_eq. tauto. Qed.

Lemma table_ok_spec (t : table) :
  table_ok t = true ↔ sound t = true ∧ 2 * size t ≤ nentries t.
Proof.
  unfold THash.table_ok, THASH_FACTOR_CRITICAL.
  rewrite andb_true_iff, Z.leb_le. tauto.
Qed.

Lemma sound_absent (t : table) k p :
  sound t = true →
  first_stop (entries t) (nentries t) k (home (nentries t) k) p →
  valid (ent (entries t) p) = false → absent t k.
Proof.
  intros (Ht & _ & Hpr & Hnd)%sound_spec Hfs Hv i Hi Hvi.
  destruct (TKEYEQUAL k (key (ent (entries t) i))) eqn:Hki; [|done].
  pose proof (shaped_cap t Ht) as Hn.
  pose proof (found_first_stop _ _ k i Hn Hpr Hnd Hi Hvi Hki) as Hfs'.
  pose proof (home_range (nentries t) k Hn) as Hh.
  rewrite (first_stop_unique _ _ _ _ _ _ Hh Hfs Hfs') in Hv. congruence.
Qed.

Lemma put_miss_sound (t : table) k v p s :
  sound t = true →
  first_stop (entries t) (nentries t) k (home (nentries t) k) p →
  valid (ent (entries t) p) = false → s = size t + 1 →
  let t' := Table (store (entries t) p (Entry true k v)) (nentries t) s in
  sound t' = true
  ∧ ∀ x y, stored t' x y ↔
           (x = k ∧ y = v) ∨ (stored t x y ∧ TKEYEQUAL k x = false).
Proof.
  intros Hsound Hfs Hv -> t'.
  pose proof (sound_absent t k p Hsound Hfs Hv) as Habs.
  apply sound_spec in Hsound as (Ht & Hsz & Hpr & Hnd).
  pose proof (shaped_cap t Ht) as Hn. pose proof (shaped_len t Ht) as Hlen.
  pose proof (home_range (nentries t) k Hn) as Hh.
  destruct Hfs as (Hp & Hps & Hbefore).
  assert (∀ j, 0 ≤ j < nentries t →
            ent (entries t') j
            = if j =? p then Entry true k v else ent (entries t) j) as Hent.
  { intros j Hj. apply ent_store; lia. }
  split.
  - apply sound_spec. repeat split.
    + unfold shaped. cbn. rewrite length_store, Hlen, Z.eqb_refl. done.
    + cbn. rewrite count_valid_store, Hv by lia. cbn. lia.
    + apply probe_ok_spec. change (nentries t') with (nentries t).
      intros j q Hj Hq.
      rewrite (Hent j Hj), (Hent q Hq).
      destruct (Z.eqb_spec q p); [done|].
      destruct (Z.eqb_spec j p) as [->|Hne]; cbn [valid key].
      * intros _ Hvq.
        assert (¬ cdist (nentries t) (home (nentries t) k) q
                  < cdist (nentries t) (home (nentries t) k) p) as Hge.
        { intros Hlt. specialize (Hbefore q Hq Hlt).
          unfold THash.passes in Hbefore. now rewrite Hvq in Hbefore. }
        cdist_lia.
      * rewrite probe_ok_spec in Hpr. now apply Hpr.
    + apply nodup_spec. change (nentries t') with (nentries t).
      intros i j Hi Hj.
      rewrite (Hent i Hi), (Hent j Hj). rewrite nodup_spec in Hnd.
      destruct (Z.eqb_spec i p) as [->|Hi'], (Z.eqb_spec j p) as [->|Hj'];
        cbn [valid key]; try done.
      * intros _ Hvj E. rewrite (Habs j Hj Hvj) in E. discriminate.
      * intros Hvi _ E. apply (keq_sym _ _ Hcontract) in E.
        rewrite (Habs i Hi Hvi) in E. discriminate.
      * now apply Hnd.
  - intros x y. split.
    + intros (i & Hi & Hvi & Hki & Hyi).
      change (nentries t') with (nentries t) in Hi.
      rewrite (Hent i Hi) in Hvi, Hki, Hyi.
      destruct (Z.eqb_spec i p) as [->|Hne]; cbn in Hki, Hyi.
      * left. done.
      * right. split; [by exists i|]. subst x. now apply Habs.
    + intros [[-> ->]|[(i & Hi & Hvi & Hki & Hyi) Hk]].
      * exists p. change (nentries t') with (nentries t).
        rewrite (Hent p Hp), Z.eqb_refl. done.
      * exists i. change (nentries t') with (nentries t).
        rewrite (Hent i Hi).
        destruct (Z.eqb_spec i p) as [->|Hne]; [congruence|done].
Qed.

Lemma put_hit_sound (t : table) k v p :
  sound t = true →
  first_stop (entries t) (nentries t) k (home (nentries t) k) p →
  valid (ent (entries t) p) = true →
  let t' := Table (store (entries t) p (Entry true k v)) (nentries t) (size t) in
  sound t' = true
  ∧ ∀ x y, stored t' x y ↔
           (x = k ∧ y = v) ∨ (stored t x y ∧ TKEYEQUAL k x = false).
Proof.
  intros Hsound Hfs Hv t'.
  pose proof (first_stop_hit _ _ _ _ _ Hfs Hv) as Hkp.
  apply sound_spec in Hsound as (Ht & Hsz & Hpr & Hnd).
  pose proof (shaped_cap t Ht) as Hn. pose proof (shaped_len t Ht) as Hlen.
  destruct Hfs as (Hp & Hps & Hbefore).
  assert (∀ j, 0 ≤ j < nentries t →
            ent (entries t') j
            = if j =? p then Entry true k v else ent (entries t) j) as Hent.
  { intros j Hj. apply ent_store; lia. }
  rewrite nodup_spec in Hnd.
  assert (∀ i, 0 ≤ i < nentries t → valid (ent (entries t) i) = true →
            TKEYEQUAL k (key (ent (entries t) i)) = true → i = p) as Honly.
  { intros i Hi Hvi Hki. apply Hnd; try done.
    apply (keq_trans _ _ Hcontract _ k); [|done].
    now apply (keq_sym _ _ Hcontract). }
  split.
  - apply sound_spec. repeat split.
    + unfold shaped. cbn. rewrite length_store, Hlen, Z.eqb_refl. done.
    + cbn. rewrite count_valid_store, Hv by lia. cbn. lia.
    + apply probe_ok_spec. change (nentries t') with (nentries t).
      intros j q Hj Hq.
      rewrite (Hent j Hj), (Hent q Hq). rewrite probe_ok_spec in Hpr.
      destruct (Z.eqb_spec q p); [done|].
      destruct (Z.eqb_spec j p) as [->|Hne]; cbn [valid key].
      * intros _ Hvq. rewrite (home_eq _ _ _ Hkp). now apply Hpr.
      * now apply Hpr.
    + apply nodup_spec. change (nentries t') with (nentries t).
      intros i j Hi Hj.
      rewrite (Hent i Hi), (Hent j Hj).
      destruct (Z.eqb_spec i p) as [->|Hi'], (Z.eqb_spec j p) as [->|Hj'];
        cbn [valid key]; try done.
      * intros _ Hvj E. symmetry. now apply Honly.
      * intros Hvi _ E. apply (keq_sym _ _ Hcontract) in E. now apply Honly.
      * now apply Hnd.
  - intros x y. split.
    + intros (i & Hi & Hvi & Hki & Hyi).
      change (nentries t') with (nentries t) in Hi.
      rewrite (Hent i Hi) in Hvi, Hki, Hyi.
      destruct (Z.eqb_spec i p) as [->|Hne]; cbn in Hki, Hyi.
      * left. done.
      * right. split; [by exists i|]. subst x.
        destruct (TKEYEQUAL k (key (ent (entries t) i))) eqn:E; [|done].
        now specialize (Honly i Hi Hvi E).
    + intros [[-> ->]|[(i & Hi & Hvi & Hki & Hyi) Hk]].
      * exists p. change (nentries t') with (nentries t).
        rewrite (Hent p Hp), Z.eqb_refl. done.
      * exists i. change (nentries t') with (nentries t).
        rewrite (Hent i Hi).
        destruct (Z.eqb_spec i p) as [->|Hne]; [congruence|done].
Qed.

(** *** [create_capacity] *)

Lemma land_pred_zero n : 0 < n → Z.land n (n - 1) = 0 → n = 2 ^ Z.log2 n.
Proof.
  intros Hn Hl. destruct (Z.log2_spec n Hn) as [Hlo Hhi].
  destruct (Z.eq_dec n (2 ^ Z.log2 n)) as [|Hne]; [done|]. exfalso.
  assert (Z.log2 (n - 1) = Z.log2 n) as Hlog.
  { apply Z.log2_unique; [apply Z.log2_nonneg|lia]. }
  assert (Z.testbit (Z.land n (n - 1)) (Z.log2 n) = true) as Hbit.
  { rewrite Z.land_spec, Z.bit_log2 by lia.
    rewrite <- Hlog. rewrite Z.bit_log2; [done|].
    pose proof (Z.pow_pos_nonneg 2 (Z.log2 n) ltac:(lia) (Z.log2_nonneg n)).
    lia. }
  rewrite Hl, Z.bits_0 in Hbit. discriminate.
Qed.

Lemma pow2_land_pred j : 0 ≤ j → Z.land (2 ^ j) (2 ^ j - 1) = 0.
Proof.
  intros Hj. replace (2 ^ j - 1) with (Z.ones j) by (rewrite Z.ones_equiv; lia).
  rewrite Z.land_ones by done. apply Z.mod_same.
  pose proof (Z.pow_pos_nonneg 2 j ltac:(lia) Hj). lia.
Qed.

Lemma pow2_range j : 3 ≤ j ≤ 30 → 8 ≤ 2 ^ j ≤ 2 ^ 30.
Proof. intros Hj. apply cap_ok_range, pow2_cap_ok, Hj. Qed.

Lemma double_until_stuck fuel n target :
  n = - 2 ^ 31 ∨ n = 0 → 8 ≤ target →
  double_until fuel n target = OutOfFuel.
Proof.
  revert n. induction fuel as [|fuel IH]; intros n Hn Ht; [done|].
  cbn [double_until]. destruct (Z.ltb_spec n target); [|lia].
  apply IH; [|done]. destruct Hn as [-> | ->]; by right.
Qed.

(** The loop stops at the first power of two, from [2 ^ j] on, that
    reaches the target; when it overflows it never stops. *)
Lemma double_until_spec target :
  8 ≤ target < 2 ^ 31 →
  ∀ fuel j, 3 ≤ j ≤ 30 →
    match double_until fuel (2 ^ j) target with
    | Done m => ∃ j', j ≤ j' ≤ 30 ∧ m = 2 ^ j' ∧ target ≤ m
                      ∧ (j < j' → 2 ^ (j' - 1) < target)
    | OutOfFuel => (fuel ≤ 30 - Z.to_nat j)%nat ∨ 2 ^ 30 < target
    | _ => False
    end.
Proof.
  intros Ht. induction fuel as [|fuel IH]; intros j Hj; [left; lia|].
  cbn [double_until]. pose proof (pow2_range j Hj) as Hr.
  destruct (Z.ltb_spec (2 ^ j) target) as [Hlt|Hge].
  - destruct (Z.eq_dec j 30) as [->|Hne].
    + rewrite double_until_stuck; [right; lia|left; done|lia].
    + replace (2 ^ j * 2) with (2 ^ (j + 1)) by (rewrite Z.pow_add_r by lia; lia).
      pose proof (pow2_range (j + 1) ltac:(lia)) as Hr'.
      rewrite wrap_small by lia.
      specialize (IH (j + 1) ltac:(lia)).
      destruct (double_until fuel (2 ^ (j + 1)) target) as [m| | |]; try done.
      * destruct IH as (j' & Hj' & -> & Hm & Hprev).
        exists j'. repeat split; try lia. intros _.
        destruct (Z.eq_dec j' (j + 1)) as [->|]; [|apply Hprev; lia].
        now replace (j + 1 - 1) with j by lia.
      * destruct IH as [IH|IH]; [left; lia|by right].
  - exists j. repeat split; lia.
Qed.

Lemma create_capacity_spec fuel c :
  match create_capacity fuel c with
  | Done t => ∃ N, cap_ok N = true
                   ∧ t = Table (replicate (Z.to_nat N) zero_entry) N 0
                   ∧ (- 2 ^ 29 ≤ c → 4 * c ≤ 2 ^ 30 → N = growth_target c)
  | OutOfFuel => (fuel ≤ 27)%nat ∨ c < - 2 ^ 29 ∨ 2 ^ 30 < 4 * c
  | _ => False
  end.
Proof.
  unfold THash.create_capacity, THASH_FACTOR_REALLOC.
  set (T := if wrap (4 * c) <? 8 then 8 else wrap (4 * c)).
  assert (8 ≤ T < 2 ^ 31) as HT.
  { subst T. unfold wrap.
    pose proof (Z.mod_pos_bound (4 * c + 2 ^ 31) (2 ^ 32) ltac:(lia)).
    destruct (Z.ltb_spec ((4 * c + 2 ^ 31) mod 2 ^ 32 - 2 ^ 31) 8); lia. }
  assert (- 2 ^ 29 ≤ c → 4 * c ≤ 2 ^ 30 → T = Z.max (4 * c) 8) as HTc.
  { intros H1 H2. subst T. rewrite wrap_small by lia.
    destruct (Z.ltb_spec (4 * c) 8); lia. }
  rewrite (wrap_small (T - 1)) by lia.
  destruct (Z.eqb_spec (Z.land T (T - 1)) 0) as [Hz|Hnz]; cbn [negb bind].
  - rewrite (wrap_small (T - 1)), Hz by lia. cbn.
    pose proof (land_pred_zero T ltac:(lia) Hz) as Hpow.
    exists T. repeat split.
    + unfold cap_ok. rewrite <- Hpow, Z.eqb_refl. cbn.
      apply andb_true_iff. rewrite !Z.leb_le. split; [lia|].
      destruct (Z.le_gt_cases (Z.log2 T) 30) as [Hle|Hgt].
      * rewrite Hpow. apply Z.pow_le_mono_r; lia.
      * assert (2 ^ 31 ≤ 2 ^ Z.log2 T) by (apply Z.pow_le_mono_r; lia). lia.
    + intros H1 H2. unfold growth_target. rewrite <- (HTc H1 H2).
      rewrite Hpow at 2. rewrite Z.log2_up_pow2 by apply Z.log2_nonneg.
      done.
  - pose proof (double_until_spec T HT fuel 3 ltac:(lia)) as Hd.
    change (2 ^ 3) with 8 in Hd.
    destruct (double_until fuel 8 T) as [m| | |]; cbn [bind]; try done.
    + destruct Hd as (j' & Hj' & -> & Hm & Hprev).
      pose proof (pow2_range j' Hj') as Hr.
      rewrite wrap_small by lia. rewrite pow2_land_pred by lia. cbn.
      exists (2 ^ j'). repeat split; [now apply pow2_cap_ok|].
      intros H1 H2. unfold growth_target. rewrite <- (HTc H1 H2).
      f_equal. symmetry.
      destruct (Z.eq_dec j' 3) as [->|Hne].
      * exfalso. apply Hnz. assert (T = 8) as -> by lia. done.
      * apply Z.log2_up_unique; [lia|]. split; [|done].
        replace (Z.pred j') with (j' - 1) by lia. apply Hprev. lia.
    + destruct Hd as [Hd|Hd]; [left; lia|].
      right. destruct (Z.le_gt_cases (- 2 ^ 29) c); [|by left].
      destruct (Z.le_gt_cases (4 * c) (2 ^ 30)); [|by right].
      rewrite HTc in Hd by done. lia.
Qed.

Lemma growth_target_ge c : 4 * c ≤ growth_target c ∧ 8 ≤ growth_target c.
Proof.
  unfold growth_target.
  pose proof (Z.log2_up_spec (Z.max (4 * c) 8) ltac:(lia)) as [_ H]. lia.
Qed.

Lemma empty_table_ok N :
  cap_ok N = true →
  let t := Table (replicate (Z.to_nat N) zero_entry) N 0 in
  table_ok t = true ∧ ∀ x y, ¬ stored t x y.
Proof.
  intros HN t. pose proof (cap_ok_range N HN) as Hr. split.
  - apply table_ok_spec. split; [|cbn; lia]. apply sound_spec. repeat split.
    + unfold shaped. cbn. rewrite length_replicate, HN.
      rewrite Z2Nat.id by lia. now rewrite Z.eqb_refl.
    + cbn. now rewrite count_valid_replicate.
    + apply probe_ok_spec. cbn. intros j q _ _. now rewrite ent_replicate.
    + apply nodup_spec. cbn. intros i j _ _. now rewrite ent_replicate.
  - intros x y (i & _ & Hv & _). cbn in Hv. now rewrite ent_replicate in Hv.
Qed.

(** *** The stored pairs *)

Lemma absent_stored (t : table) k :
  absent t k ↔ ∀ x y, stored t x y → TKEYEQUAL k x = false.
Proof.
  split.
  - intros Habs x y (i & Hi & Hv & <- & _). now apply Habs.
  - intros H i Hi Hv. apply (H _ (value (ent (entries t) i))). by exists i.
Qed.

Lemma stored_at (t : table) i :
  0 ≤ i < nentries t → valid (ent (entries t) i) = true →
  stored t (key (ent (entries t) i)) (value (ent (entries t) i)).
Proof. intros Hi Hv. by exists i. Qed.

Lemma count_at_cons (es : list entry) i idxs :
  count_at es (i :: idxs)
  = (if valid (ent es i) then 1 else 0) + count_at es idxs.
Proof.
  unfold THash.count_at. cbn [List.filter].
  destruct (valid (ent es i)); cbn [length]; lia.
Qed.

Lemma count_at_nonneg (es : list entry) idxs : 0 ≤ count_at es idxs.
Proof. unfold THash.count_at. lia. Qed.

Lemma ent_cons (e : entry) es i : 0 ≤ i → ent (e :: es) (i + 1) = ent es i.
Proof.
  intros Hi. unfold THash.ent, slot.
  destruct (Z.ltb_spec (i + 1) 0); [lia|].
  destruct (Z.ltb_spec i 0); [lia|].
  now replace (Z.to_nat (i + 1)) with (S (Z.to_nat i)) by lia.
Qed.

Lemma count_at_seq (es : list entry) (start : nat) :
  Z.of_nat (length (List.filter
    (fun i => valid (ent es (i - Z.of_nat start)))
    (Z.of_nat <$> seq start (length es)))) = count_valid es.
Proof.
  revert start. induction es as [|e es IH]; intros start; [done|].
  cbn [length seq fmap list_fmap List.filter count_valid].
  rewrite Z.sub_diag. change (ent (e :: es) 0) with e.
  rewrite <- (IH (S start)).
  rewrite (List.filter_ext_in
             (fun i => valid (ent (e :: es) (i - Z.of_nat start)))
             (fun i => valid (ent es (i - Z.of_nat (S start))))).
  - destruct (valid e); cbn [length]; lia.
  - intros i Hi. apply list_elem_of_In, list_elem_of_fmap in Hi as (m & -> & Hm).
    apply elem_of_seq in Hm.
    replace (Z.of_nat m - Z.of_nat start)
      with (Z.of_nat m - Z.of_nat (S start) + 1) by lia.
    rewrite ent_cons by lia. done.
Qed.

Lemma count_at_indices (es : list entry) :
  count_at es (indices (Z.of_nat (length es))) = count_valid es.
Proof.
  unfold THash.count_at, indices. rewrite Nat2Z.id.
  rewrite <- (count_at_seq es 0).
  f_equal. f_equal. apply List.filter_ext. intros i.
  now rewrite Z.sub_0_r.
Qed.

Lemma NoDup_indices n : NoDup (indices n).
Proof.
  unfold indices. apply NoDup_fmap_2; [|apply NoDup_seq].
  intros a b. lia.
Qed.

(** *** Safety of [put]: the rehash *)

(** The [for] loop of the rehash and of [copy], for any [put] that meets
    [put_post]: every valid slot of [es] among [idxs] is put into the new
    table, and no [assert] fails. *)
Lemma for_valid_put_safe
    (putf : table → K → V → outcome (table * option (K * V)))
    (es : list entry) n :
  (∀ t k v, table_ok t = true →
     match putf t k v with
     | Done (t', r) => put_post t k v t' r
     | OutOfFuel => True
     | _ => False
     end) →
  Z.of_nat (length es) = n → nodup es n = true →
  ∀ idxs nh,
    NoDup idxs → (∀ i, i ∈ idxs → 0 ≤ i < n) → table_ok nh = true →
    (∀ i, i ∈ idxs → valid (ent es i) = true → absent nh (key (ent es i))) →
    match for_valid (put_new putf) es idxs nh with
    | Done nh' =>
        table_ok nh' = true
        ∧ (∀ x y, stored nh' x y ↔
             stored nh x y
             ∨ ∃ i, i ∈ idxs ∧ valid (ent es i) = true
                    ∧ key (ent es i) = x ∧ value (ent es i) = y)
        ∧ size nh' = size nh + count_at es idxs
        ∧ (2 * (size nh + count_at es idxs) ≤ nentries nh →
           nentries nh' = nentries nh)
    | OutOfFuel => True
    | _ => False
    end.
Proof.
  intros Hput Hlen Hnd. rewrite nodup_spec in Hnd.
  induction idxs as [|i idxs IH]; intros nh Hdup Hrange Hok Habs.
  - cbn [THash.for_valid].
    assert (count_at es [] = 0) as -> by done.
    refine (conj Hok (conj _ (conj _ _))); [|lia|done].
    intros x y. split; [by left|].
    intros [H|(i & Hi & _)]; [done|]. now apply elem_of_nil in Hi.
  - assert (0 ≤ i < n) as Hi by (apply Hrange, elem_of_cons; by left).
    apply NoDup_cons in Hdup as [Hni Hdup].
    cbn [THash.for_valid]. rewrite ent_slot by lia. rewrite count_at_cons.
    destruct (valid (ent es i)) eqn:Hv.
    + assert (absent nh (key (ent es i))) as Habs_i.
      { apply Habs; [|done]. apply elem_of_cons. by left. }
      unfold put_new at 1.
      specialize (Hput nh (key (ent es i)) (value (ent es i)) Hok).
      destruct (putf nh (key (ent es i)) (value (ent es i)))
        as [[nh1 r]| | |]; cbn [bind]; try done.
      destruct Hput as (Hok1 & Hst1 & Hr & Hcap1 & _).
      destruct r as [[k0 v0]|].
      { destruct Hr as (Hst0 & Hk & _).
        rewrite absent_stored in Habs_i.
        rewrite (Habs_i _ _ Hst0) in Hk. discriminate. }
      destruct Hr as [_ Hsz1]. cbn [bind].
      assert (∀ j, j ∈ idxs → valid (ent es j) = true →
                absent nh1 (key (ent es j))) as Habs1.
      { intros j Hj Hvj. apply absent_stored. intros x y Hs.
        apply Hst1 in Hs as [[-> ->]|[Hs _]].
        - destruct (TKEYEQUAL (key (ent es j)) (key (ent es i))) eqn:E;
            [|done].
          assert (0 ≤ j < n) as Hjr by (apply Hrange, elem_of_cons; by right).
          rewrite (Hnd j i Hjr Hi Hvj Hv E) in Hj. done.
        - assert (absent nh (key (ent es j))) as Ha.
          { apply Habs; [|done]. apply elem_of_cons. by right. }
          rewrite absent_stored in Ha. now apply (Ha x y). }
      specialize (IH nh1 Hdup
                    (fun j Hj => Hrange j (proj2 (elem_of_cons _ _ _) (or_intror Hj)))
                    Hok1 Habs1).
      destruct (for_valid (put_new putf) es idxs nh1) as [nh'| | |];
        try done.
      destruct IH as (Hok' & Hst' & Hsz' & Hcap').
      pose proof (count_at_nonneg es idxs) as Hc.
      refine (conj Hok' (conj _ (conj _ _))); [|lia|].
      * intros x y. rewrite Hst', Hst1. split.
        -- intros [[[-> ->]|[Hs _]]|(j & Hj & Hvj & Hkj & Hyj)].
           ++ right. exists i. split; [apply elem_of_cons; by left|done].
           ++ by left.
           ++ right. exists j. split; [apply elem_of_cons; by right|done].
        -- intros [Hs|(j & Hj & Hvj & Hkj & Hyj)].
           ++ left. right. split; [done|].
              rewrite absent_stored in Habs_i. now apply (Habs_i x y).
           ++ apply elem_of_cons in Hj as [->|Hj].
              ** left. left. done.
              ** right. by exists j.
      * intros Hroom.
        assert (nentries nh1 = nentries nh) as E by (apply Hcap1; right; lia).
        rewrite Hcap' by lia. done.
    + apply (IH nh Hdup) in Hok as IH'.
      * destruct (for_valid (put_new putf) es idxs nh) as [nh'| | |];
          try done.
        destruct IH' as (Hok' & Hst' & Hsz' & Hcap').
        refine (conj Hok' (conj _ (conj _ _))); [|lia|].
        -- intros x y. rewrite Hst'. split.
           ++ intros [Hs|(j & Hj & Hj')]; [by left|].
              right. exists j. split; [apply elem_of_cons; by right|done].
           ++ intros [Hs|(j & Hj & Hvj & Hj')]; [by left|].
              apply elem_of_cons in Hj as [->|Hj]; [congruence|].
              right. by exists j.
        -- intros Hroom. apply Hcap'. lia.
      * intros j Hj. apply Hrange, elem_of_cons. by right.
      * intros j Hj. apply Habs, elem_of_cons. by right.
Qed.

Lemma probe_stops (t : table) k i :
  shaped t = true → count_valid (entries t) < nentries t →
  0 ≤ i < nentries t →
  ∃ p, first_stop (entries t) (nentries t) k i p.
Proof.
  intros Ht Hcount Hi. pose proof (shaped_len t Ht) as Hlen.
  destruct (vacant_exists (entries t)) as (q & Hq & Hvq); [lia|].
  rewrite Hlen in Hq.
  assert (passes (entries t) k q = false) as Hpq.
  { unfold THash.passes. now rewrite Hvq. }
  pose proof (cdist_range (nentries t) i q Hi Hq) as Hd.
  destruct (first_stop_exists (entries t) (nentries t) k q Hq Hpq
              (Z.to_nat (cdist (nentries t) i q)) i Hi) as (p & Hfs & _);
    [lia|].
  by exists p.
Qed.

Lemma table_ok_facts (t : table) :
  table_ok t = true →
  sound t = true ∧ shaped t = true ∧ 8 ≤ nentries t ≤ 2 ^ 30
  ∧ 0 ≤ size t ∧ 2 * size t ≤ nentries t
  ∧ count_valid (entries t) < nentries t.
Proof.
  intros (Hsound & Hload)%table_ok_spec.
  pose proof (proj1 (sound_spec t) Hsound) as (Ht & Hsz & _).
  pose proof (shaped_range t Ht). pose proof (count_valid_bounds (entries t)).
  repeat split; try done; lia.
Qed.

Lemma put_safe fuel :
  ∀ (t : table) k v, table_ok t = true →
    match put fuel t k v with
    | Done (t', r) => put_post t k v t' r
    | OutOfFuel => True
    | _ => False
    end.
Proof.
  induction fuel as [|fuel IH]; intros t k v Hok; [done|].
  destruct (table_ok_facts t Hok) as (Hsound & Ht & Hn & Hs0 & Hload & Hcnt).
  pose proof (home_range (nentries t) k (shaped_cap t Ht)) as Hh.
  destruct (probe_stops t k _ Ht Hcnt Hh) as (p & Hfs).
  cbn [THash.put]. rewrite first_idx_home by done.
  destruct (scan_first_stop t k _ p Ht Hh Hfs fuel) as [[E|E] _];
    rewrite E; cbn [bind]; [|done].
  unfold THash.leave. destruct (valid (ent (entries t) p)) eqn:Hv.
  - (* the key is there: overwrite *)
    cbv beta iota. rewrite Hv.
    destruct (put_hit_sound t k v p Hsound Hfs Hv) as [Hsound' Hst].
    refine (conj _ (conj Hst (conj _ (conj _ _)))).
    + apply table_ok_spec. split; [done|]. cbn. lia.
    + refine (conj _ (conj _ _)); [|by eapply first_stop_hit|done].
      apply stored_at; [apply Hfs|done].
    + done.
    + done.
  - (* the key is new: insert, then check the growth trigger *)
    cbv beta iota zeta. cbn [nentries size entries].
    unfold THASH_FACTOR_CRITICAL.
    rewrite (wrap_small (size t + 1)) by lia.
    rewrite (wrap_small (2 * (size t + 1))) by lia.
    destruct (put_miss_sound t k v p (size t + 1) Hsound Hfs Hv eq_refl)
      as [Hsound1 Hst1].
    pose proof (sound_absent t k p Hsound Hfs Hv) as Habs.
    set (t1 := Table (store (entries t) p (Entry true k v)) (nentries t)
                 (size t + 1)) in *.
    destruct (Z.ltb_spec (nentries t) (2 * (size t + 1))) as [Htrig|Hroom].
    + (* rehash *)
      rewrite (wrap_small (size t + 1 + 1)) by lia.
      pose proof (create_capacity_spec fuel (size t + 1 + 1)) as Hcc.
      destruct (create_capacity fuel (size t + 1 + 1)) as [nh0| | |];
        cbn [bind]; try done.
      destruct Hcc as (N & HN & -> & HNc).
      destruct (empty_table_ok N HN) as [Hok0 Hst0].
      set (nh0 := Table (replicate (Z.to_nat N) zero_entry) N 0) in *.
      apply sound_spec in Hsound1 as (Ht1 & Hsz1 & _ & Hnd1).
      pose proof (shaped_len t1 Ht1) as Hlen1.
      pose proof (for_valid_put_safe (put fuel) (entries t1) (nentries t)
                    IH Hlen1 Hnd1 (indices (nentries t)) nh0
                    (NoDup_indices _)
                    (fun i Hi => proj1 (elem_of_indices _ _) Hi) Hok0) as Hfv.
      change (store (entries t) p (Entry true k v)) with (entries t1).
      destruct (for_valid (put_new (put fuel)) (entries t1)
                  (indices (nentries t)) nh0) as [nh'| | |]; cbn [bind].
      * destruct Hfv as (Hok' & Hst' & Hsz' & Hcap').
        { intros i _ _. apply absent_stored. intros x y Hs.
          now apply Hst0 in Hs. }
        assert (count_at (entries t1) (indices (nentries t)) = size t + 1)
          as Hcount.
        { change (nentries t) with (nentries t1). rewrite <- Hlen1.
          rewrite count_at_indices. symmetry. apply Hsz1. }
        refine (conj Hok' (conj _ (conj _ (conj _ _)))).
        -- intros x y. rewrite Hst', <- Hst1. split.
           ++ intros [Hs|(i & Hi & Hvi & <- & <-)]; [now apply Hst0 in Hs|].
              apply stored_at; [|done]. now apply elem_of_indices in Hi.
           ++ intros (i & Hi & Hvi & <- & <-). right. exists i.
              split; [now apply elem_of_indices|done].
        -- split; [done|]. rewrite Hsz', Hcount. cbn. lia.
        -- intros [Hne|Hle]; [done|lia].
        -- intros _ _ H28. rewrite Hcap'; [cbn; apply HNc; lia|].
           rewrite Hcount. cbn [size nentries nh0].
           rewrite HNc by lia.
           pose proof (growth_target_ge (size t + 1 + 1)). lia.
      * apply Hfv. intros i _ _. apply absent_stored. intros x y Hs.
        now apply Hst0 in Hs.
      * apply Hfv. intros i _ _. apply absent_stored. intros x y Hs.
        now apply Hst0 in Hs.
      * done.
    + (* no growth *)
      refine (conj _ (conj Hst1 (conj _ (conj _ _)))).
      * apply table_ok_spec. split; [done|]. cbn. lia.
      * done.
      * done.
      * intros _ Htrig. cbn in *. lia.
Qed.

(** *** [put] returns *)

Lemma put_returns_room (t : table) k v fuel :
  table_ok t = true → 2 * (size t + 1) ≤ nentries t →
  (Z.to_nat (nentries t) < fuel)%nat →
  ∃ res, put fuel t k v = Done res.
Proof.
  intros Hok Hroom Hfuel.
  destruct (table_ok_facts t Hok) as (Hsound & Ht & Hn & Hs0 & Hload & Hcnt).
  pose proof (home_range (nentries t) k (shaped_cap t Ht)) as Hh.
  destruct (probe_stops t k _ Ht Hcnt Hh) as (p & Hfs).
  destruct (valid (ent (entries t) p)) eqn:Hv.
  - eexists. now apply (put_hit t k v p Ht Hfs Hv fuel).
  - eexists. apply (put_miss t k v p Ht Hfs Hv ltac:(lia) Hroom fuel), Hfuel.
Qed.

Lemma for_valid_returns fuel (es : list entry) n :
  Z.of_nat (length es) = n →
  ∀ idxs nh,
    (∀ i, i ∈ idxs → 0 ≤ i < n) → table_ok nh = true →
    2 * (size nh + count_at es idxs) ≤ nentries nh →
    (Z.to_nat (nentries nh) < fuel)%nat →
    for_valid (put_new (put fuel)) es idxs nh ≠ OutOfFuel.
Proof.
  intros Hlen. induction idxs as [|i idxs IH]; intros nh Hrange Hok Hroom Hfuel;
    [done|].
  assert (0 ≤ i < n) as Hi by (apply Hrange, elem_of_cons; by left).
  assert (∀ j, j ∈ idxs → 0 ≤ j < n) as Hrange'.
  { intros j Hj. apply Hrange, elem_of_cons. by right. }
  cbn [THash.for_valid]. rewrite ent_slot by lia.
  rewrite count_at_cons in Hroom.
  pose proof (count_at_nonneg es idxs) as Hc.
  destruct (valid (ent es i)) eqn:Hv.
  - destruct (put_returns_room nh (key (ent es i)) (value (ent es i)) fuel Hok)
      as [[nh1 r] E]; [lia|done|].
    pose proof (put_safe fuel nh (key (ent es i)) (value (ent es i)) Hok)
      as Hsafe.
    unfold put_new at 1. rewrite E in *. cbn [bind].
    destruct Hsafe as (Hok1 & _ & Hr & Hcap & _).
    destruct r as [[k0 v0]|]; [done|]. destruct Hr as [_ Hsz].
    cbn [bind]. rewrite <- Hcap in * by (right; lia).
    apply IH; [done|done|lia|done].
  - apply IH; [done|done|lia|done].
Qed.

Lemma growth_target_le c j : 3 ≤ j → 4 * c ≤ 2 ^ j → growth_target c ≤ 2 ^ j.
Proof.
  intros Hj Hc. unfold growth_target. apply Z.pow_le_mono_r; [lia|].
  apply Z.log2_up_le_pow2; [lia|].
  assert (8 ≤ 2 ^ j) by (change 8 with (2 ^ 3); apply Z.pow_le_mono_r; lia).
  lia.
Qed.

(** A table at rest whose capacity is at most [2 ^ 28] grows within the
    range of [int]; [put] then returns, and what it returns meets
    [put_post]. *)
Lemma put_returns (t : table) k v fuel :
  table_ok t = true → nentries t ≤ 2 ^ 28 →
  (Z.to_nat (4 * nentries t) + 1 < fuel)%nat →
  ∃ t' r, put fuel t k v = Done (t', r) ∧ put_post t k v t' r.
Proof.
  intros Hok H28 Hfuel.
  pose proof (put_safe fuel t k v Hok) as Hsafe.
  destruct (put fuel t k v) as [[t' r]| | |] eqn:Eput; [by eauto|done|done|].
  exfalso. clear Hsafe.
  destruct (table_ok_facts t Hok) as (Hsound & Ht & Hn & Hs0 & Hload & Hcnt).
  destruct fuel as [|fuel]; [lia|].
  pose proof (home_range (nentries t) k (shaped_cap t Ht)) as Hh.
  destruct (probe_stops t k _ Ht Hcnt Hh) as (p & Hfs).
  cbn [THash.put] in Eput. rewrite first_idx_home in Eput by done.
  destruct (scan_first_stop t k _ p Ht Hh Hfs fuel) as [_ Hscan].
  rewrite Hscan in Eput by lia. cbn [bind] in Eput.
  unfold THash.leave in Eput.
  destruct (valid (ent (entries t) p)) eqn:Hv; [done|].
  cbv beta iota zeta in Eput. cbn [nentries size entries] in Eput.
  unfold THASH_FACTOR_CRITICAL in Eput.
  rewrite (wrap_small (size t + 1)) in Eput by lia.
  rewrite (wrap_small (2 * (size t + 1))) in Eput by lia.
  destruct (Z.ltb_spec (nentries t) (2 * (size t + 1))) as [Htrig|Hroom];
    [|done].
  rewrite (wrap_small (size t + 1 + 1)) in Eput by lia.
  pose proof (create_capacity_spec fuel (size t + 1 + 1)) as Hcc.
  destruct (create_capacity fuel (size t + 1 + 1)) as [nh0| | |];
    cbn [bind] in Eput; try done; [|lia].
  destruct Hcc as (N & HN & -> & HNc).
  destruct (empty_table_ok N HN) as [Hok0 _].
  destruct (put_miss_sound t k v p (size t + 1) Hsound Hfs Hv eq_refl)
    as [Hsound1 _].
  apply sound_spec in Hsound1 as (Ht1 & Hsz1 & _ & _).
  pose proof (shaped_len _ Ht1) as Hlen1. cbn [entries nentries] in Hlen1.
  cbn [entries size] in Hsz1.
  destruct (cap_ok_pow2 _ (shaped_cap t Ht)) as (j & Hj & Ej).
  assert (N ≤ 4 * nentries t) as HNle.
  { rewrite HNc by lia. rewrite Ej.
    replace (4 * 2 ^ j) with (2 ^ (j + 2))
      by (rewrite Z.pow_add_r by lia; lia).
    apply growth_target_le; [lia|].
    rewrite Z.pow_add_r by lia. lia. }
  pose proof (growth_target_ge (size t + 1 + 1)) as [HNge _].
  rewrite <- HNc in HNge by lia.
  set (es1 := store (entries t) p (Entry true k v)) in *.
  apply (for_valid_returns fuel es1 (nentries t) Hlen1
           (indices (nentries t))
           (Table (replicate (Z.to_nat N) zero_entry) N 0)).
  - intros i Hi. now apply elem_of_indices.
  - done.
  - rewrite <- Hlen1 at 1. rewrite count_at_indices, <- Hsz1. cbn. lia.
  - cbn. lia.
  - destruct (for_valid _ _ _ _); [discriminate|done|done|done].
Qed.

(** *** The loop that re-puts the entries after a vacated slot *)

(** One turn of the loop: the entry at the cursor [c] is taken out and put
    again; it lands at [p], at the cursor or behind it. *)
Lemma reput_step_inv (es : list entry) n i stop c p :
  cap_ok n = true → Z.of_nat (length es) = n → nodup es n = true →
  0 ≤ i < n → 0 ≤ stop < n → 0 ≤ c < n →
  1 ≤ cdist n i c < cdist n i stop →
  reput_inv es n i stop (cdist n i c) →
  let k := key (ent es c) in
  let v := value (ent es c) in
  let es1 := store es c (Entry false k v) in
  first_stop es1 n k (home n k) p →
  let es2 := store es1 p (Entry true k v) in
  valid (ent es1 p) = false
  ∧ reput_inv es2 n i stop (cdist n i c + 1)
  ∧ nodup es2 n = true
  ∧ count_valid es2 = count_valid es
  ∧ (∀ x y, stored (Table es2 n 0) x y ↔ stored (Table es n 0) x y).
Proof.
  intros Hn Hlen Hnd Hi Hstop Hc Htau (Hvs & Hpend & Hok) k v es1 Hfs es2.
  assert (valid (ent es c) = true) as Hvc by (apply Hpend; lia).
  rewrite nodup_spec in Hnd.
  pose proof (home_range n k Hn) as Hh.
  assert (∀ x, 0 ≤ x < n →
            ent es1 x = if x =? c then Entry false k v else ent es x) as Hent1.
  { intros x Hx. apply ent_store; lia. }
  destruct Hfs as (Hp & Hps & Hbefore).
  assert (valid (ent es1 p) = false) as Hvp1.
  { unfold THash.passes in Hps.
    destruct (valid (ent es1 p)) eqn:E; [|done]. exfalso.
    rewrite (Hent1 p Hp) in E, Hps.
    destruct (Z.eqb_spec p c) as [->|Hne]; [discriminate|].
    cbn in Hps. apply negb_false_iff in Hps.
    apply Hne. symmetry. now apply Hnd. }
  assert (∀ q, 0 ≤ q < n → valid (ent es1 q) = false →
            ¬ cdist n (home n k) q < cdist n (home n k) p) as Hnotbefore.
  { intros q Hq Hvq Hlt. specialize (Hbefore q Hq Hlt).
    unfold THash.passes in Hbefore. now rewrite Hvq in Hbefore. }
  assert (valid (ent es1 c) = false) as Hvc1.
  { rewrite (Hent1 c Hc), Z.eqb_refl. done. }
  assert (cdist n i p ≤ cdist n i c) as Hoff.
  { destruct (Z.le_gt_cases (cdist n i p) (cdist n i c)) as [|Hgt]; [done|].
    exfalso. assert (p ≠ c) as Hne by (intros ->; lia).
    assert (valid (ent es p) = false) as Hvp.
    { rewrite (Hent1 p Hp) in Hvp1.
      now destruct (Z.eqb_spec p c). }
    pose proof (Hok c p Hc Hp Hvc Hvp ltac:(lia)) as Hokc.
    fold k in Hokc. pose proof (Hnotbefore c Hc Hvc1). cdist_lia. }
  assert (Z.of_nat (length es1) = n) as Hlen1.
  { unfold es1. now rewrite length_store. }
  assert (∀ x, 0 ≤ x < n →
            ent es2 x = if x =? p then Entry true k v
                        else if x =? c then Entry false k v
                        else ent es x) as Hent2.
  { intros x Hx. unfold es2. rewrite ent_store by lia.
    now rewrite (Hent1 x Hx). }
  assert (stop ≠ p) as Hsp by (intros ->; lia).
  assert (stop ≠ c) as Hsc by (intros ->; lia).
  split; [done|]. split; [|split; [|split]].
  - refine (conj _ (conj _ _)).
    + rewrite (Hent2 stop Hstop).
      destruct (Z.eqb_spec stop p); [done|].
      now destruct (Z.eqb_spec stop c).
    + intros x Hx Hoffx. rewrite (Hent2 x Hx).
      destruct (Z.eqb_spec x p); [done|].
      destruct (Z.eqb_spec x c) as [->|]; [lia|]. apply Hpend; [done|lia].
    + intros j q Hj Hq. rewrite (Hent2 j Hj), (Hent2 q Hq).
      intros Hvj Hvq Hprem.
      destruct (Z.eqb_spec q p) as [->|Hqp]; [discriminate|].
      destruct (Z.eqb_spec j p) as [->|Hjp]; cbn [key valid] in *.
      * assert (valid (ent es1 q) = false) as Hvq1.
        { rewrite (Hent1 q Hq). now destruct (Z.eqb_spec q c). }
        pose proof (Hnotbefore q Hq Hvq1). cdist_lia.
      * destruct (Z.eqb_spec j c) as [->|Hjc]; [discriminate|].
        destruct (Z.eqb_spec q c) as [->|Hqc].
        -- pose proof (Hok j stop Hj Hstop Hvj Hvs ltac:(lia)) as Hjs.
           assert (cdist n stop j < cdist n c j); [|lia].
           clear Hjs. cdist_lia.
        -- apply Hok; try done.
           destruct Hprem as [H|[H|H]]; [left|right; left; lia|right; right; lia].
           assert (cdist n i j ≠ cdist n i c); [|lia]. cdist_lia.
  - apply nodup_spec. intros a b Ha Hb. rewrite (Hent2 a Ha), (Hent2 b Hb).
    destruct (Z.eqb_spec a p) as [->|Hap], (Z.eqb_spec b p) as [->|Hbp];
      cbn [key valid]; try done.
    + destruct (Z.eqb_spec b c) as [->|Hbc]; [done|].
      intros _ Hvb E. exfalso. apply Hbc. symmetry. now apply Hnd.
    + destruct (Z.eqb_spec a c) as [->|Hac]; [done|].
      intros Hva _ E. exfalso. apply Hac. now apply Hnd.
    + destruct (Z.eqb_spec a c) as [->|Hac]; [done|].
      destruct (Z.eqb_spec b c) as [->|Hbc]; [done|].
      now apply Hnd.
  - unfold es2. rewrite count_valid_store by lia. rewrite Hvp1.
    unfold es1. rewrite count_valid_store by lia. rewrite Hvc. cbn. lia.
  - intros x y. split.
    + intros (j & Hj & Hvj & Hkj & Hyj). cbn [nentries entries] in *.
      rewrite (Hent2 j Hj) in Hvj, Hkj, Hyj.
      destruct (Z.eqb_spec j p) as [->|Hjp].
      * by exists c.
      * destruct (Z.eqb_spec j c) as [->|Hjc]; [discriminate|]. by exists j.
    + intros (j & Hj & Hvj & Hkj & Hyj). cbn [nentries entries] in *.
      destruct (Z.eq_dec j c) as [->|Hjc].
      * exists p. cbn [nentries entries]. rewrite (Hent2 p Hp), Z.eqb_refl.
        done.
      * assert (j ≠ p) as Hjp.
        { intros ->. rewrite (Hent1 p Hp) in Hvp1.
          destruct (Z.eqb_spec p c); congruence. }
        exists j. cbn [nentries entries]. rewrite (Hent2 j Hj).
        destruct (Z.eqb_spec j p); [done|].
        now destruct (Z.eqb_spec j c).
Qed.

Lemma cdist_inj n i a b :
  0 ≤ i < n → 0 ≤ a < n → 0 ≤ b < n → cdist n i a = cdist n i b → a = b.
Proof. intros. cdist_lia. Qed.

Lemma cdist_self n a : 0 ≤ a < n → cdist n a a = 0.
Proof. intros. cdist_lia. Qed.

Lemma cdist_pred_exists n i c :
  0 ≤ i < n → 0 ≤ c < n → 1 ≤ cdist n i c →
  ∃ q, 0 ≤ q < n ∧ cdist n i q = cdist n i c - 1.
Proof.
  intros Hi Hc Hoff.
  destruct (Z.eq_dec c 0) as [->|Hc0]; [exists (n - 1)|exists (c - 1)];
    (split; [lia|cdist_lia]).
Qed.

(** When the slots from the vacated slot [i] up to the cursor are valid,
    but for the slot [q] just before the cursor, an entry of the cursor
    that sits away from its home is re-put into [q]. *)
Lemma shift_first_stop (es : list entry) n i stop c q :
  cap_ok n = true → Z.of_nat (length es) = n → nodup es n = true →
  0 ≤ i < n → 0 ≤ c < n → 0 ≤ q < n →
  reput_inv es n i stop (cdist n i c) →
  valid (ent es c) = true →
  cdist n i q = cdist n i c - 1 →
  (∀ x, 0 ≤ x < n → cdist n i x < cdist n i c - 1 →
        valid (ent es x) = true) →
  valid (ent es q) = false →
  home n (key (ent es c)) ≠ c →
  first_stop (store es c (Entry false (key (ent es c)) (value (ent es c))))
             n (key (ent es c)) (home n (key (ent es c))) q.
Proof.
  intros Hn Hlen Hnd Hi Hc Hq (_ & _ & Hprobe) Hvc Hoffq Hfull Hvq Hhc.
  set (k := key (ent es c)) in *. set (v := value (ent es c)) in *.
  pose proof (cap_ok_range n Hn) as Hnr.
  pose proof (home_range n k Hn) as Hh.
  rewrite nodup_spec in Hnd.
  assert (∀ z, 0 ≤ z < n →
            ent (store es c (Entry false k v)) z
            = if z =? c then Entry false k v else ent es z) as Hent1.
  { intros z Hz. apply ent_store; lia. }
  assert (q ≠ c) as Hqc by (intros ->; lia).
  refine (conj Hq (conj _ _)).
  - unfold THash.passes. rewrite (Hent1 q Hq).
    destruct (Z.eqb_spec q c); [done|]. now rewrite Hvq.
  - intros z Hz Hlt. unfold THash.passes. rewrite (Hent1 z Hz).
    destruct (Z.eqb_spec z c) as [->|Hzc]; [exfalso; cdist_lia|].
    assert (z ≠ q) as Hzq by (intros ->; lia).
    assert (valid (ent es z) = true) as Hvz.
    { destruct (valid (ent es z)) eqn:Hvz; [done|]. exfalso.
      destruct (Z.lt_trichotomy (cdist n i z) (cdist n i c - 1))
        as [Hlo|[Heq|Hhi]].
      - rewrite (Hfull z Hz Hlo) in Hvz. discriminate.
      - apply Hzq. apply (cdist_inj n i); [done..|lia].
      - assert (cdist n i z ≠ cdist n i c) as Hne.
        { intros E. apply Hzc. now apply (cdist_inj n i). }
        pose proof (Hprobe c z Hc Hz Hvc Hvz ltac:(lia)) as Hcz.
        fold k in Hcz. clear Hne Hfull Hprobe Hnd Hent1. cdist_lia. }
    rewrite Hvz. cbn. apply negb_true_iff.
    destruct (TKEYEQUAL k (key (ent es z))) eqn:Ek; [|done].
    exfalso. apply Hzc. symmetry. now apply Hnd.
Qed.

(** The loop runs until the cursor reaches [stop]; what it leaves is a
    slot array with the same entries, in which every stored key is again
    reachable from its home. *)
Lemma reput_loop (step : table → Z → Z) n i stop s :
  (∀ (t' : table) x, shaped t' = true → 0 ≤ x < nentries t' →
     step t' x = (x + 1) mod nentries t') →
  cap_ok n = true → 0 ≤ i < n → 0 ≤ stop < n →
  - 2 ^ 30 < s → 2 * s ≤ n →
  ∀ (m : nat) (es : list entry) c,
    Z.of_nat (length es) = n → nodup es n = true → 0 ≤ c < n →
    1 ≤ cdist n i c → cdist n i stop = cdist n i c + Z.of_nat m →
    reput_inv es n i stop (cdist n i c) →
    ∃ es',
      Yields (fun fuel => reput step fuel (Table es n s) c)
             (Z.to_nat n + m) (Table es' n s)
      ∧ Z.of_nat (length es') = n
      ∧ probe_ok es' n = true ∧ nodup es' n = true
      ∧ count_valid es' = count_valid es
      ∧ (∀ x y, stored (Table es' n 0) x y ↔ stored (Table es n 0) x y)
      ∧ (∀ j, 0 ≤ j < n → valid (ent es j) = true →
           ¬ (cdist n i c ≤ cdist n i j < cdist n i stop) →
           ent es' j = ent es j)
      ∧ (∀ m' : nat, (m' ≤ m)%nat →
           (∀ x, 0 ≤ x < n → cdist n i x < cdist n i c - 1 →
                 valid (ent es x) = true) →
           (∀ x, 0 ≤ x < n → cdist n i x = cdist n i c - 1 →
                 valid (ent es x) = false) →
           (∀ x, 0 ≤ x < n →
                 cdist n i c ≤ cdist n i x < cdist n i c + Z.of_nat m' →
                 home n (key (ent es x)) ≠ x) →
           ∀ x y, 0 ≤ x < n → 0 ≤ y < n →
                  cdist n i c ≤ cdist n i y < cdist n i c + Z.of_nat m' →
                  cdist n i x = cdist n i y - 1 →
                  ent es' x = ent es y).
Proof.
  intros Hstep Hn Hi Hstop Hs0 Hs. pose proof (cap_ok_range n Hn) as Hnr.
  induction m as [|m IH]; intros es c Hlen Hnd Hc Hc1 Hm Hinv.
  - assert (c = stop) as -> by (apply (cdist_inj n i); [done..|lia]).
    destruct Hinv as (Hvs & Hpend & Hok).
    exists es.
    refine (conj _ (conj Hlen (conj _ (conj Hnd (conj eq_refl
              (conj _ (conj _ _))))))).
    + intros [|fuel]; [split; [by right|lia]|].
      cbn [THash.reput entries]. rewrite ent_slot, Hvs by lia.
      split; [by left|done].
    + apply probe_ok_spec. intros j q Hj Hq Hvj Hvq.
      apply Hok; try done.
      assert (cdist n i j ≠ cdist n i stop); [|lia].
      intros E. apply (cdist_inj n i) in E; [|done..]. congruence.
    + done.
    + done.
    + intros m' Hm' _ _ _ x y _ _ Hy. lia.
  - assert (valid (ent es c) = true) as Hvc.
    { destruct Hinv as (_ & Hpend & _). apply Hpend; lia. }
    set (k := key (ent es c)). set (v := value (ent es c)).
    set (es1 := store es c (Entry false k v)).
    assert (Z.of_nat (length es1) = n) as Hlen1.
    { unfold es1. now rewrite length_store. }
    assert (valid (ent es1 c) = false) as Hvc1.
    { unfold es1. rewrite ent_store, Z.eqb_refl by lia. done. }
    pose proof (home_range n k Hn) as Hh.
    assert (∃ p, first_stop es1 n k (home n k) p) as [p Hfs].
    { assert (passes es1 k c = false) as Hpc.
      { unfold THash.passes. now rewrite Hvc1. }
      pose proof (cdist_range n (home n k) c Hh Hc) as Hd.
      destruct (first_stop_exists es1 n k c Hc Hpc
                  (Z.to_nat (cdist n (home n k) c)) (home n k) Hh)
        as (p & Hfs & _); [lia|]. by exists p. }
    destruct (reput_step_inv es n i stop c p Hn Hlen Hnd Hi Hstop Hc
                ltac:(lia) Hinv Hfs)
      as (Hvp1 & Hinv2 & Hnd2 & Hcount2 & Hst2).
    fold k v es1 in Hvp1, Hinv2, Hnd2, Hcount2, Hst2.
    set (es2 := store es1 p (Entry true k v)) in *.
    assert (Z.of_nat (length es2) = n) as Hlen2.
    { unfold es2. now rewrite length_store. }
    assert (shaped (Table es1 n (s - 1)) = true) as Ht1.
    { unfold shaped. cbn. now rewrite Hlen1, Z.eqb_refl, Hn. }
    assert (shaped (Table es2 n s) = true) as Ht2.
    { unfold shaped. cbn. now rewrite Hlen2, Z.eqb_refl, Hn. }
    pose proof (put_miss (Table es1 n (s - 1)) k v p Ht1 Hfs Hvp1
                  ltac:(cbn; lia) ltac:(cbn; lia)) as Hput.
    cbn [entries nentries size] in Hput. fold es2 in Hput.
    replace (s - 1 + 1) with s in Hput by lia.
    set (c' := (c + 1) mod n).
    assert (0 ≤ c' < n) as Hc' by (apply Z.mod_pos_bound; lia).
    assert (cdist n i c' = cdist n i c + 1) as Hoff'.
    { unfold c'. destruct (succ_mod_cases n c Hc) as [[? ->]|[? ->]];
        cdist_lia. }
    rewrite <- Hoff' in Hinv2.
    destruct (IH es2 c' Hlen2 Hnd2 Hc' ltac:(lia) ltac:(lia) Hinv2)
      as (es' & HY & Hlen' & Hpr' & Hnd' & Hcount' & Hst' & Hkeep & Hshift).
    exists es'.
    refine (conj _ (conj Hlen' (conj Hpr' (conj Hnd' (conj _
              (conj _ (conj _ _))))))).
    + intros [|fuel]; [split; [by right|lia]|].
      cbn [THash.reput entries nentries size]. rewrite ent_slot, Hvc by lia.
      cbv zeta. rewrite wrap_small by lia. fold k v es1.
      unfold put_new. cbn [key value]. fold k v.
      destruct (Hput fuel) as [[E|E] Hbig]; rewrite E; cbn [bind].
      * rewrite (Hstep _ c Ht2) by done. cbn [nentries]. fold c'.
        destruct (HY fuel) as [Hor Hbig']. split; [done|].
        intros Hf. apply Hbig'. lia.
      * split; [by right|]. intros Hf. rewrite Hbig in E by lia.
        discriminate.
    + lia.
    + intros x y. now rewrite Hst', Hst2.
    + intros j Hj Hvj Hnp.
      assert (j ≠ c) as Hjc by (intros ->; lia).
      assert (ent es1 j = ent es j) as E1.
      { unfold es1. rewrite ent_store by lia. now destruct (Z.eqb_spec j c). }
      assert (j ≠ p) as Hjp by (intros ->; congruence).
      pose proof (proj1 Hfs) as Hp.
      assert (ent es2 j = ent es j) as E2.
      { unfold es2. rewrite ent_store by lia. now destruct (Z.eqb_spec j p). }
      rewrite <- E2. apply Hkeep; [done|congruence|lia].
    + intros [|m'] Hm' Hfull Hhole Hdisp x y Hx Hy Hoffy Hxy; [lia|].
      pose proof (proj1 Hfs) as Hp.
      assert (∀ z, 0 ≤ z < n →
                ent es1 z = if z =? c then Entry false k v else ent es z)
        as Hent1.
      { intros z Hz. apply ent_store; lia. }
      assert (∀ z, 0 ≤ z < n →
                ent es2 z = if z =? p then Entry true k v
                            else if z =? c then Entry false k v
                            else ent es z) as Hent2.
      { intros z Hz. unfold es2. rewrite ent_store by lia.
        now rewrite (Hent1 z Hz). }
      (* the entry of the cursor goes to the slot before it *)
      assert (cdist n i p = cdist n i c - 1) as Hoffp.
      { destruct (cdist_pred_exists n i c Hi Hc Hc1) as (q & Hq & Hoffq).
        assert (home n k ≠ c) as Hhc by (apply (Hdisp c); [done|lia]).
        pose proof (shift_first_stop es n i stop c q Hn Hlen Hnd Hi Hc Hq
                      Hinv Hvc Hoffq Hfull (Hhole q Hq Hoffq) Hhc) as Hfsq.
        rewrite (first_stop_unique _ _ _ _ _ _ Hh Hfs Hfsq). done. }
      assert (p ≠ c) as Hpc by (intros ->; lia).
      destruct (Z.eq_dec (cdist n i y) (cdist n i c)) as [Ey|Ey].
      * assert (y = c) as -> by now apply (cdist_inj n i).
        assert (x = p) as -> by (apply (cdist_inj n i); [done..|lia]).
        assert (ent es2 p = ent es c) as E2.
        { rewrite (Hent2 p Hp), Z.eqb_refl. unfold k, v.
          destruct (ent es c) as [b a1 a2]. cbn in Hvc |- *. now subst b. }
        rewrite <- E2. apply Hkeep; [done|by rewrite E2|lia].
      * assert (y ≠ c) as Hyc by congruence.
        assert (y ≠ p) as Hyp by (intros ->; lia).
        assert (ent es2 y = ent es y) as E2.
        { rewrite (Hent2 y Hy). destruct (Z.eqb_spec y p); [done|].
          now destruct (Z.eqb_spec y c). }
        rewrite <- E2.
        apply (Hshift m' ltac:(lia)); try done; try lia.
        -- intros z Hz Hoffz. rewrite (Hent2 z Hz).
           destruct (Z.eqb_spec z p); [done|].
           destruct (Z.eqb_spec z c) as [->|]; [lia|].
           apply Hfull; [done|]. 
           assert (cdist n i z ≠ cdist n i p); [|lia].
           intros E. apply (cdist_inj n i) in E; done.
        -- intros z Hz Hoffz.
           assert (z = c) as -> by (apply (cdist_inj n i); [done..|lia]).
           rewrite (Hent2 c Hc). destruct (Z.eqb_spec c p); [done|].
           now rewrite Z.eqb_refl.
        -- intros z Hz Hoffz. rewrite (Hent2 z Hz).
           destruct (Z.eqb_spec z p) as [->|]; [lia|].
           destruct (Z.eqb_spec z c) as [->|]; [lia|].
           apply Hdisp; [done|lia].
Qed.

(** Vacating the valid slot [i0] of a sound table and re-putting the
    entries that follow it. *)
Lemma vacate_reput (step : table → Z → Z) (t : table) i0 s :
  (∀ (t' : table) x, shaped t' = true → 0 ≤ x < nentries t' →
     step t' x = (x + 1) mod nentries t') →
  table_ok t = true → 0 ≤ i0 < nentries t →
  valid (ent (entries t) i0) = true →
  - 2 ^ 30 < s → 2 * s ≤ nentries t →
  let e := ent (entries t) i0 in
  let es0 := store (entries t) i0 (Entry false (key e) (value e)) in
  ∃ es',
    Yields (fun fuel => reput step fuel (Table es0 (nentries t) s)
                          ((i0 + 1) mod nentries t))
           (2 * Z.to_nat (nentries t)) (Table es' (nentries t) s)
    ∧ Z.of_nat (length es') = nentries t
    ∧ probe_ok es' (nentries t) = true ∧ nodup es' (nentries t) = true
    ∧ count_valid es' = count_valid (entries t) - 1
    ∧ (∀ x y, stored (Table es' (nentries t) 0) x y ↔
              stored t x y ∧ TKEYEQUAL (key e) x = false)
    ∧ (∀ m',
         (∀ x, 0 ≤ x < nentries t → 1 ≤ cdist (nentries t) i0 x ≤ m' →
               valid (ent (entries t) x) = true
               ∧ home (nentries t) (key (ent (entries t) x)) ≠ x) →
         ∀ x y, 0 ≤ x < nentries t → 0 ≤ y < nentries t →
                1 ≤ cdist (nentries t) i0 y ≤ m' →
                cdist (nentries t) i0 x = cdist (nentries t) i0 y - 1 →
                ent es' x = ent (entries t) y).
Proof.
  intros Hstep Hok Hi0 Hv0 Hs0 Hs e es0.
  destruct (table_ok_facts t Hok) as (Hsound & Ht & Hnr & _ & _ & Hcnt).
  apply sound_spec in Hsound as (_ & _ & Hpr & Hnd).
  pose proof (shaped_cap t Ht) as Hn. pose proof (shaped_len t Ht) as Hlen.
  set (n := nentries t) in *. set (es := entries t) in *.
  rewrite probe_ok_spec in Hpr.
  pose proof (proj1 (nodup_spec es n) Hnd) as Hnd'.
  assert (∀ x, 0 ≤ x < n →
            ent es0 x = if x =? i0 then Entry false (key e) (value e)
                        else ent es x) as Hent0.
  { intros x Hx. apply ent_store; lia. }
  assert (Z.of_nat (length es0) = n) as Hlen0.
  { unfold es0. now rewrite length_store. }
  set (c := (i0 + 1) mod n).
  assert (0 ≤ c < n) as Hc by (apply Z.mod_pos_bound; lia).
  assert (cdist n i0 c = 1) as Hoffc.
  { unfold c. destruct (succ_mod_cases n i0 Hi0) as [[? ->]|[? ->]];
      cdist_lia. }
  (* the first slot after [i0] that is not valid *)
  destruct (vacant_exists es) as (q & Hq & Hvq); [lia|]. rewrite Hlen in Hq.
  pose proof (cdist_range n c q Hc Hq) as Hdq.
  destruct (first_fail_exists (fun x => valid (ent es x)) n q Hq Hvq
              (Z.to_nat (cdist n c q)) c Hc ltac:(lia))
    as (stop & (Hstop & Hvstop & Hbefore) & _).
  assert (stop ≠ i0) as Hsi by congruence.
  assert (1 ≤ cdist n i0 stop) as Hoffs by cdist_lia.
  assert (nodup es0 n = true) as Hnd0.
  { apply nodup_spec. intros a b Ha Hb. rewrite (Hent0 a Ha), (Hent0 b Hb).
    destruct (Z.eqb_spec a i0); [done|]. destruct (Z.eqb_spec b i0); [done|].
    now apply Hnd'. }
  assert (reput_inv es0 n i0 stop (cdist n i0 c)) as Hinv.
  { rewrite Hoffc. refine (conj _ (conj _ _)).
    - rewrite (Hent0 stop Hstop). now destruct (Z.eqb_spec stop i0).
    - intros x Hx Hoffx. rewrite (Hent0 x Hx).
      destruct (Z.eqb_spec x i0) as [->|Hne]; [cdist_lia|].
      apply Hbefore; [done|]. cdist_lia.
    - intros j q' Hj Hq'. rewrite (Hent0 j Hj), (Hent0 q' Hq').
      destruct (Z.eqb_spec j i0) as [->|Hji]; [done|].
      intros Hvj Hvq' Hprem.
      destruct (Z.eqb_spec q' i0) as [->|Hqi]; [|now apply Hpr].
      pose proof (Hpr j stop Hj Hstop Hvj Hvstop) as Hjs.
      assert (cdist n stop j < cdist n i0 j); [|lia].
      clear Hjs. cdist_lia. }
  destruct (reput_loop step n i0 stop s Hstep Hn Hi0 Hstop Hs0 Hs
              (Z.to_nat (cdist n i0 stop - 1)) es0 c Hlen0 Hnd0 Hc
              ltac:(lia) ltac:(lia) Hinv)
    as (es' & HY & Hlen' & Hpr' & Hnd'' & Hcount' & Hst' & _ & Hland).
  exists es'.
  refine (conj _ (conj Hlen' (conj Hpr' (conj Hnd'' (conj _ (conj _ _)))))).
  - apply (Yields_weaken _ _ _ _ HY).
    pose proof (cdist_range n i0 stop Hi0 Hstop). lia.
  - rewrite Hcount'. unfold es0. rewrite count_valid_store by lia.
    fold es. rewrite Hv0. cbn. lia.
  - intros x y. rewrite Hst'. split.
    + intros (j & Hj & Hvj & Hkj & Hyj). cbn [nentries entries] in *.
      rewrite (Hent0 j Hj) in Hvj, Hkj, Hyj.
      destruct (Z.eqb_spec j i0) as [->|Hji]; [discriminate|].
      split; [by exists j|]. subst x.
      destruct (TKEYEQUAL (key e) (key (ent es j))) eqn:E; [|done].
      exfalso. apply Hji. symmetry. now apply Hnd'.
    + intros [(j & Hj & Hvj & Hkj & Hyj) Hk]. exists j.
      cbn [nentries entries]. fold n es in Hj, Hvj, Hkj, Hyj.
      rewrite (Hent0 j Hj).
      destruct (Z.eqb_spec j i0) as [->|Hji]; [|done].
      fold e in Hkj. subst x.
      rewrite (keq_refl _ _ Hcontract) in Hk. discriminate.
  - fold n es. intros m' Hrun x y Hx Hy Hoffy Hxy.
    assert (m' ≤ cdist n i0 stop - 1) as Hm'.
    { destruct (Z.le_gt_cases m' (cdist n i0 stop - 1)) as [|Hgt]; [done|].
      destruct (Hrun stop Hstop ltac:(lia)) as [Hvs _]. congruence. }
    pose proof (cdist_self n i0 Hi0) as Hself.
    assert (y ≠ i0) as Hyi by (intros ->; lia).
    assert (ent es0 y = ent es y) as <-.
    { rewrite (Hent0 y Hy). now destruct (Z.eqb_spec y i0). }
    apply (Hland (Z.to_nat m') ltac:(lia)); try done; try lia.
    + intros z Hz Hoffz. pose proof (cdist_range n i0 z Hi0 Hz). lia.
    + intros z Hz Hoffz.
      assert (z = i0) as -> by (apply (cdist_inj n i0); [done..|lia]).
      now rewrite (Hent0 i0 Hi0), Z.eqb_refl.
    + intros z Hz Hoffz. rewrite (Hent0 z Hz).
      destruct (Z.eqb_spec z i0) as [->|]; [lia|].
      apply Hrun; [done|lia].
Qed.

(** *** [get] *)

Lemma get_at (t : table) k i :
  table_ok t = true → 0 ≤ i < nentries t →
  valid (ent (entries t) i) = true →
  TKEYEQUAL k (key (ent (entries t) i)) = true →
  Yields (fun fuel => get fuel t k) (Z.to_nat (nentries t) - 1)
         (Some (value (ent (entries t) i))).
Proof.
  intros Hok Hi Hv Hk.
  destruct (table_ok_facts t Hok) as (Hsound & Ht & _).
  apply sound_spec in Hsound as (_ & _ & Hpr & Hnd).
  pose proof (shaped_cap t Ht) as Hn.
  pose proof (found_first_stop _ _ k i Hn Hpr Hnd Hi Hv Hk) as Hfs.
  pose proof (home_range (nentries t) k Hn) as Hh.
  intros fuel. unfold THash.get. rewrite first_idx_home by done.
  destruct (scan_first_stop t k _ i Ht Hh Hfs fuel) as [[E|E] Hbig];
    rewrite E; cbn [bind].
  - unfold THash.leave. rewrite Hv. split; [by left|done].
  - split; [by right|]. intros Hf. rewrite Hbig in E by done. discriminate.
Qed.

Lemma get_stored (t : table) k k' v :
  table_ok t = true → stored t k' v → TKEYEQUAL k k' = true →
  Yields (fun fuel => get fuel t k) (Z.to_nat (nentries t) - 1) (Some v).
Proof.
  intros Hok (i & Hi & Hv & <- & <-) Hk. now apply get_at.
Qed.

Lemma absent_miss (t : table) k :
  shaped t = true → count_valid (entries t) < nentries t → absent t k →
  ∃ p, Yields (fun fuel => scan fuel t k (first_idx t k))
              (Z.to_nat (nentries t) - 1) (Miss p).
Proof.
  intros Ht Hcnt Habs. pose proof (shaped_cap t Ht) as Hn.
  pose proof (shaped_len t Ht) as Hlen.
  destruct (vacant_exists (entries t)) as (q & Hq & Hvq); [lia|].
  rewrite Hlen in Hq.
  destruct (absent_first_stop _ _ k q Hn Hq Hvq Habs) as (p & Hfs & Hvp).
  pose proof (home_range (nentries t) k Hn) as Hh.
  exists p. rewrite first_idx_home by done.
  pose proof (scan_first_stop t k _ p Ht Hh Hfs) as HY.
  unfold THash.leave in HY. now rewrite Hvp in HY.
Qed.

Lemma get_absent (t : table) k :
  shaped t = true → count_valid (entries t) < nentries t → absent t k →
  Yields (fun fuel => get fuel t k) (Z.to_nat (nentries t) - 1) None.
Proof.
  intros Ht Hcnt Habs. destruct (absent_miss t k Ht Hcnt Habs) as (p & HY).
  intros fuel. unfold THash.get.
  destruct (HY fuel) as [[E|E] Hbig]; rewrite E; cbn [bind].
  - split; [by left|done].
  - split; [by right|]. intros Hf. rewrite Hbig in E by done. discriminate.
Qed.

(** *** [remove] *)

Lemma remove_absent (t : table) k :
  shaped t = true → count_valid (entries t) < nentries t → absent t k →
  Yields (fun fuel => remove fuel t k) (Z.to_nat (nentries t) - 1) (t, None).
Proof.
  intros Ht Hcnt Habs. destruct (absent_miss t k Ht Hcnt Habs) as (p & HY).
  intros fuel. unfold THash.remove.
  destruct (HY fuel) as [[E|E] Hbig]; rewrite E; cbn [bind].
  - split; [by left|done].
  - split; [by right|]. intros Hf. rewrite Hbig in E by done. discriminate.
Qed.

Lemma keq_false_iff k k0 x :
  TKEYEQUAL k k0 = true → TKEYEQUAL k0 x = false ↔ TKEYEQUAL k x = false.
Proof.
  intros Hk. split.
  - apply keq_false_trans. now apply (keq_sym _ _ Hcontract).
  - now apply keq_false_trans.
Qed.

Lemma remove_at (t : table) k i0 :
  table_ok t = true → 0 ≤ i0 < nentries t →
  valid (ent (entries t) i0) = true →
  TKEYEQUAL k (key (ent (entries t) i0)) = true →
  ∃ t',
    Yields (fun fuel => remove fuel t k) (2 * Z.to_nat (nentries t))
      (t', Some (key (ent (entries t) i0), value (ent (entries t) i0)))
    ∧ table_ok t' = true ∧ nentries t' = nentries t
    ∧ size t' = size t - 1
    ∧ (∀ x y, stored t' x y ↔ stored t x y ∧ TKEYEQUAL k x = false).
Proof.
  intros Hok Hi0 Hv0 Hk.
  destruct (table_ok_facts t Hok) as (Hsound & Ht & Hnr & Hs0 & Hload & Hcnt).
  apply sound_spec in Hsound as (_ & Hsz & Hpr & Hnd).
  pose proof (shaped_cap t Ht) as Hn. pose proof (shaped_len t Ht) as Hlen.
  destruct (vacate_reput next_idx t i0 (size t - 1) next_idx_mod Hok Hi0 Hv0
              ltac:(lia) ltac:(lia))
    as (es' & HY & Hlen' & Hpr' & Hnd' & Hcount' & Hst' & _).
  exists (Table es' (nentries t) (size t - 1)).
  refine (conj _ (conj _ (conj eq_refl (conj eq_refl _)))).
  - pose proof (found_first_stop _ _ k i0 Hn Hpr Hnd Hi0 Hv0 Hk) as Hfs.
    pose proof (home_range (nentries t) k Hn) as Hh.
    intros fuel. unfold THash.remove. rewrite first_idx_home by done.
    destruct (scan_first_stop t k _ i0 Ht Hh Hfs fuel) as [[E|E] Hbig];
      rewrite E; cbn [bind].
    + unfold THash.leave. rewrite Hv0. cbv beta iota zeta.
      rewrite wrap_small by lia.
      rewrite next_idx_mod; cbn [nentries]; [|rewrite <- Hn, <- Hlen|done].
      2:{ unfold shaped. cbn. now rewrite length_store, Z.eqb_refl. }
      destruct (HY fuel) as [[E'|E'] Hbig']; rewrite E'; cbn [bind].
      * split; [by left|done].
      * split; [by right|]. intros Hf. rewrite Hbig' in E' by lia.
        discriminate.
    + split; [by right|]. intros Hf. rewrite Hbig in E by lia. discriminate.
  - apply table_ok_spec. split; [|cbn; lia]. apply sound_spec.
    refine (conj _ (conj _ (conj Hpr' Hnd'))).
    + unfold shaped. cbn. now rewrite Hlen', Z.eqb_refl.
    + cbn. lia.
  - intros x y.
    change (stored (Table es' (nentries t) 0) x y
            ↔ stored t x y ∧ TKEYEQUAL k x = false).
    rewrite Hst'. now rewrite (keq_false_iff k _ x Hk).
Qed.

Lemma remove_stored (t : table) k k0 v0 :
  table_ok t = true → stored t k0 v0 → TKEYEQUAL k k0 = true →
  ∃ t',
    Yields (fun fuel => remove fuel t k) (2 * Z.to_nat (nentries t))
      (t', Some (k0, v0))
    ∧ table_ok t' = true ∧ nentries t' = nentries t
    ∧ size t' = size t - 1
    ∧ (∀ x y, stored t' x y ↔ stored t x y ∧ TKEYEQUAL k x = false).
Proof.
  intros Hok (i & Hi & Hv & <- & <-) Hk. now apply remove_at.
Qed.

(** *** [iterator_remove] *)

Lemma iterator_remove_at (t : table) (iter : iterator) :
  table_ok t = true → 0 ≤ last_entry iter < nentries t →
  valid (ent (entries t) (last_entry iter)) = true →
  ∃ t',
    Yields (fun fuel => iterator_remove fuel t iter)
           (2 * Z.to_nat (nentries t)) t'
    ∧ table_ok t' = true ∧ nentries t' = nentries t
    ∧ size t' = size t - 1
    ∧ (∀ x y, stored t' x y ↔
         stored t x y
         ∧ TKEYEQUAL (key (ent (entries t) (last_entry iter))) x = false).
Proof.
  intros Hok Hi0 Hv0. set (i0 := last_entry iter) in *.
  destruct (table_ok_facts t Hok) as (Hsound & Ht & Hnr & Hs0 & Hload & Hcnt).
  apply sound_spec in Hsound as (_ & Hsz & Hpr & Hnd).
  pose proof (shaped_cap t Ht) as Hn. pose proof (shaped_len t Ht) as Hlen.
  destruct (vacate_reput next_int t i0 (size t) next_int_mod Hok Hi0 Hv0
              ltac:(lia) ltac:(lia))
    as (es' & HY & Hlen' & Hpr' & Hnd' & Hcount' & Hst' & _).
  exists (Table es' (nentries t) (size t - 1)).
  refine (conj _ (conj _ (conj eq_refl (conj eq_refl Hst')))).
  - intros fuel. unfold THash.iterator_remove. fold i0.
    rewrite ent_slot by lia. cbv zeta.
    rewrite next_int_mod; cbn [nentries]; [|rewrite <- Hn, <- Hlen|done].
    2:{ unfold shaped. cbn. now rewrite length_store, Z.eqb_refl. }
    destruct (HY fuel) as [[E'|E'] Hbig']; rewrite E'; cbn [bind].
    + cbn [entries nentries size]. rewrite wrap_small by lia.
      split; [by left|done].
    + split; [by right|]. intros Hf. rewrite Hbig' in E' by lia.
      discriminate.
  - apply table_ok_spec. split; [|cbn; lia]. apply sound_spec.
    refine (conj _ (conj _ (conj Hpr' Hnd'))).
    + unfold shaped. cbn. now rewrite Hlen', Z.eqb_refl.
    + cbn. lia.
Qed.

(** *** [copy] and [clear] *)

Lemma copy_safe fuel (t : table) :
  table_ok t = true →
  match copy fuel t with
  | Done t' =>
      table_ok t' = true ∧ (∀ x y, stored t' x y ↔ stored t x y)
      ∧ size t' = size t
      ∧ (nentries t ≤ 2 ^ 29 → nentries t' = growth_target (size t))
  | OutOfFuel => True
  | _ => False
  end.
Proof.
  intros Hok.
  destruct (table_ok_facts t Hok) as (Hsound & Ht & Hnr & Hs0 & Hload & Hcnt).
  apply sound_spec in Hsound as (_ & Hsz & _ & Hnd).
  pose proof (shaped_len t Ht) as Hlen.
  unfold THash.copy.
  pose proof (create_capacity_spec fuel (size t)) as Hcc.
  destruct (create_capacity fuel (size t)) as [nh0| | |]; cbn [bind];
    try done.
  destruct Hcc as (N & HN & -> & HNc).
  destruct (empty_table_ok N HN) as [Hok0 Hst0].
  set (nh0 := Table (replicate (Z.to_nat N) zero_entry) N 0) in *.
  assert (∀ i, i ∈ indices (nentries t) →
            valid (ent (entries t) i) = true →
            absent nh0 (key (ent (entries t) i))) as Habs0.
  { intros i _ _. apply absent_stored. intros x y Hs. now apply Hst0 in Hs. }
  pose proof (for_valid_put_safe (put fuel) (entries t) (nentries t)
                (put_safe fuel) Hlen Hnd (indices (nentries t)) nh0
                (NoDup_indices _)
                (fun i Hi => proj1 (elem_of_indices _ _) Hi) Hok0 Habs0)
    as Hfv.
  destruct (for_valid (put_new (put fuel)) (entries t)
              (indices (nentries t)) nh0) as [nh'| | |]; try done.
  destruct Hfv as (Hok' & Hst' & Hsz' & Hcap').
  assert (count_at (entries t) (indices (nentries t)) = size t) as Hcount.
  { rewrite <- Hlen, count_at_indices. now symmetry. }
  refine (conj Hok' (conj _ (conj _ _))).
  - intros x y. rewrite Hst'. split.
    + intros [Hs|(i & Hi & Hvi & <- & <-)]; [now apply Hst0 in Hs|].
      apply stored_at; [|done]. now apply elem_of_indices in Hi.
    + intros (i & Hi & Hvi & <- & <-). right. exists i.
      split; [now apply elem_of_indices|done].
  - rewrite Hsz', Hcount. cbn. lia.
  - intros H29. rewrite Hcap'; [cbn; apply HNc; lia|].
    rewrite Hcount. cbn [size nentries nh0]. rewrite HNc by lia.
    pose proof (growth_target_ge (size t)). lia.
Qed.

Lemma copy_returns (t : table) fuel :
  table_ok t = true → nentries t ≤ 2 ^ 29 →
  (Z.to_nat (2 * nentries t) + 28 < fuel)%nat →
  ∃ t', copy fuel t = Done t'.
Proof.
  intros Hok H29 Hfuel. pose proof (copy_safe fuel t Hok) as Hsafe.
  destruct (copy fuel t) as [t'| | |] eqn:Ecopy; [by eauto|done|done|].
  exfalso. clear Hsafe.
  destruct (table_ok_facts t Hok) as (Hsound & Ht & Hnr & Hs0 & Hload & Hcnt).
  apply sound_spec in Hsound as (_ & Hsz & _ & _).
  pose proof (shaped_len t Ht) as Hlen.
  unfold THash.copy in Ecopy.
  pose proof (create_capacity_spec fuel (size t)) as Hcc.
  destruct (create_capacity fuel (size t)) as [nh0| | |]; cbn [bind] in Ecopy;
    try done; [|lia].
  destruct Hcc as (N & HN & -> & HNc).
  destruct (empty_table_ok N HN) as [Hok0 _].
  destruct (cap_ok_pow2 _ (shaped_cap t Ht)) as (j & Hj & Ej).
  assert (N ≤ 2 * nentries t) as HNle.
  { rewrite HNc by lia. rewrite Ej.
    replace (2 * 2 ^ j) with (2 ^ (j + 1))
      by (rewrite Z.pow_add_r by lia; lia).
    apply growth_target_le; [lia|].
    rewrite Z.pow_add_r by lia. lia. }
  pose proof (growth_target_ge (size t)) as [HNge _].
  rewrite <- HNc in HNge by lia.
  apply (for_valid_returns fuel (entries t) (nentries t) Hlen
           (indices (nentries t))
           (Table (replicate (Z.to_nat N) zero_entry) N 0)).
  - intros i Hi. now apply elem_of_indices.
  - done.
  - rewrite <- Hlen at 1. rewrite count_at_indices, <- Hsz. cbn. lia.
  - cbn. lia.
  - done.
Qed.

Lemma clear_spec (t : table) :
  shaped t = true →
  ∃ t', clear t = Done t' ∧ table_ok t' = true
        ∧ nentries t' = nentries t ∧ size t' = 0
        ∧ ∀ x y, ¬ stored t' x y.
Proof.
  intros Ht. pose proof (shaped_len t Ht) as Hlen.
  pose proof (shaped_cap t Ht) as Hn.
  unfold THash.clear. destruct (Z.ltb_spec (Z.of_nat (length (entries t)))
                                  (nentries t)); [lia|].
  rewrite drop_ge, app_nil_r by lia.
  destruct (empty_table_ok _ Hn) as [Hok Hst]. eauto 10.
Qed.

(** *** Iteration *)

Section Iteration.

Variable t : table.
Hypothesis Hlen : Z.of_nat (length (entries t)) = nentries t.
Hypothesis Hint : nentries t < 2 ^ 31.

Lemma iterator_next_end a fuel :
  - 1 ≤ a → nentries t ≤ a + 1 → a + 1 < 2 ^ 31 →
  iterator_next (S fuel) t (Iterator a) = Done (Iterator a, None).
Proof.
  intros Ha Hend Hr. cbn [THash.iterator_next last_entry].
  rewrite wrap_small by lia.
  destruct (Z.leb_spec (nentries t) (a + 1)); [done|lia].
Qed.

Lemma iterator_next_hit a fuel :
  - 1 ≤ a → a + 1 < nentries t →
  valid (ent (entries t) (a + 1)) = true →
  iterator_next (S fuel) t (Iterator a)
  = Done (Iterator (a + 1),
          Some (key (ent (entries t) (a + 1)), value (ent (entries t) (a + 1)))).
Proof.
  intros Ha Hlt Hv. cbn [THash.iterator_next last_entry].
  rewrite wrap_small by lia.
  destruct (Z.leb_spec (nentries t) (a + 1)); [lia|].
  cbn [last_entry]. rewrite ent_slot by lia. now rewrite Hv.
Qed.

Lemma iterator_next_skip a fuel :
  - 1 ≤ a → a + 1 < nentries t →
  valid (ent (entries t) (a + 1)) = false →
  iterator_next (S fuel) t (Iterator a)
  = iterator_next fuel t (Iterator (a + 1)).
Proof.
  intros Ha Hlt Hv. cbn [THash.iterator_next last_entry].
  rewrite wrap_small by lia.
  destruct (Z.leb_spec (nentries t) (a + 1)); [lia|].
  cbn [last_entry]. rewrite ent_slot by lia. now rewrite Hv.
Qed.

Lemma iterator_next_fuel (len : nat) :
  ∀ a f f', - 1 ≤ a → a + 1 + Z.of_nat len = nentries t →
    (len < f)%nat → (len < f')%nat →
    iterator_next f t (Iterator a) = iterator_next f' t (Iterator a).
Proof.
  induction len as [|len IH]; intros a [|f] [|f'] Ha Hrem Hf Hf'; try lia.
  - rewrite !iterator_next_end by lia. done.
  - destruct (valid (ent (entries t) (a + 1))) eqn:Hv.
    + rewrite !iterator_next_hit by (done || lia). done.
    + rewrite !iterator_next_skip by (done || lia). apply IH; lia.
Qed.

Lemma iterate_from (len : nat) :
  ∀ a calls fuel, - 1 ≤ a → a + 1 + Z.of_nat len = nentries t →
    (len < fuel)%nat → (len < calls)%nat →
    iterate calls fuel t (Iterator a)
    = Done ((fun j => (j, key (ent (entries t) j), value (ent (entries t) j)))
              <$> List.filter (fun j => valid (ent (entries t) j))
                    (seqZ (a + 1) (Z.of_nat len)),
            Iterator (nentries t - 1)).
Proof.
  induction len as [|len IH]; intros a [|calls] [|fuel] Ha Hrem Hf Hc; try lia.
  - cbn [THash.iterate]. rewrite iterator_next_end by lia. cbn.
    do 3 f_equal. lia.
  - rewrite seqZ_cons by lia. cbn [List.filter].
    replace (Z.pred (Z.of_nat (S len))) with (Z.of_nat len) by lia.
    replace (Z.succ (a + 1)) with (a + 1 + 1) by lia.
    destruct (valid (ent (entries t) (a + 1))) eqn:Hv.
    + cbn [THash.iterate]. rewrite iterator_next_hit by (done || lia).
      cbn [bind]. rewrite (IH (a + 1)) by lia. done.
    + rewrite <- (IH (a + 1) (S calls) (S fuel)) by lia.
      cbn [THash.iterate]. rewrite iterator_next_skip by (done || lia).
      now rewrite (iterator_next_fuel len (a + 1) fuel (S fuel)) by lia.
Qed.

End Iteration.

Lemma indices_seqZ n : indices n = seqZ 0 n.
Proof.
  unfold indices, seqZ. apply list_fmap_ext. intros _ i _. lia.
Qed.

Lemma sorted_seqZ (len : nat) : ∀ m, StronglySorted Z.lt (seqZ m (Z.of_nat len)).
Proof.
  induction len as [|len IH]; intros m.
  - rewrite seqZ_nil by lia. constructor.
  - rewrite seqZ_cons by lia.
    replace (Z.pred (Z.of_nat (S len))) with (Z.of_nat len) by lia.
    constructor; [apply IH|].
    apply Forall_forall. intros x Hx.
    apply list_elem_of_lookup in Hx as [i Hi].
    apply lookup_seqZ in Hi. lia.
Qed.

Lemma sorted_filter (P : Z → bool) l :
  StronglySorted Z.lt l → StronglySorted Z.lt (List.filter P l).
Proof.
  induction 1 as [|x l Hs IH Hx]; cbn [List.filter]; [constructor|].
  destruct (P x); [|done]. constructor; [done|].
  apply Forall_forall. intros y Hy.
  apply list_elem_of_In, filter_In in Hy as [Hy _].
  rewrite Forall_forall in Hx. apply Hx. now apply list_elem_of_In.
Qed.

Lemma visits_sorted (t : table) :
  StronglySorted Z.lt ((fun x => fst (fst x)) <$> visits t).
Proof.
  unfold THash.visits. rewrite <- list_fmap_compose.
  match goal with
  | |- StronglySorted _ (?f <$> ?L) =>
      assert (∀ l : list Z, f <$> l = l) as ->
        by (intros l; induction l as [|x l IH]; cbn; [done|now rewrite IH])
  end.
  apply sorted_filter. rewrite indices_seqZ.
  destruct (Z.le_gt_cases 0 (nentries t)).
  - rewrite <- (Z2Nat.id (nentries t)) by done. apply sorted_seqZ.
  - rewrite seqZ_nil by lia. constructor.
Qed.

Lemma elem_of_visits (t : table) j k v :
  (j, k, v) ∈ visits t ↔
  0 ≤ j < nentries t ∧ valid (ent (entries t) j) = true
  ∧ k = key (ent (entries t) j) ∧ v = value (ent (entries t) j).
Proof.
  unfold THash.visits. rewrite list_elem_of_fmap. split.
  - intros (i & [= -> -> ->] & Hi).
    apply list_elem_of_In, filter_In in Hi as [Hi Hv].
    apply list_elem_of_In, elem_of_indices in Hi. done.
  - intros (Hj & Hv & -> & ->). exists j. split; [done|].
    apply list_elem_of_In, filter_In. split; [|done].
    now apply list_elem_of_In, elem_of_indices.
Qed.

Lemma iterator_next_some fuel (t : table) (iter iter' : iterator) kv :
  iterator_next fuel t iter = Done (iter', Some kv) →
  valid (ent (entries t) (last_entry iter')) = true.
Proof.
  revert iter. induction fuel as [|fuel IH]; intros iter; [done|].
  cbn [THash.iterator_next].
  destruct (nentries t <=? wrap (last_entry iter + 1)); [done|].
  cbn [last_entry]. unfold THash.ent.
  destruct (slot (entries t) (wrap (last_entry iter + 1))) as [e|] eqn:E;
    [|done].
  destruct (valid e) eqn:Hv; [|apply IH].
  intros [= <- _]. cbn [last_entry]. now rewrite E.
Qed.

(** *** [remove], found or not *)

Lemma remove_spec (t : table) k :
  table_ok t = true →
  ∃ t' r,
    Yields (fun fuel => remove fuel t k) (2 * Z.to_nat (nentries t)) (t', r)
    ∧ table_ok t' = true ∧ nentries t' = nentries t
    ∧ match r with
      | Some (k0, v0) =>
          stored t k0 v0 ∧ TKEYEQUAL k k0 = true ∧ size t' = size t - 1
          ∧ (∀ x y, stored t' x y ↔ stored t x y ∧ TKEYEQUAL k x = false)
      | None => absent t k ∧ t' = t
      end.
Proof.
  intros Hok.
  destruct (table_ok_facts t Hok) as (Hsound & Ht & Hnr & Hs0 & Hload & Hcnt).
  pose proof (home_range (nentries t) k (shaped_cap t Ht)) as Hh.
  destruct (probe_stops t k _ Ht Hcnt Hh) as (p & Hfs).
  destruct (valid (ent (entries t) p)) eqn:Hv.
  - pose proof (first_stop_hit _ _ _ _ _ Hfs Hv) as Hk.
    destruct (remove_at t k p Hok (proj1 Hfs) Hv Hk)
      as (t' & HY & Hok' & Hn' & Hsz' & Hst').
    exists t', (Some (key (ent (entries t) p), value (ent (entries t) p))).
    refine (conj HY (conj Hok' (conj Hn' (conj _ (conj Hk (conj Hsz' Hst')))))).
    apply stored_at; [apply Hfs|done].
  - pose proof (sound_absent t k p Hsound Hfs Hv) as Habs.
    exists t, None. refine (conj _ (conj Hok (conj eq_refl (conj Habs eq_refl)))).
    apply (Yields_weaken _ _ _ _ (remove_absent t k Ht Hcnt Habs)). lia.
Qed.

(** *** Every reachable table is at rest *)

Lemma reachable_ok (t : table) : reachable t → table_ok t = true.
Proof.
  induction 1 as [fuel c t E|fuel t k v t' r _ IH E|fuel t k t' r _ IH E
                 |t t' _ IH E|fuel t t' _ IH E
                 |fuel fuel' t iter iter' kv t' _ IH Enext E].
  - pose proof (create_capacity_spec fuel c) as Hcc. rewrite E in Hcc.
    destruct Hcc as (N & HN & -> & _). now apply empty_table_ok.
  - pose proof (put_safe fuel t k v IH) as Hsafe. rewrite E in Hsafe.
    apply Hsafe.
  - destruct (remove_spec t k IH) as (t'' & r'' & HY & Hok' & _).
    pose proof (Yields_Done _ _ _ _ _ HY E) as [= -> ->]. done.
  - destruct (table_ok_facts t IH) as (_ & Ht & _).
    destruct (clear_spec t Ht) as (t'' & E' & Hok' & _). congruence.
  - pose proof (copy_safe fuel t IH) as Hsafe. rewrite E in Hsafe.
    apply Hsafe.
  - pose proof (iterator_next_some _ _ _ _ _ Enext) as Hv.
    destruct (table_ok_facts t IH) as (_ & Ht & _).
    pose proof (valid_ent_range _ _ Hv) as Hr.
    rewrite (shaped_len t Ht) in Hr.
    destruct (iterator_remove_at t iter' IH Hr Hv) as (t'' & HY & Hok' & _).
    now rewrite (Yields_Done _ _ _ _ _ HY E).
Qed.

(** *** A larger budget does not change what a call returns *)

Lemma scan_mono fuel :
  ∀ (t : table) k i r, scan fuel t k i = Done r → scan (S fuel) t k i = Done r.
Proof.
  induction fuel as [|fuel IH]; intros t k i r E; [done|].
  cbn [THash.scan] in E |- *.
  destruct (slot (entries t) i) as [e|]; [|done].
  destruct (valid e); [|done].
  destruct (TKEYEQUAL k (key e)); [done|]. now apply IH.
Qed.

Lemma double_until_mono fuel :
  ∀ n target r,
    double_until fuel n target = Done r →
    double_until (S fuel) n target = Done r.
Proof.
  induction fuel as [|fuel IH]; intros n target r E; [done|].
  cbn [double_until] in E |- *.
  destruct (n <? target); [|done]. now apply IH.
Qed.

Lemma create_capacity_mono fuel c (r : table) :
  create_capacity fuel c = Done r → create_capacity (S fuel) c = Done r.
Proof.
  unfold THash.create_capacity.
  destruct (negb _); [|done].
  destruct (double_until fuel 8 _) as [m| | |] eqn:E; try done.
  now rewrite (double_until_mono _ _ _ _ E).
Qed.

Lemma for_valid_mono (body body' : table → entry → outcome table)
    (es : list entry) :
  (∀ nh e r, body nh e = Done r → body' nh e = Done r) →
  ∀ idxs nh r,
    for_valid body es idxs nh = Done r → for_valid body' es idxs nh = Done r.
Proof.
  intros Hbody. induction idxs as [|i idxs IH]; intros nh r E; [done|].
  cbn [THash.for_valid] in E |- *.
  destruct (slot es i) as [e|]; [|done].
  destruct (valid e); [|now apply IH].
  destruct (body nh e) as [nh1| | |] eqn:E1; try done.
  rewrite (Hbody _ _ _ E1). cbn [bind] in E |- *. now apply IH.
Qed.

Lemma put_new_mono
    (putf putf' : table → K → V → outcome (table * option (K * V))) :
  (∀ t k v r, putf t k v = Done r → putf' t k v = Done r) →
  ∀ nh e r, put_new putf nh e = Done r → put_new putf' nh e = Done r.
Proof.
  intros Hput nh e r. unfold put_new.
  destruct (putf nh (key e) (value e)) as [x| | |] eqn:E; try done.
  now rewrite (Hput _ _ _ _ E).
Qed.

Lemma put_S fuel (t : table) k v :
  put (S fuel) t k v
  = bind (scan fuel t k (first_idx t k)) (fun r =>
      match r with
      | Hit entry_idx e =>
          Done (Table (store (entries t) entry_idx (Entry (valid e) k v))
                      (nentries t) (size t),
                Some (key e, value e))
      | Miss entry_idx =>
          let hash := Table (store (entries t) entry_idx (Entry true k v))
                            (nentries t) (wrap (size t + 1)) in
          if nentries hash <? wrap (THASH_FACTOR_CRITICAL * size hash) then
            bind (create_capacity fuel (wrap (size hash + 1))) (fun newhash =>
            bind (for_valid (put_new (put fuel)) (entries hash)
                    (indices (nentries hash)) newhash) (fun newhash =>
            Done (newhash, None)))
          else Done (hash, None)
      end).
Proof. reflexivity. Qed.

Lemma put_mono fuel :
  ∀ (t : table) k v r, put fuel t k v = Done r → put (S fuel) t k v = Done r.
Proof.
  induction fuel as [|fuel IH]; intros t k v r E; [done|].
  rewrite put_S in E |- *.
  destruct (scan fuel t k (first_idx t k)) as [pr| | |] eqn:Es; try done.
  rewrite (scan_mono _ _ _ _ _ Es). cbn [bind] in E |- *.
  destruct pr as [idx e|idx]; [done|]. cbv zeta in E |- *.
  destruct (_ <? _); [|done].
  destruct (create_capacity fuel _) as [nh| | |] eqn:Ec; try done.
  rewrite (create_capacity_mono _ _ _ Ec). cbn [bind] in E |- *.
  destruct (for_valid (put_new (put fuel)) _ _ nh) as [nh'| | |] eqn:Ef;
    try done.
  now rewrite (for_valid_mono _ _ _ (put_new_mono _ _ IH) _ _ _ Ef).
Qed.

Lemma put_mono_le (t : table) k v r (f f' : nat) :
  (f ≤ f')%nat → put f t k v = Done r → put f' t k v = Done r.
Proof.
  induction 1 as [|f' _ IH]; [done|]. intros E. now apply put_mono, IH.
Qed.

(** [put] on a table at rest whose growth stays within [int]: one result,
    whatever the budget, and it is returned above the given budget. *)
Lemma put_total (t : table) k v :
  table_ok t = true → nentries t ≤ 2 ^ 28 →
  ∃ t' r,
    (∀ fuel, (Z.to_nat (4 * nentries t) + 1 < fuel)%nat →
       put fuel t k v = Done (t', r))
    ∧ (∀ fuel x, put fuel t k v = Done x → x = (t', r))
    ∧ put_post t k v t' r.
Proof.
  intros Hok H28.
  destruct (put_returns t k v (Z.to_nat (4 * nentries t) + 2) Hok H28
              ltac:(lia)) as (t' & r & E & Hpost).
  exists t', r. refine (conj _ (conj _ Hpost)).
  - intros fuel Hfuel. apply (put_mono_le _ _ _ _ _ fuel) in E; [done|lia].
  - intros fuel x Ex.
    apply (put_mono_le _ _ _ _ _ (fuel + (Z.to_nat (4 * nentries t) + 2)))
      in Ex; [|lia].
    apply (put_mono_le _ _ _ _ _ (fuel + (Z.to_nat (4 * nentries t) + 2)))
      in E; [|lia].
    congruence.
Qed.

(** [put] also returns, with one result for every budget, on a larger
    table, as long as it does not have to grow it: when the capacity is
    at least twice the length after an insert, or when a key equal to [k]
    is stored. *)
Lemma put_total_wide (t : table) k v :
  table_ok t = true →
  nentries t ≤ 2 ^ 28 ∨ 2 * (size t + 1) ≤ nentries t
  ∨ (∃ k0 v0, stored t k0 v0 ∧ TKEYEQUAL k k0 = true) →
  ∃ t' r,
    (∀ fuel, (Z.to_nat (4 * nentries t) + 1 < fuel)%nat →
       put fuel t k v = Done (t', r))
    ∧ (∀ fuel x, put fuel t k v = Done x → x = (t', r))
    ∧ put_post t k v t' r.
Proof.
  intros Hok Hcase.
  destruct (table_ok_facts t Hok) as (Hsound & Ht & Hnr & _).
  set (F := (Z.to_nat (4 * nentries t) + 2)%nat).
  assert (∃ t' r, put F t k v = Done (t', r)) as (t' & r & E).
  { destruct Hcase as [H28|[Hroom|(k0 & v0 & (i & Hi & Hv & <- & _) & Hk)]].
    - destruct (put_returns t k v F Hok H28 ltac:(unfold F; lia)) as (t' & r & E & _).
      eauto.
    - destruct (put_returns_room t k v F Hok Hroom ltac:(unfold F; lia)) as [[t' r] E].
      eauto.
    - apply sound_spec in Hsound as (_ & _ & Hpr & Hnd).
      pose proof (found_first_stop _ _ k i (shaped_cap t Ht) Hpr Hnd Hi Hv Hk)
        as Hfs.
      eexists _, _. apply (put_hit t k v i Ht Hfs Hv). unfold F. lia. }
  pose proof (put_safe F t k v Hok) as Hpost. rewrite E in Hpost.
  exists t', r. refine (conj _ (conj _ Hpost)).
  - intros fuel Hfuel. apply (put_mono_le _ _ _ _ _ fuel) in E; [done|unfold F in *; lia].
  - intros fuel x Ex.
    apply (put_mono_le _ _ _ _ _ (fuel + F)) in Ex; [|unfold F; lia].
    apply (put_mono_le _ _ _ _ _ (fuel + F)) in E; [|unfold F; lia].
    congruence.
Qed.

(** *** Growing past [int]

    A hint of [2 ^ 28 + 2] asks for more than [2 ^ 30] slots: the doubling
    loop steps from [2 ^ 30] past the largest [int] and then stays below
    its target. *)
Lemma create_capacity_overflow fuel :
  create_capacity fuel (2 ^ 28 + 2) = OutOfFuel.
Proof.
  unfold THash.create_capacity, THASH_FACTOR_REALLOC.
  replace (wrap (4 * (2 ^ 28 + 2))) with (2 ^ 30 + 8)
    by (rewrite wrap_small; lia).
  destruct (Z.ltb_spec (2 ^ 30 + 8) 8); [lia|].
  replace (wrap (2 ^ 30 + 8 - 1)) with (2 ^ 30 + 7)
    by (rewrite wrap_small; lia).
  change (negb (Z.land (2 ^ 30 + 8) (2 ^ 30 + 7) =? 0)) with true.
  cbv beta iota.
  pose proof (double_until_spec (2 ^ 30 + 8) ltac:(lia) fuel 3 ltac:(lia))
    as Hd.
  change (2 ^ 3) with 8 in Hd.
  destruct (double_until fuel 8 (2 ^ 30 + 8)) as [m| | |]; try done.
  destruct Hd as (j & Hj & -> & Hle & _). exfalso.
  assert (2 ^ j ≤ 2 ^ 30) by (apply Z.pow_le_mono_r; lia). lia.
Qed.

(** A table at rest of [2 ^ 29] slots that holds [2 ^ 28] entries cannot
    take a new key: the growth trigger fires and the rehash never gets
    its new table. *)
Lemma put_overflow (t : table) k v fuel :
  table_ok t = true → nentries t = 2 ^ 29 → size t = 2 ^ 28 → absent t k →
  put fuel t k v = OutOfFuel.
Proof.
  intros Hok Hn Hsz Habs. destruct fuel as [|fuel]; [done|]. rewrite put_S.
  destruct (table_ok_facts t Hok) as (_ & Ht & _ & _ & _ & Hcnt).
  destruct (absent_miss t k Ht Hcnt Habs) as (p & HY).
  destruct (HY fuel) as [[E|E] _]; rewrite E; cbn [bind]; [|done].
  cbv zeta. cbn [nentries size]. rewrite Hn, Hsz.
  unfold THASH_FACTOR_CRITICAL. rewrite (wrap_small (2 ^ 28 + 1)) by lia.
  rewrite !wrap_small by lia.
  destruct (Z.ltb_spec (2 ^ 29) (2 * (2 ^ 28 + 1))); [|lia].
  replace (2 ^ 28 + 1 + 1) with (2 ^ 28 + 2) by lia.
  now rewrite create_capacity_overflow.
Qed.

(** ** The claims *)

(** C6: in a table whose capacity is a power of two and whose length, the
    number of valid slots, is below the capacity, the probe loop of
    [get], [get_volatile], [put] and [remove] returns from every start
    slot once its budget reaches the capacity, and it leaves either at a
    valid slot whose key equals the searched key or at a slot that is not
    valid; the slot where the four functions start it is in range. *)
Theorem probe_terminates (t : table) k i :
  shaped t = true → size t = count_valid (entries t) →
  size t < nentries t → 0 ≤ i < nentries t →
  (∃ r,
     (∀ fuel, (Z.to_nat (nentries t) ≤ fuel)%nat → scan fuel t k i = Done r)
     ∧ match r with
       | Hit p e => slot (entries t) p = Some e ∧ valid e = true
                    ∧ TKEYEQUAL k (key e) = true
       | Miss p => ∃ e, slot (entries t) p = Some e ∧ valid e = false
       end)
  ∧ 0 ≤ first_idx t k < nentries t.
Proof.
  intros Ht Hsz Hlt Hi. pose proof (shaped_len t Ht) as Hlen. split.
  - destruct (probe_stops t k i Ht ltac:(lia) Hi) as (p & Hfs).
    exists (leave (entries t) p). split.
    + intros fuel Hfuel. apply (scan_first_stop t k i p Ht Hi Hfs). lia.
    + destruct Hfs as (Hp & Hps & _). unfold THash.leave, THash.passes in *.
      destruct (valid (ent (entries t) p)) eqn:Hv.
      * rewrite ent_slot by lia. repeat split; [done|].
        now destruct (TKEYEQUAL k (key (ent (entries t) p))).
      * exists (ent (entries t) p). split; [|done]. apply ent_slot. lia.
  - rewrite first_idx_home by done. apply home_range, shaped_cap, Ht.
Qed.

(** C9: for a key that no valid slot holds, in a table with a slot that
    is not valid, [get] and [remove] return the not-found result, 0, once
    the budget reaches the capacity; below it they only run out of budget,
    so no [assert] fails and no access leaves the array; [remove] returns
    the table it was given, with the same slots, size and capacity, and
    [get] does not write. *)
Theorem not_found_leaves_table (t : table) k :
  shaped t = true → size t = count_valid (entries t) →
  size t < nentries t → absent t k →
  ∀ fuel,
    (get fuel t k = Done None ∨ get fuel t k = OutOfFuel)
    ∧ (remove fuel t k = Done (t, None) ∨ remove fuel t k = OutOfFuel)
    ∧ ((Z.to_nat (nentries t) ≤ fuel)%nat →
       get fuel t k = Done None ∧ remove fuel t k = Done (t, None)).
Proof.
  intros Ht Hsz Hlt Habs fuel.
  destruct (get_absent t k Ht ltac:(lia) Habs fuel) as [Hg Hg'].
  destruct (remove_absent t k Ht ltac:(lia) Habs fuel) as [Hr Hr'].
  pose proof (shaped_range t Ht).
  refine (conj Hg (conj Hr _)). intros Hfuel. split; [apply Hg'|apply Hr']; lia.
Qed.

(** C10: after [iterator_init], calling [iterator_next] until it returns 0
    yields the key and the value of every valid slot, in strictly
    increasing order of the slot index, so each slot once; the call after
    the last entry returns 0, and so does every later call. *)
Theorem iteration_visits_each_once (t : table) calls fuel :
  Z.of_nat (length (entries t)) = nentries t → nentries t < 2 ^ 31 →
  (Z.to_nat (nentries t) < fuel)%nat → (Z.to_nat (nentries t) < calls)%nat →
  iterate calls fuel t iterator_init
  = Done (visits t, Iterator (nentries t - 1))
  ∧ iterator_next fuel t (Iterator (nentries t - 1))
    = Done (Iterator (nentries t - 1), None)
  ∧ StronglySorted Z.lt ((fun x => fst (fst x)) <$> visits t)
  ∧ ∀ j k v, (j, k, v) ∈ visits t ↔
       0 ≤ j < nentries t ∧ valid (ent (entries t) j) = true
       ∧ k = key (ent (entries t) j) ∧ v = value (ent (entries t) j).
Proof.
  intros Hlen Hint Hfuel Hcalls.
  refine (conj _ (conj _ (conj (visits_sorted t) (elem_of_visits t)))).
  - unfold iterator_init, THash.visits. rewrite indices_seqZ.
    rewrite (iterate_from t Hlen Hint (Z.to_nat (nentries t)) (-1)) by lia.
    rewrite Z2Nat.id by lia. done.
  - destruct fuel as [|fuel]; [lia|]. apply iterator_next_end; lia.
Qed.

(** C1: in a table at rest that stores [(k0, v0)] under a key equal to
    [k], [remove k] returns that pair, the size drops by exactly one, a
    [get k] on the result finds nothing, and every other stored pair is
    still found by [get], under any key equal to its own, with its
    value. *)
Theorem remove_keeps_the_others (t : table) k k0 v0 :
  table_ok t = true → stored t k0 v0 → TKEYEQUAL k k0 = true →
  ∃ t',
    (∀ fuel, (2 * Z.to_nat (nentries t) < fuel)%nat →
       remove fuel t k = Done (t', Some (k0, v0)))
    ∧ table_ok t' = true
    ∧ size t' = size t - 1
    ∧ (∀ fuel, (Z.to_nat (nentries t') ≤ fuel)%nat → get fuel t' k = Done None)
    ∧ (∀ k' v' k'' fuel,
         stored t k' v' → TKEYEQUAL k k' = false → TKEYEQUAL k'' k' = true →
         (Z.to_nat (nentries t') ≤ fuel)%nat →
         get fuel t' k'' = Done (Some v')).
Proof.
  intros Hok Hst Hk.
  destruct (remove_stored t k k0 v0 Hok Hst Hk)
    as (t' & HY & Hok' & Hn' & Hsz' & Hst').
  destruct (table_ok_facts t' Hok') as (_ & Ht' & Hnr' & _ & _ & Hcnt').
  exists t'. refine (conj _ (conj Hok' (conj Hsz' (conj _ _)))).
  - intros fuel Hfuel. now apply HY.
  - intros fuel Hfuel. apply (get_absent t' k Ht' Hcnt'); [|lia].
    apply absent_stored. intros x y Hs. now apply Hst' in Hs.
  - intros k' v' k'' fuel Hs' Hne Heq Hfuel.
    apply (get_stored t' k'' k' v' Hok'); [|done|lia].
    apply Hst'. done.
Qed.

(** C2: on a table at rest, [put k v] returns, with the same result for
    every budget above the stated one, and a [get k] on the table it
    leaves reports the value [v], as long as the put does not have to
    grow a table of more than [2 ^ 28] slots: the capacity is at most
    [2 ^ 28], or it is at least twice the length after an insert, or a
    key equal to [k] is stored.  (A rehash makes four times the
    capacity, which has to fit [int].) *)
Theorem put_then_get (t : table) k v :
  table_ok t = true →
  nentries t ≤ 2 ^ 28 ∨ 2 * (size t + 1) ≤ nentries t
  ∨ (∃ k0 v0, stored t k0 v0 ∧ TKEYEQUAL k k0 = true) →
  ∃ t' r,
    (∀ fuel, (Z.to_nat (4 * nentries t) + 1 < fuel)%nat →
       put fuel t k v = Done (t', r))
    ∧ (∀ fuel x, put fuel t k v = Done x → x = (t', r))
    ∧ ∀ fuel, (Z.to_nat (nentries t') ≤ fuel)%nat →
        get fuel t' k = Done (Some v).
Proof.
  intros Hok Hcase.
  destruct (put_total_wide t k v Hok Hcase)
    as (t' & r & Hret & Huniq & Hok' & Hst' & _).
  exists t', r. refine (conj Hret (conj Huniq _)). intros fuel Hfuel.
  destruct (table_ok_facts t' Hok') as (_ & _ & Hnr' & _).
  apply (get_stored t' k k v Hok'); [|apply (keq_refl _ _ Hcontract)|lia].
  apply Hst'. by left.
Qed.

(** C5: when the table stores [(k0, v1)] under a key equal to [k],
    [put k v2] returns the previous pair [(k0, v1)] and keeps the size and
    the capacity, and a [get k] on the result reports [v2]. *)
Theorem put_update (t : table) k k0 v1 v2 :
  table_ok t = true → stored t k0 v1 → TKEYEQUAL k k0 = true →
  ∃ t',
    (∀ fuel, (Z.to_nat (nentries t) < fuel)%nat →
       put fuel t k v2 = Done (t', Some (k0, v1)))
    ∧ size t' = size t ∧ nentries t' = nentries t
    ∧ ∀ fuel, (Z.to_nat (nentries t') ≤ fuel)%nat →
        get fuel t' k = Done (Some v2).
Proof.
  intros Hok (i & Hi & Hv & <- & <-) Hk.
  destruct (table_ok_facts t Hok) as (Hsound & Ht & Hnr & Hs0 & Hload & _).
  pose proof (proj1 (sound_spec t) Hsound) as (_ & _ & Hpr & Hnd).
  pose proof (found_first_stop _ _ k i (shaped_cap t Ht) Hpr Hnd Hi Hv Hk)
    as Hfs.
  destruct (put_hit_sound t k v2 i Hsound Hfs Hv) as [Hsound' Hst'].
  set (t' := Table (store (entries t) i (Entry true k v2)) (nentries t)
               (size t)) in *.
  assert (table_ok t' = true) as Hok'.
  { apply table_ok_spec. split; [done|]. cbn. lia. }
  exists t'. refine (conj _ (conj eq_refl (conj eq_refl _))).
  - intros fuel Hfuel. now apply (put_hit t k v2 i Ht Hfs Hv).
  - intros fuel Hfuel.
    apply (get_stored t' k k v2 Hok'); [|apply (keq_refl _ _ Hcontract)|].
    + apply Hst'. by left.
    + change (nentries t') with (nentries t) in *. lia.
Qed.

Lemma table_ok_load_inv (t : table) : table_ok t = true → load_inv t.
Proof.
  intros Hok.
  destruct (table_ok_facts t Hok) as (_ & Ht & Hnr & _ & Hload & _).
  destruct (cap_ok_pow2 _ (shaped_cap t Ht)) as (j & Hj & Ej).
  split; [exists j; split; [lia|done]|lia].
Qed.

(** C7: on a table at rest no budget makes [put], [remove], [copy] or
    [iterator_remove] (after an [iterator_next] that returned an entry)
    end in a failed [assert] or in an access outside the slot array: the
    reinsertions of the rehash, of the loop that re-puts the entries after
    a vacated slot, and of [copy] never find their key already there. *)
Theorem reinsertion_asserts_unreachable (t : table) :
  table_ok t = true →
  (∀ fuel k v, put fuel t k v ≠ Abort ∧ put fuel t k v ≠ Fault)
  ∧ (∀ fuel k, remove fuel t k ≠ Abort ∧ remove fuel t k ≠ Fault)
  ∧ (∀ fuel, copy fuel t ≠ Abort ∧ copy fuel t ≠ Fault)
  ∧ (∀ fuel fuel' (iter iter' : iterator) kv,
       iterator_next fuel t iter = Done (iter', Some kv) →
       iterator_remove fuel' t iter' ≠ Abort
       ∧ iterator_remove fuel' t iter' ≠ Fault).
Proof.
  intros Hok. refine (conj _ (conj _ (conj _ _))).
  - intros fuel k v. pose proof (put_safe fuel t k v Hok) as Hsafe.
    destruct (put fuel t k v); done.
  - intros fuel k. destruct (remove_spec t k Hok) as (t' & r & HY & _).
    destruct (HY fuel) as [[E|E] _]; rewrite E; done.
  - intros fuel. pose proof (copy_safe fuel t Hok) as Hsafe.
    destruct (copy fuel t); done.
  - intros fuel fuel' iter iter' kv Enext.
    pose proof (iterator_next_some _ _ _ _ _ Enext) as Hv.
    destruct (table_ok_facts t Hok) as (_ & Ht & _).
    pose proof (valid_ent_range _ _ Hv) as Hr.
    rewrite (shaped_len t Ht) in Hr.
    destruct (iterator_remove_at t iter' Hok Hr Hv) as (t' & HY & _).
    destruct (HY fuel') as [[E|E] _]; rewrite E; done.
Qed.

(** C8: [create_capacity] and [create] return tables at rest, and from a
    table at rest [put], [remove], [clear], [copy] and [iterator_remove]
    (after an [iterator_next] that returned an entry) return tables at
    rest; a table at rest has a capacity that is a power of two, at least
    8 and at least twice its size.  [remove], [clear] and
    [iterator_remove] return, and keep the capacity; [put] changes it only
    when it inserted a new key and the growth trigger held; [put] and
    [copy] return while the capacity they grow to stays within [int]. *)
Theorem capacity_invariant_preserved (t : table) :
  table_ok t = true →
  load_inv t
  ∧ (∀ fuel c t', create_capacity fuel c = Done t' →
       table_ok t' = true ∧ load_inv t')
  ∧ (∀ fuel t', create fuel = Done t' → table_ok t' = true ∧ load_inv t')
  ∧ (∀ fuel k v t' r, put fuel t k v = Done (t', r) →
       table_ok t' = true ∧ load_inv t'
       ∧ (nentries t' ≠ nentries t →
          r = None ∧ nentries t < 2 * (size t + 1)))
  ∧ (∀ k, ∃ t' r,
       (∀ fuel, (2 * Z.to_nat (nentries t) < fuel)%nat →
          remove fuel t k = Done (t', r))
       ∧ (∀ fuel t'' r', remove fuel t k = Done (t'', r') → t'' = t')
       ∧ table_ok t' = true ∧ load_inv t' ∧ nentries t' = nentries t)
  ∧ (∃ t', clear t = Done t' ∧ table_ok t' = true ∧ load_inv t'
           ∧ nentries t' = nentries t)
  ∧ (∀ fuel t', copy fuel t = Done t' → table_ok t' = true ∧ load_inv t')
  ∧ (nentries t ≤ 2 ^ 28 → ∀ k v, ∃ t' r,
       ∀ fuel, (Z.to_nat (4 * nentries t) + 1 < fuel)%nat →
         put fuel t k v = Done (t', r))
  ∧ (nentries t ≤ 2 ^ 29 →
     ∀ fuel, (Z.to_nat (2 * nentries t) + 28 < fuel)%nat →
       ∃ t', copy fuel t = Done t')
  ∧ (∀ fuel (iter iter' : iterator) kv,
       iterator_next fuel t iter = Done (iter', Some kv) →
       ∃ t',
         (∀ fuel', (2 * Z.to_nat (nentries t) < fuel')%nat →
            iterator_remove fuel' t iter' = Done t')
         ∧ (∀ fuel' t'', iterator_remove fuel' t iter' = Done t'' → t'' = t')
         ∧ table_ok t' = true ∧ load_inv t' ∧ nentries t' = nentries t).
Proof.
  intros Hok.
  assert (∀ fuel c t', create_capacity fuel c = Done t' →
            table_ok t' = true ∧ load_inv t') as Hcreate.
  { intros fuel c t' E.
    pose proof (create_capacity_spec fuel c) as Hcc. rewrite E in Hcc.
    destruct Hcc as (N & HN & -> & _).
    destruct (empty_table_ok N HN) as [Hok' _].
    split; [done|]. now apply table_ok_load_inv. }
  refine (conj (table_ok_load_inv t Hok)
            (conj Hcreate (conj _ (conj _ (conj _ (conj _ (conj _
               (conj _ (conj _ _))))))))).
  - intros fuel t'. apply Hcreate.
  - intros fuel k v t' r E.
    pose proof (put_safe fuel t k v Hok) as Hsafe. rewrite E in Hsafe.
    destruct Hsafe as (Hok' & _ & Hr & Hsame & _).
    refine (conj Hok' (conj (table_ok_load_inv t' Hok') _)).
    intros Hne. destruct r as [kv|].
    + exfalso. apply Hne, Hsame. by left.
    + split; [done|].
      destruct (Z.lt_ge_cases (nentries t) (2 * (size t + 1))); [done|].
      exfalso. apply Hne, Hsame. right. lia.
  - intros k. destruct (remove_spec t k Hok) as (t' & r & HY & Hok' & Hn' & _).
    exists t', r.
    refine (conj _ (conj _ (conj Hok' (conj (table_ok_load_inv t' Hok') Hn')))).
    + intros fuel Hfuel. now apply HY.
    + intros fuel t'' r' E.
      now pose proof (Yields_Done _ _ _ _ _ HY E) as [= -> ->].
  - destruct (table_ok_facts t Hok) as (_ & Ht & _).
    destruct (clear_spec t Ht) as (t' & E & Hok' & Hn' & _).
    exists t'. auto using table_ok_load_inv.
  - intros fuel t' E. pose proof (copy_safe fuel t Hok) as Hsafe.
    rewrite E in Hsafe. destruct Hsafe as (Hok' & _).
    auto using table_ok_load_inv.
  - intros H28 k v.
    destruct (put_total t k v Hok H28) as (t' & r & Hret & _). eauto.
  - intros H29 fuel Hfuel. now apply copy_returns.
  - intros fuel iter iter' kv Enext.
    pose proof (iterator_next_some _ _ _ _ _ Enext) as Hv.
    destruct (table_ok_facts t Hok) as (_ & Ht & _).
    pose proof (valid_ent_range _ _ Hv) as Hr.
    rewrite (shaped_len t Ht) in Hr.
    destruct (iterator_remove_at t iter' Hok Hr Hv)
      as (t' & HY & Hok' & Hn' & _).
    exists t'.
    refine (conj _ (conj _ (conj Hok' (conj (table_ok_load_inv t' Hok') Hn')))).
    + intros fuel' Hfuel. now apply HY.
    + intros fuel' t'' E. apply (Yields_Done _ _ _ _ _ HY E).
Qed.

(** [growth_target] is what the specification says: a power of two, at
    least [4 * target] and at least 8, and the smallest such. *)
Lemma growth_target_smallest target :
  (∃ j, 0 ≤ j ∧ growth_target target = 2 ^ j)
  ∧ 4 * target ≤ growth_target target ∧ 8 ≤ growth_target target
  ∧ ∀ j, 0 ≤ j → 4 * target ≤ 2 ^ j → 8 ≤ 2 ^ j → growth_target target ≤ 2 ^ j.
Proof.
  pose proof (growth_target_ge target) as [H4 H8].
  refine (conj _ (conj H4 (conj H8 _))).
  - exists (Z.log2_up (Z.max (4 * target) 8)). split; [|done].
    apply Z.log2_up_nonneg.
  - intros j Hj Hc Hf. unfold growth_target. apply Z.pow_le_mono_r; [lia|].
    apply Z.log2_up_le_pow2; lia.
Qed.

Lemma growth_target_between c j :
  0 ≤ j → 8 ≤ 4 * c → 2 ^ j < 4 * c ≤ 2 ^ (j + 1) →
  growth_target c = 2 ^ (j + 1).
Proof.
  intros Hj H8 Hc. unfold growth_target. f_equal.
  rewrite Z.max_l by lia. apply Z.log2_up_unique; [lia|].
  now replace (Z.pred (j + 1)) with j by lia.
Qed.

(** When the growth trigger fires on a table at rest, the length after
    the insert and the length plus one have the same growth target. *)
Lemma growth_target_trigger (t : table) :
  table_ok t = true → nentries t < 2 * (size t + 1) →
  growth_target (size t + 1 + 1) = growth_target (size t + 1).
Proof.
  intros Hok Htrig.
  destruct (table_ok_facts t Hok) as (_ & Ht & Hnr & Hs0 & Hload & _).
  destruct (cap_ok_pow2 _ (shaped_cap t Ht)) as (j & Hj & Ej).
  assert (2 ^ j = 2 * 2 ^ (j - 1)) as E2.
  { replace j with (j - 1 + 1) at 1 by lia. rewrite Z.pow_add_r by lia. lia. }
  assert (4 ≤ 2 ^ (j - 1)) as H4.
  { change 4 with (2 ^ 2). apply Z.pow_le_mono_r; lia. }
  assert (2 ^ (j + 1) = 4 * 2 ^ (j - 1)) as E4.
  { replace (j + 1) with (j - 1 + 2) by lia. rewrite Z.pow_add_r by lia. lia. }
  assert (2 ^ (j + 1 + 1) = 8 * 2 ^ (j - 1)) as E8.
  { replace (j + 1 + 1) with (j - 1 + 3) by lia.
    rewrite Z.pow_add_r by lia. lia. }
  rewrite (growth_target_between (size t + 1 + 1) (j + 1)) by lia.
  rewrite (growth_target_between (size t + 1) (j + 1)) by lia.
  done.
Qed.

(** C4: on a reachable table of at most [2 ^ 28] slots (a rehash makes
    four times the capacity, which has to fit [int]), when [put] inserts
    a new key and the growth trigger fires (the capacity is below twice
    the length after the insert), [put] returns a table whose
    capacity is the growth target (the smallest power of two that is at
    least four times the target, and at least 8) of the length after the
    insert. *)
Theorem rehash_capacity_is_growth_target (t : table) k v :
  reachable t → nentries t ≤ 2 ^ 28 →
  absent t k → nentries t < 2 * (size t + 1) →
  ∃ t',
    (∀ fuel, (Z.to_nat (4 * nentries t) + 1 < fuel)%nat →
       put fuel t k v = Done (t', None))
    ∧ (∀ fuel x, put fuel t k v = Done x → x = (t', None))
    ∧ size t' = size t + 1
    ∧ nentries t' = growth_target (size t')
    ∧ (∃ j, 0 ≤ j ∧ nentries t' = 2 ^ j)
    ∧ 4 * size t' ≤ nentries t' ∧ 8 ≤ nentries t'
    ∧ ∀ j, 0 ≤ j → 4 * size t' ≤ 2 ^ j → 8 ≤ 2 ^ j → nentries t' ≤ 2 ^ j.
Proof.
  intros Hreach H28 Habs Htrig. pose proof (reachable_ok t Hreach) as Hok.
  destruct (put_total t k v Hok H28)
    as (t' & r & Hret & Huniq & _ & _ & Hr & _ & Hgrow).
  destruct r as [[k0 v0]|].
  { destruct Hr as (Hs0 & Hk0 & _). rewrite absent_stored in Habs.
    rewrite (Habs _ _ Hs0) in Hk0. discriminate. }
  destruct Hr as [_ Hsz].
  assert (nentries t' = growth_target (size t')) as Hn.
  { rewrite Hgrow by done. rewrite Hsz. now apply growth_target_trigger. }
  exists t'. refine (conj Hret (conj Huniq (conj Hsz (conj Hn _)))).
  rewrite Hn. apply growth_target_smallest.
Qed.

(** *** Inserting a list of new keys *)

Lemma distinct_keys_snoc (ks : list K) x :
  distinct_keys (ks ++ [x]) = true →
  distinct_keys ks = true ∧ ∀ k, k ∈ ks → TKEYEQUAL k x = false.
Proof.
  induction ks as [|a ks IH]; cbn [app THash.distinct_keys].
  - intros _. split; [done|]. intros k Hk. now apply elem_of_nil in Hk.
  - intros [Hall Hrest]%andb_true_iff. rewrite forallb_app in Hall.
    apply andb_true_iff in Hall as [Hall Hx]. cbn in Hx.
    destruct (IH Hrest) as [Hd Hks]. split.
    + now rewrite Hall, Hd.
    + intros k [->|Hk]%elem_of_cons; [|now apply Hks].
      now destruct (TKEYEQUAL a x).
Qed.

Lemma keq_false_sym a b : TKEYEQUAL a b = false → TKEYEQUAL b a = false.
Proof.
  intros Hab. destruct (TKEYEQUAL b a) eqn:Hba; [|done].
  rewrite (keq_sym _ _ Hcontract b a Hba) in Hab. discriminate.
Qed.

Lemma put_each_fresh fuel :
  ∀ (kvs : list (K * V)) (t : table),
    table_ok t = true → distinct_keys (kvs.*1) = true →
    (∀ k v, (k, v) ∈ kvs → absent t k) →
    2 * (size t + Z.of_nat (length kvs)) ≤ nentries t →
    (Z.to_nat (nentries t) < fuel)%nat →
    ∃ t', put_each fuel t kvs = Done t' ∧ table_ok t' = true
          ∧ nentries t' = nentries t
          ∧ size t' = size t + Z.of_nat (length kvs)
          ∧ ∀ x y, stored t' x y ↔ stored t x y ∨ (x, y) ∈ kvs.
Proof.
  induction kvs as [|[k v] kvs IH]; intros t Hok Hd Habs Hroom Hfuel.
  - exists t. cbn. refine (conj eq_refl (conj Hok (conj eq_refl (conj _ _)))).
    + lia.
    + intros x y. split; [by left|]. intros [H|H]; [done|].
      now apply elem_of_nil in H.
  - cbn [length] in Hroom. cbn [fmap list_fmap fst THash.distinct_keys] in Hd.
    apply andb_true_iff in Hd as [Hk Hd].
    destruct (put_returns_room t k v fuel Hok ltac:(lia) Hfuel) as [[t1 r] E].
    pose proof (put_safe fuel t k v Hok) as Hsafe. rewrite E in Hsafe.
    destruct Hsafe as (Hok1 & Hst1 & Hr & Hsame & _).
    assert (absent t k) as Hak by (apply (Habs k v), elem_of_cons; by left).
    destruct r as [[k0 v0]|].
    { destruct Hr as (Hs0 & Hk0 & _). rewrite absent_stored in Hak.
      rewrite (Hak _ _ Hs0) in Hk0. discriminate. }
    destruct Hr as [_ Hsz1].
    assert (nentries t1 = nentries t) as Hn1 by (apply Hsame; right; lia).
    destruct (IH t1 Hok1 Hd) as (t' & E' & Hok' & Hn' & Hsz' & Hst').
    + intros k' v' Hin. apply absent_stored. intros x y Hs.
      apply Hst1 in Hs as [[-> ->]|[Hs _]].
      * apply keq_false_sym.
        rewrite forallb_forall in Hk. apply negb_true_iff, Hk.
        apply list_elem_of_In, list_elem_of_fmap. by exists (k', v').
      * assert (absent t k') as Ha.
        { apply (Habs k' v'), elem_of_cons. by right. }
        rewrite absent_stored in Ha. now apply (Ha x y).
    + lia.
    + lia.
    + exists t'. cbn [THash.put_each length]. rewrite E. cbn [bind fst].
      refine (conj E' (conj Hok' (conj _ (conj _ _)))); [lia|lia|].
      intros x y. rewrite Hst', Hst1. rewrite elem_of_cons. split.
      * intros [[[-> ->]|[Hs _]]|Hin]; [right; by left|by left|right; by right].
      * intros [Hs|[[= -> ->]|Hin]]; [left; right|left; by left|by right].
        split; [done|]. rewrite absent_stored in Hak. now apply (Hak x y).
Qed.

(** C3: [create] returns a table of capacity 32 and size 0; after 16
    pairwise different keys are put in, the capacity is still 32 and the
    size is 16; putting a 17th different key rehashes, and leaves a table
    of size 17 and capacity 128 in which [get] finds each of the 17 keys
    with its value. *)
Theorem default_table_grows_at_17 (kvs : list (K * V)) k17 v17 fuel :
  length kvs = 16%nat →
  distinct_keys ((kvs ++ [(k17, v17)]).*1) = true →
  (130 ≤ fuel)%nat →
  ∃ t0 t16 t17,
    create fuel = Done t0 ∧ nentries t0 = 32 ∧ size t0 = 0
    ∧ put_each fuel t0 kvs = Done t16 ∧ nentries t16 = 32 ∧ size t16 = 16
    ∧ put fuel t16 k17 v17 = Done (t17, None)
    ∧ size t17 = 17 ∧ nentries t17 = 128
    ∧ ∀ k v, (k, v) ∈ kvs ++ [(k17, v17)] → get fuel t17 k = Done (Some v).
Proof.
  intros Hlen Hd Hfuel. rewrite fmap_app in Hd.
  apply distinct_keys_snoc in Hd as [Hd H17].
  (* create *)
  pose proof (create_capacity_spec fuel 8) as Hcc. unfold THash.create.
  destruct (create_capacity fuel 8) as [t0| | |]; try done; [|lia].
  destruct Hcc as (N & HN & -> & HNc).
  assert (N = 32) as -> by (rewrite HNc by lia; reflexivity).
  destruct (empty_table_ok 32 HN) as [Hok0 Hst0].
  set (t0 := Table (replicate (Z.to_nat 32) zero_entry) 32 0) in *.
  (* the first 16 keys *)
  destruct (put_each_fresh fuel kvs t0 Hok0 Hd)
    as (t16 & E16 & Hok16 & Hn16 & Hsz16 & Hst16).
  { intros k v _. apply absent_stored. intros x y Hs. now apply Hst0 in Hs. }
  { rewrite Hlen. cbn. lia. }
  { cbn. lia. }
  rewrite Hlen in Hsz16. cbn in Hn16, Hsz16.
  (* the 17th key *)
  destruct (put_returns t16 k17 v17 fuel Hok16 ltac:(lia) ltac:(lia))
    as (t17 & r & E17 & Hok17 & Hst17 & Hr & Hsame & Hgrow).
  assert (absent t16 k17) as Habs.
  { apply absent_stored. intros x y Hs.
    apply Hst16 in Hs as [Hs|Hin]; [now apply Hst0 in Hs|].
    apply keq_false_sym, H17, list_elem_of_fmap. by exists (x, y). }
  destruct r as [[k0 v0]|].
  { destruct Hr as (Hs0 & Hk0 & _). rewrite absent_stored in Habs.
    rewrite (Habs _ _ Hs0) in Hk0. discriminate. }
  destruct Hr as [_ Hsz17].
  assert (nentries t17 = 128) as Hn17.
  { rewrite Hgrow by (done || lia). rewrite Hsz16. reflexivity. }
  exists t0, t16, t17.
  refine (conj eq_refl (conj eq_refl (conj eq_refl (conj E16 (conj Hn16
            (conj Hsz16 (conj E17 (conj _ (conj Hn17 _))))))))); [lia|].
  intros k v Hin.
  apply (get_stored t17 k k v Hok17);
    [|apply (keq_refl _ _ Hcontract)|rewrite Hn17; lia].
  apply Hst17. apply elem_of_app in Hin as [Hin|Hin].
  - right. split; [apply Hst16; by right|].
    apply keq_false_sym, H17, list_elem_of_fmap. by exists (k, v).
  - apply list_elem_of_singleton in Hin as [= -> ->]. by left.
Qed.

(** ** Further properties of the header *)

(** *** What [get] finds *)

Lemma stored_unique (t : table) k1 v1 k2 v2 :
  table_ok t = true → stored t k1 v1 → stored t k2 v2 →
  TKEYEQUAL k1 k2 = true → k1 = k2 ∧ v1 = v2.
Proof.
  intros Hok (i & Hi & Hvi & <- & <-) (j & Hj & Hvj & <- & <-) Hk.
  destruct (table_ok_facts t Hok) as (Hsound & _).
  apply sound_spec in Hsound as (_ & _ & _ & Hnd). rewrite nodup_spec in Hnd.
  now rewrite (Hnd i j Hi Hj Hvi Hvj Hk).
Qed.

Lemma get_total (t : table) k :
  table_ok t = true →
  ∃ r,
    Yields (fun fuel => get fuel t k) (Z.to_nat (nentries t) - 1) r
    ∧ match r with
      | Some v => ∃ k', stored t k' v ∧ TKEYEQUAL k k' = true
      | None => absent t k
      end.
Proof.
  intros Hok.
  destruct (table_ok_facts t Hok) as (Hsound & Ht & Hnr & _ & _ & Hcnt).
  pose proof (home_range (nentries t) k (shaped_cap t Ht)) as Hh.
  destruct (probe_stops t k _ Ht Hcnt Hh) as (p & Hfs).
  destruct (valid (ent (entries t) p)) eqn:Hv.
  - pose proof (first_stop_hit _ _ _ _ _ Hfs Hv) as Hk.
    exists (Some (value (ent (entries t) p))). split.
    + now apply get_at; [|apply Hfs|..].
    + exists (key (ent (entries t) p)). split; [|done].
      apply stored_at; [apply Hfs|done].
  - pose proof (sound_absent t k p Hsound Hfs Hv) as Habs.
    exists None. split; [|done]. now apply get_absent.
Qed.

(** Two tables at rest with the same stored pairs answer every [get]
    alike. *)
Lemma get_same_content (t t' : table) k f f' :
  table_ok t = true → table_ok t' = true →
  (∀ x y, stored t' x y ↔ stored t x y) →
  (Z.to_nat (nentries t) ≤ f)%nat → (Z.to_nat (nentries t') ≤ f')%nat →
  get f' t' k = get f t k.
Proof.
  intros Hok Hok' Hst Hf Hf'.
  destruct (table_ok_facts t Hok) as (_ & _ & Hnr & _).
  destruct (table_ok_facts t' Hok') as (_ & Ht' & Hnr' & _ & _ & Hcnt').
  destruct (get_total t k Hok) as (r & HY & Hr).
  rewrite (proj2 (HY f)) by lia.
  destruct r as [v|].
  - destruct Hr as (k' & Hs & Hk). apply (get_stored t' k k' v Hok'); [|done|lia].
    now apply Hst.
  - apply (get_absent t' k Ht' Hcnt'); [|lia].
    apply absent_stored. intros x y Hs. apply Hst in Hs.
    rewrite absent_stored in Hr. now apply (Hr x y).
Qed.

(** X1: on a table at rest [get k] returns once the budget reaches the
    capacity; it reports the value [v] exactly when a stored pair has a
    key equal to [k] and the value [v], and not-found exactly when no
    stored key equals [k]; a table at rest holds at most one pair per
    key, so the value is the only one. *)
Theorem get_finds_exactly_stored (t : table) k :
  table_ok t = true →
  ∃ r,
    (∀ fuel, (Z.to_nat (nentries t) ≤ fuel)%nat → get fuel t k = Done r)
    ∧ (∀ fuel, get fuel t k = Done r ∨ get fuel t k = OutOfFuel)
    ∧ (∀ v, r = Some v ↔ ∃ k', stored t k' v ∧ TKEYEQUAL k k' = true)
    ∧ (r = None ↔ absent t k).
Proof.
  intros Hok. destruct (table_ok_facts t Hok) as (_ & _ & Hnr & _).
  destruct (get_total t k Hok) as (r & HY & Hr). exists r.
  refine (conj _ (conj (fun fuel => proj1 (HY fuel)) (conj _ _))).
  - intros fuel Hfuel. apply HY. lia.
  - intros v. split.
    + intros ->. exact Hr.
    + intros (k' & Hs & Hk).
      pose proof (get_stored t k k' v Hok Hs Hk (Z.to_nat (nentries t))) as [_ E].
      symmetry. apply (Yields_Done _ _ _ _ _ HY (E ltac:(lia))).
  - split.
    + intros ->. exact Hr.
    + intros Habs. destruct r as [v|]; [|done].
      destruct Hr as (k' & Hs & Hk). rewrite absent_stored in Habs.
      rewrite (Habs _ _ Hs) in Hk. discriminate.
Qed.

(** X2: on a table at rest [get_volatile k] and [get k] stop at
    the same slot: either both report not-found and no stored key equals
    [k], or [get_volatile] hands out the index of a valid slot whose key
    equals [k] and [get] returns the value of that slot. *)
Theorem get_volatile_points_at_get (t : table) k :
  table_ok t = true →
  ∃ ri rv,
    (∀ fuel, (Z.to_nat (nentries t) ≤ fuel)%nat →
       get_volatile fuel t k = Done ri ∧ get fuel t k = Done rv)
    ∧ (∀ fuel, get_volatile fuel t k = Done ri
               ∨ get_volatile fuel t k = OutOfFuel)
    ∧ match ri, rv with
      | Some i, Some v =>
          0 ≤ i < nentries t ∧ valid (ent (entries t) i) = true
          ∧ TKEYEQUAL k (key (ent (entries t) i)) = true
          ∧ value (ent (entries t) i) = v
      | None, None => absent t k
      | _, _ => False
      end.
Proof.
  intros Hok.
  destruct (table_ok_facts t Hok) as (Hsound & Ht & Hnr & _ & _ & Hcnt).
  pose proof (home_range (nentries t) k (shaped_cap t Ht)) as Hh.
  destruct (probe_stops t k _ Ht Hcnt Hh) as (p & Hfs).
  pose proof (scan_first_stop t k _ p Ht Hh Hfs) as HY.
  rewrite <- first_idx_home in HY by done.
  unfold THash.get_volatile, THash.get.
  unfold THash.leave in HY.
  destruct (valid (ent (entries t) p)) eqn:Hv.
  - exists (Some p), (Some (value (ent (entries t) p))).
    refine (conj _ (conj _ _)).
    + intros fuel Hfuel. rewrite (proj2 (HY fuel)) by lia. done.
    + intros fuel. destruct (HY fuel) as [[E|E] _]; rewrite E; [by left|by right].
    + refine (conj (proj1 Hfs) (conj Hv (conj _ eq_refl))).
      now apply (first_stop_hit _ _ _ _ _ Hfs).
  - exists None, None. refine (conj _ (conj _ _)).
    + intros fuel Hfuel. rewrite (proj2 (HY fuel)) by lia. done.
    + intros fuel. destruct (HY fuel) as [[E|E] _]; rewrite E; [by left|by right].
    + now apply (sound_absent t k p).
Qed.

(** *** [create_capacity] *)

Lemma create_capacity_in_range c :
  - 2 ^ 29 ≤ c → 4 * c ≤ 2 ^ 30 →
  cap_ok (growth_target c) = true
  ∧ ∀ fuel, (27 < fuel)%nat →
      create_capacity fuel c
      = Done (Table (replicate (Z.to_nat (growth_target c)) zero_entry)
                    (growth_target c) 0).
Proof.
  intros Hlo Hhi.
  assert (∀ fuel, (27 < fuel)%nat →
            ∃ N, cap_ok N = true ∧ N = growth_target c
                 ∧ create_capacity fuel c
                   = Done (Table (replicate (Z.to_nat N) zero_entry) N 0))
    as Hcc.
  { intros fuel Hfuel. pose proof (create_capacity_spec fuel c) as Hcc.
    destruct (create_capacity fuel c) as [t| | |]; try done; [|lia].
    destruct Hcc as (N & HN & -> & HNc). exists N. auto. }
  split.
  - destruct (Hcc 28%nat ltac:(lia)) as (N & HN & -> & _). done.
  - intros fuel Hfuel. destruct (Hcc fuel Hfuel) as (N & _ & -> & E). done.
Qed.

Lemma put_each_room fuel :
  ∀ (kvs : list (K * V)) (t : table),
    table_ok t = true →
    2 * (size t + Z.of_nat (length kvs)) ≤ nentries t →
    (Z.to_nat (nentries t) < fuel)%nat →
    ∃ t', put_each fuel t kvs = Done t' ∧ table_ok t' = true
          ∧ nentries t' = nentries t
          ∧ size t ≤ size t' ≤ size t + Z.of_nat (length kvs).
Proof.
  induction kvs as [|[k v] kvs IH]; intros t Hok Hroom Hfuel.
  - exists t. cbn. repeat split; try done; lia.
  - cbn [length] in Hroom.
    destruct (put_returns_room t k v fuel Hok ltac:(lia) Hfuel) as [[t1 r] E].
    pose proof (put_safe fuel t k v Hok) as Hsafe. rewrite E in Hsafe.
    destruct Hsafe as (Hok1 & _ & Hr & Hsame & _).
    assert (nentries t1 = nentries t) as Hn1 by (apply Hsame; right; lia).
    assert (size t ≤ size t1 ≤ size t + 1) as Hs1.
    { destruct r as [[k0 v0]|]; [destruct Hr as (_ & _ & ->)|destruct Hr as [_ ->]];
        lia. }
    destruct (IH t1 Hok1 ltac:(lia) ltac:(lia)) as (t' & E' & Hok' & Hn' & Hsz').
    exists t'. cbn [THash.put_each length]. rewrite E. cbn [bind fst].
    refine (conj E' (conj Hok' (conj _ _))); lia.
Qed.

(** X3: for a hint whose fourfold fits [int], [create_capacity]
    returns, above a budget of 27, an empty table: its capacity is the
    smallest power of two that is at least four times the hint and at
    least 8, its size is 0, no slot is valid, every [get] reports
    not-found, and a pass of the iterator returns no entry. *)
Theorem create_capacity_empty c :
  - 2 ^ 29 ≤ c → 4 * c ≤ 2 ^ 30 →
  ∃ t : table,
    (∀ fuel, (27 < fuel)%nat → create_capacity fuel c = Done t)
    ∧ nentries t = growth_target c ∧ size t = 0
    ∧ ((∃ j, 0 ≤ j ∧ nentries t = 2 ^ j)
       ∧ 4 * c ≤ nentries t ∧ 8 ≤ nentries t
       ∧ ∀ j, 0 ≤ j → 4 * c ≤ 2 ^ j → 8 ≤ 2 ^ j → nentries t ≤ 2 ^ j)
    ∧ table_ok t = true
    ∧ (∀ i, valid (ent (entries t) i) = false)
    ∧ (∀ k fuel, (Z.to_nat (nentries t) ≤ fuel)%nat →
         get fuel t k = Done None)
    ∧ visits t = [].
Proof.
  intros Hlo Hhi. destruct (create_capacity_in_range c Hlo Hhi) as [HN Hcc].
  destruct (empty_table_ok _ HN) as [Hok Hst].
  set (t := Table (replicate (Z.to_nat (growth_target c)) zero_entry)
              (growth_target c) 0) in *.
  destruct (table_ok_facts t Hok) as (_ & Ht & Hnr & _ & _ & Hcnt).
  assert (∀ i, valid (ent (entries t) i) = false) as Hvac.
  { intros i. cbn. now rewrite ent_replicate. }
  exists t.
  refine (conj Hcc (conj eq_refl (conj eq_refl (conj _ (conj Hok
            (conj Hvac (conj _ _))))))).
  - apply growth_target_smallest.
  - intros k fuel Hfuel. apply (get_absent t k Ht Hcnt); [|lia].
    intros i _ Hv. now rewrite Hvac in Hv.
  - unfold THash.visits.
    assert (∀ l, List.filter (fun j => valid (ent (entries t) j)) l = []) as ->;
      [|done].
    induction l as [|j l IH]; cbn [List.filter]; [done|]. now rewrite Hvac.
Qed.

(** X4: the table that [create_capacity c] returns takes a sequence of
    puts of up to twice [c] pairs, whatever their keys, without a rehash:
    the capacity stays what [create_capacity] chose.  (The source says of
    the hint: enough room so that size can grow to it without
    rehashing.) *)
Theorem create_capacity_leaves_room c (kvs : list (K * V)) fuel :
  - 2 ^ 29 ≤ c → 4 * c ≤ 2 ^ 30 →
  Z.of_nat (length kvs) ≤ 2 * c →
  (Z.to_nat (growth_target c) + 27 < fuel)%nat →
  ∃ t0 t',
    create_capacity fuel c = Done t0
    ∧ put_each fuel t0 kvs = Done t'
    ∧ nentries t' = nentries t0 ∧ nentries t0 = growth_target c
    ∧ size t' ≤ Z.of_nat (length kvs)
    ∧ table_ok t' = true.
Proof.
  intros Hlo Hhi Hlen Hfuel.
  destruct (create_capacity_in_range c Hlo Hhi) as [HN Hcc].
  destruct (empty_table_ok _ HN) as [Hok _].
  pose proof (growth_target_ge c) as [H4 H8].
  set (t0 := Table (replicate (Z.to_nat (growth_target c)) zero_entry)
               (growth_target c) 0) in *.
  destruct (put_each_room fuel kvs t0 Hok) as (t' & E & Hok' & Hn' & Hsz');
    [cbn; lia|cbn; lia|].
  exists t0, t'. rewrite Hcc by lia.
  refine (conj eq_refl (conj E (conj Hn' (conj eq_refl (conj _ Hok'))))).
  cbn in Hsz'. lia.
Qed.

(** *** [clear] *)

(** X5: [clear] asks only that the slot array has [nentries] slots
    and [nentries] is a capacity; whatever the slots and the size were,
    it returns a table at rest of the same capacity and size 0 in which
    no slot is valid and every [get] reports not-found. *)
Theorem clear_forgets_everything (t : table) :
  shaped t = true →
  ∃ t', clear t = Done t'
        ∧ nentries t' = nentries t ∧ size t' = 0
        ∧ table_ok t' = true
        ∧ (∀ i, valid (ent (entries t') i) = false)
        ∧ (∀ k fuel, (Z.to_nat (nentries t') ≤ fuel)%nat →
             get fuel t' k = Done None).
Proof.
  intros Ht. destruct (clear_spec t Ht) as (t' & E & Hok' & Hn' & Hsz' & Hst').
  destruct (table_ok_facts t' Hok') as (_ & Ht' & Hnr' & _ & _ & Hcnt').
  assert (∀ i, valid (ent (entries t') i) = false) as Hvac.
  { intros i. destruct (valid (ent (entries t') i)) eqn:Hv; [|done].
    exfalso. pose proof (valid_ent_range _ _ Hv) as Hr.
    rewrite (shaped_len t' Ht') in Hr.
    apply (Hst' _ _ (stored_at t' i Hr Hv)). }
  exists t'. refine (conj E (conj Hn' (conj Hsz' (conj Hok' (conj Hvac _))))).
  intros k fuel Hfuel. apply (get_absent t' k Ht' Hcnt'); [|lia].
  intros i _ Hv. now rewrite Hvac in Hv.
Qed.

(** *** [copy] *)

Lemma copy_mono_le (t : table) r (f f' : nat) :
  (f ≤ f')%nat → copy f t = Done r → copy f' t = Done r.
Proof.
  induction 1 as [|f' _ IH]; [done|]. intros E. specialize (IH E).
  unfold THash.copy in IH |- *.
  destruct (create_capacity f' (size t)) as [nh| | |] eqn:Ec; try done.
  rewrite (create_capacity_mono _ _ _ Ec). cbn [bind] in IH |- *.
  apply (for_valid_mono _ _ _ (put_new_mono _ _ (put_mono f')) _ _ _ IH).
Qed.

(** X6: for a table at rest of capacity at most [2 ^ 29], [copy]
    returns, with one result for every budget, a table at rest with the
    same stored pairs and the same size, whose capacity is the growth
    target of the size (so it may differ from the capacity of the
    source); every [get] answers on the copy what it answers on the
    source. *)
Theorem copy_same_content (t : table) :
  table_ok t = true → nentries t ≤ 2 ^ 29 →
  ∃ t',
    (∀ fuel, (Z.to_nat (2 * nentries t) + 28 < fuel)%nat →
       copy fuel t = Done t')
    ∧ (∀ fuel t'', copy fuel t = Done t'' → t'' = t')
    ∧ table_ok t' = true
    ∧ size t' = size t ∧ nentries t' = growth_target (size t)
    ∧ (∀ x y, stored t' x y ↔ stored t x y)
    ∧ (∀ k f f', (Z.to_nat (nentries t) ≤ f)%nat →
         (Z.to_nat (nentries t') ≤ f')%nat → get f' t' k = get f t k).
Proof.
  intros Hok H29. set (B := (Z.to_nat (2 * nentries t) + 29)%nat).
  destruct (copy_returns t B Hok H29 ltac:(lia)) as [t' E].
  pose proof (copy_safe B t Hok) as Hsafe. rewrite E in Hsafe.
  destruct Hsafe as (Hok' & Hst' & Hsz' & Hn').
  exists t'.
  refine (conj _ (conj _ (conj Hok' (conj Hsz' (conj (Hn' H29) (conj Hst' _)))))).
  - intros fuel Hfuel. apply (copy_mono_le t t' B fuel); [lia|done].
  - intros fuel t'' E''.
    apply (copy_mono_le t t'' fuel (fuel + B)) in E''; [|lia].
    apply (copy_mono_le t t' B (fuel + B)) in E; [|lia]. congruence.
  - intros k f f' Hf Hf'. now apply get_same_content.
Qed.

(** *** [put] and the pairs already there *)

(** X7: on a table at rest whose growth stays within [int], [put k v]
    returns 0 (here [None]) exactly when no stored key equals [k], and
    then the size grows by one; else it returns 1 (here the old pair)
    and the size stays.  The capacity
    never shrinks.  Every stored pair whose key differs from [k] is still
    found with its value, rehash or not, and a key that was absent and
    differs from [k] is still absent. *)
Theorem put_keeps_the_others (t : table) k v :
  table_ok t = true → nentries t ≤ 2 ^ 28 →
  ∃ t' r,
    (∀ fuel, (Z.to_nat (4 * nentries t) + 1 < fuel)%nat →
       put fuel t k v = Done (t', r))
    ∧ table_ok t' = true
    ∧ (r = None ↔ absent t k)
    ∧ size t' = size t + match r with Some _ => 0 | None => 1 end
    ∧ nentries t ≤ nentries t'
    ∧ (∀ k' v' k'' fuel,
         stored t k' v' → TKEYEQUAL k k' = false → TKEYEQUAL k'' k' = true →
         (Z.to_nat (nentries t') ≤ fuel)%nat →
         get fuel t' k'' = Done (Some v'))
    ∧ (∀ k'' fuel,
         absent t k'' → TKEYEQUAL k'' k = false →
         (Z.to_nat (nentries t') ≤ fuel)%nat →
         get fuel t' k'' = Done None).
Proof.
  intros Hok H28.
  destruct (put_total t k v Hok H28)
    as (t' & r & Hret & _ & Hok' & Hst' & Hr & Hsame & Hgrow).
  destruct (table_ok_facts t Hok) as (_ & _ & Hnr & Hs0 & Hload & _).
  destruct (table_ok_facts t' Hok') as (_ & Ht' & Hnr' & _ & _ & Hcnt').
  exists t', r.
  refine (conj Hret (conj Hok' (conj _ (conj _ (conj _ (conj _ _)))))).
  - destruct r as [[k0 v0]|]; [|tauto]. split; [done|]. intros Habs.
    destruct Hr as (Hs & Hk & _). rewrite absent_stored in Habs.
    rewrite (Habs _ _ Hs) in Hk. discriminate.
  - destruct r as [[k0 v0]|]; [destruct Hr as (_ & _ & ->)|destruct Hr as [_ ->]];
      lia.
  - destruct r as [kv|]; [rewrite Hsame; [lia|by left]|].
    destruct (Z.le_gt_cases (2 * (size t + 1)) (nentries t)) as [Hroom|Htrig].
    + rewrite Hsame; [lia|by right].
    + rewrite Hgrow by (done || lia).
      pose proof (growth_target_ge (size t + 1 + 1)). lia.
  - intros k' v' k'' fuel Hs Hne Heq Hfuel.
    apply (get_stored t' k'' k' v' Hok'); [|done|lia].
    apply Hst'. by right.
  - intros k'' fuel Habs Hne Hfuel.
    apply (get_absent t' k'' Ht' Hcnt'); [|lia].
    apply absent_stored. intros x y Hs.
    apply Hst' in Hs as [[-> ->]|[Hs _]]; [done|].
    rewrite absent_stored in Habs. now apply (Habs x y).
Qed.

(** *** [iterator_remove] *)

Lemma iterator_next_entry fuel (t : table) (iter iter' : iterator) kv :
  iterator_next fuel t iter = Done (iter', Some kv) →
  valid (ent (entries t) (last_entry iter')) = true
  ∧ kv = (key (ent (entries t) (last_entry iter')),
          value (ent (entries t) (last_entry iter'))).
Proof.
  revert iter. induction fuel as [|fuel IH]; intros iter; [done|].
  cbn [THash.iterator_next].
  destruct (nentries t <=? wrap (last_entry iter + 1)); [done|].
  cbn [last_entry]. unfold THash.ent.
  destruct (slot (entries t) (wrap (last_entry iter + 1))) as [e|] eqn:E;
    [|done].
  destruct (valid e) eqn:Hv; [|apply IH].
  intros [= <- <-]. cbn [last_entry]. now rewrite E.
Qed.

(** X8: after [iterator_next] returned the pair [(k, v)],
    [iterator_remove] returns a table at rest of the same capacity and
    one entry less, in which [get k] reports not-found and every other
    stored pair is still found with its value. *)
Theorem iterator_remove_removes_current fuel (t : table)
    (iter iter' : iterator) k v :
  table_ok t = true →
  iterator_next fuel t iter = Done (iter', Some (k, v)) →
  stored t k v
  ∧ ∃ t',
      (∀ fuel', (2 * Z.to_nat (nentries t) < fuel')%nat →
         iterator_remove fuel' t iter' = Done t')
      ∧ table_ok t' = true
      ∧ nentries t' = nentries t ∧ size t' = size t - 1
      ∧ (∀ fuel', (Z.to_nat (nentries t) ≤ fuel')%nat →
           get fuel' t' k = Done None)
      ∧ (∀ k' v' k'' fuel',
           stored t k' v' → TKEYEQUAL k k' = false →
           TKEYEQUAL k'' k' = true →
           (Z.to_nat (nentries t) ≤ fuel')%nat →
           get fuel' t' k'' = Done (Some v')).
Proof.
  intros Hok Enext.
  destruct (iterator_next_entry _ _ _ _ _ Enext) as [Hv [= Hk Hy]].
  destruct (table_ok_facts t Hok) as (_ & Ht & _).
  pose proof (valid_ent_range _ _ Hv) as Hr. rewrite (shaped_len t Ht) in Hr.
  destruct (iterator_remove_at t iter' Hok Hr Hv)
    as (t' & HY & Hok' & Hn' & Hsz' & Hst').
  rewrite <- Hk in Hst'.
  destruct (table_ok_facts t' Hok') as (_ & Ht' & Hnr' & _ & _ & Hcnt').
  split; [subst k v; now apply stored_at|].
  exists t'.
  refine (conj _ (conj Hok' (conj Hn' (conj Hsz' (conj _ _))))).
  - intros fuel' Hfuel. now apply HY.
  - intros fuel' Hfuel. apply (get_absent t' k Ht' Hcnt'); [|lia].
    apply absent_stored. intros x y Hs. now apply Hst' in Hs.
  - intros k' v' k'' fuel' Hs Hne Heq Hfuel.
    apply (get_stored t' k'' k' v' Hok'); [|done|lia]. now apply Hst'.
Qed.

(** *** [size] and a pass of the iterator *)

Lemma length_visits (t : table) :
  Z.of_nat (length (entries t)) = nentries t →
  Z.of_nat (length (visits t)) = count_valid (entries t).
Proof.
  intros Hlen. unfold THash.visits. rewrite length_fmap, <- Hlen.
  apply count_at_indices.
Qed.

(** X9: in every table that the operations build, [size] is the
    number of valid slots, and a pass of the iterator from
    [iterator_init] returns exactly [size] entries, which are exactly the
    stored pairs. *)
Theorem size_counts_entries (t : table) calls fuel :
  reachable t →
  (Z.to_nat (nentries t) < fuel)%nat → (Z.to_nat (nentries t) < calls)%nat →
  size t = count_valid (entries t)
  ∧ ∃ l it,
      iterate calls fuel t iterator_init = Done (l, it)
      ∧ Z.of_nat (length l) = size t
      ∧ ∀ k v, stored t k v ↔ ∃ j, (j, k, v) ∈ l.
Proof.
  intros Hreach Hfuel Hcalls. pose proof (reachable_ok t Hreach) as Hok.
  destruct (table_ok_facts t Hok) as (Hsound & Ht & Hnr & _).
  apply sound_spec in Hsound as (_ & Hsz & _).
  pose proof (shaped_len t Ht) as Hlen.
  split; [done|]. exists (visits t), (Iterator (nentries t - 1)).
  refine (conj _ (conj _ _)).
  - unfold iterator_init, THash.visits. rewrite indices_seqZ.
    rewrite (iterate_from t Hlen ltac:(lia) (Z.to_nat (nentries t)) (-1))
      by lia.
    rewrite Z2Nat.id by lia. done.
  - rewrite length_visits by done. now symmetry.
  - intros k v. split.
    + intros (j & Hj & Hv & <- & <-). exists j. now apply elem_of_visits.
    + intros (j & Hin). apply elem_of_visits in Hin as (Hj & Hv & -> & ->).
      now apply stored_at.
Qed.

(** *** [remove] undoes an insert *)

(** X10: putting a key that is not stored and removing it again
    leaves a table at rest of the old size that answers every [get] as
    the table before the two calls did; [remove] returns the pair that
    was put. *)
Theorem put_then_remove_restores (t : table) k v :
  table_ok t = true → nentries t ≤ 2 ^ 28 → absent t k →
  ∃ t1 t2,
    (∀ fuel, (Z.to_nat (4 * nentries t) + 1 < fuel)%nat →
       put fuel t k v = Done (t1, None))
    ∧ (∀ fuel, (2 * Z.to_nat (nentries t1) < fuel)%nat →
         remove fuel t1 k = Done (t2, Some (k, v)))
    ∧ table_ok t2 = true ∧ size t2 = size t
    ∧ (∀ x y, stored t2 x y ↔ stored t x y)
    ∧ (∀ k' f f', (Z.to_nat (nentries t) ≤ f)%nat →
         (Z.to_nat (nentries t2) ≤ f')%nat → get f' t2 k' = get f t k').
Proof.
  intros Hok H28 Habs.
  destruct (put_total t k v Hok H28)
    as (t1 & r & Hret & _ & Hok1 & Hst1 & Hr & _).
  destruct r as [[k0 v0]|].
  { destruct Hr as (Hs & Hk & _). rewrite absent_stored in Habs.
    rewrite (Habs _ _ Hs) in Hk. discriminate. }
  destruct Hr as [_ Hsz1].
  assert (stored t1 k v) as Hkv by (apply Hst1; by left).
  destruct (remove_stored t1 k k v Hok1 Hkv (keq_refl _ _ Hcontract k))
    as (t2 & HY & Hok2 & Hn2 & Hsz2 & Hst2).
  assert (∀ x y, stored t2 x y ↔ stored t x y) as Hst.
  { intros x y. rewrite Hst2, Hst1. split.
    - intros [[[-> ->]|[Hs _]] Hne]; [|done].
      rewrite (keq_refl _ _ Hcontract) in Hne. discriminate.
    - intros Hs. rewrite absent_stored in Habs. pose proof (Habs x y Hs).
      split; [right|]; done. }
  exists t1, t2.
  refine (conj Hret (conj _ (conj Hok2 (conj _ (conj Hst _))))).
  - intros fuel Hfuel. now apply HY.
  - lia.
  - intros k' f f' Hf Hf'. now apply get_same_content.
Qed.

(** *** A sequence of calls against the association list *)

Lemma elem_of_model_without k (m : list (K * V)) x y :
  (x, y) ∈ model_without k m ↔ (x, y) ∈ m ∧ TKEYEQUAL k x = false.
Proof.
  unfold THash.model_without.
  rewrite !list_elem_of_In, filter_In, negb_true_iff. done.
Qed.

Lemma NoDup_model_without k (m : list (K * V)) :
  NoDup m → NoDup (model_without k m).
Proof.
  induction 1 as [|[x y] m Hx Hnd IH]; [constructor|].
  unfold THash.model_without. cbn [List.filter fst].
  destruct (negb (TKEYEQUAL k x)); [|done].
  apply NoDup_cons. split; [|done].
  intros [Hin _]%elem_of_model_without. done.
Qed.

Lemma filter_all {A : Type} (P : A → bool) (l : list A) :
  (∀ b, b ∈ l → P b = true) → List.filter P l = l.
Proof.
  induction l as [|b l IH]; intros Hall; cbn [List.filter]; [done|].
  rewrite (Hall b) by left. f_equal. apply IH. intros c Hc. apply Hall.
  now right.
Qed.

Lemma length_filter_one {A : Type} (P : A → bool) (a : A) (l : list A) :
  NoDup l → a ∈ l → (∀ b, b ∈ l → P b = false ↔ b = a) →
  S (length (List.filter P l)) = length l.
Proof.
  induction l as [|b l IH]; intros Hnd Ha Hone.
  - by apply elem_of_nil in Ha.
  - apply NoDup_cons in Hnd as [Hb Hnd]. cbn [List.filter].
    destruct (P b) eqn:Pb.
    + assert (b ≠ a) as Hba.
      { intros Hba. apply (Hone b) in Hba; [congruence|by left]. }
      apply elem_of_cons in Ha as [->|Ha]; [done|].
      cbn [length]. f_equal. apply IH; [done..|].
      intros c Hc. apply Hone. now right.
    + assert (b = a) as -> by (apply Hone; [by left|done]).
      rewrite filter_all; [done|]. intros c Hc.
      destruct (P c) eqn:Pc; [done|].
      apply Hone in Pc; [|by right]. congruence.
Qed.

Lemma model_get_some k (m : list (K * V)) y :
  model_get k m = Some y → ∃ x, (x, y) ∈ m ∧ TKEYEQUAL k x = true.
Proof.
  induction m as [|[x0 y0] m IH]; cbn [THash.model_get]; [done|].
  destruct (TKEYEQUAL k x0) eqn:Ek.
  - intros [= ->]. exists x0. split; [by left|done].
  - intros (x & Hin & Hk)%IH. exists x. split; [by right|done].
Qed.

Lemma model_get_none k (m : list (K * V)) :
  model_get k m = None → ∀ x y, (x, y) ∈ m → TKEYEQUAL k x = false.
Proof.
  induction m as [|[x0 y0] m IH]; cbn [THash.model_get]; intros Hg x y Hin.
  - by apply elem_of_nil in Hin.
  - destruct (TKEYEQUAL k x0) eqn:Ek; [done|].
    apply elem_of_cons in Hin as [[= -> ->]|Hin]; [done|]. by eapply IH.
Qed.

Lemma agrees_get (t : table) m k fuel :
  table_ok t = true → agrees t m → (Z.to_nat (nentries t) ≤ fuel)%nat →
  get fuel t k = Done (model_get k m).
Proof.
  intros Hok (_ & Hst & _) Hfuel.
  destruct (table_ok_facts t Hok) as (_ & Ht & Hnr & _ & _ & Hcnt).
  destruct (model_get k m) as [y|] eqn:Eg.
  - apply model_get_some in Eg as (x & Hin & Hk).
    apply (get_stored t k x y Hok); [by apply Hst|done|lia].
  - apply (get_absent t k Ht Hcnt); [|lia]. apply absent_stored.
    intros x y Hs. apply (model_get_none _ _ Eg x y). by apply Hst.
Qed.

Lemma agrees_without_absent (t : table) m k :
  agrees t m → absent t k → model_without k m = m.
Proof.
  intros (_ & Hst & _) Habs. apply filter_all. intros [x y] Hin.
  apply negb_true_iff. rewrite absent_stored in Habs.
  apply (Habs x y). by apply Hst.
Qed.

Lemma agrees_without_stored (t : table) m k k0 v0 :
  table_ok t = true → agrees t m → stored t k0 v0 →
  TKEYEQUAL k k0 = true →
  NoDup (model_without k m)
  ∧ Z.of_nat (length (model_without k m)) = size t - 1.
Proof.
  intros Hok (Hnd & Hst & Hsz) Hs Hk. split.
  - by apply NoDup_model_without.
  - rewrite Hsz. unfold THash.model_without.
    rewrite <- (length_filter_one (fun p => negb (TKEYEQUAL k (fst p)))
                  (k0, v0) m Hnd); [lia|by apply Hst|].
    intros [x y] Hin. cbn [fst]. rewrite negb_false_iff. split.
    + intros Hkx. apply Hst in Hin.
      destruct (stored_unique t x y k0 v0 Hok Hin Hs) as [-> ->]; [|done].
      apply (keq_trans _ _ Hcontract x k k0); [|done].
      by apply (keq_sym _ _ Hcontract).
    + by intros [= -> ->].
Qed.

Lemma agrees_put (t : table) m k v t' r :
  table_ok t = true → agrees t m → put_post t k v t' r →
  agrees t' ((k, v) :: model_without k m).
Proof.
  intros Hok Hag (_ & Hst' & Hr & _).
  assert ((k, v) ∉ model_without k m) as Hfresh.
  { intros [_ Hk]%elem_of_model_without.
    rewrite (keq_refl _ _ Hcontract) in Hk. discriminate. }
  assert (∀ x y, stored t' x y ↔ (x, y) ∈ (k, v) :: model_without k m)
    as Hst.
  { intros x y. rewrite Hst', elem_of_cons, elem_of_model_without.
    destruct Hag as (_ & Hst & _). rewrite Hst. split.
    - intros [[-> ->]|H]; [by left|by right].
    - intros [[= -> ->]|H]; [left|right]; done. }
  destruct r as [[k0 v0]|].
  - destruct Hr as (Hs & Hk & Hsz).
    destruct (agrees_without_stored t m k k0 v0 Hok Hag Hs Hk) as [Hnd Hlen].
    refine (conj _ (conj Hst _)); [by apply NoDup_cons|].
    cbn [length]. lia.
  - destruct Hr as [Habs Hsz].
    rewrite (agrees_without_absent t m k Hag Habs) in Hfresh, Hst |- *.
    destruct Hag as (Hnd & _ & Hlen).
    refine (conj _ (conj Hst _)); [by apply NoDup_cons|].
    cbn [length]. lia.
Qed.

Lemma growth_target_le8 c : growth_target c ≤ Z.max 8 (8 * c).
Proof.
  destruct (Z.le_gt_cases (4 * c) 8) as [Hc|Hc].
  - unfold growth_target. rewrite Z.max_r by lia. change (2 ^ Z.log2_up 8) with 8.
    lia.
  - unfold growth_target. rewrite Z.max_l by lia.
    destruct (Z.log2_up_spec (4 * c) ltac:(lia)) as [Hlo _].
    pose proof (Z.log2_up_pos (4 * c) ltac:(lia)) as Hpos.
    replace (Z.log2_up (4 * c)) with (Z.pred (Z.log2_up (4 * c)) + 1) at 1
      by lia.
    rewrite Z.pow_add_r by lia. lia.
Qed.

(** The capacity after a [put] stays below eight times the new size,
    unless it is kept. *)
Lemma put_post_capacity (t : table) k v t' r :
  table_ok t = true → nentries t ≤ 2 ^ 28 → put_post t k v t' r →
  nentries t' ≤ Z.max (nentries t) (8 * (size t + 1))
  ∧ size t' ≤ size t + 1.
Proof.
  intros Hok H28 (_ & _ & Hr & Hsame & Hgrow).
  destruct (table_ok_facts t Hok) as (_ & _ & Hnr & Hs0 & Hload & _).
  split.
  - destruct r as [[k0 v0]|].
    + rewrite Hsame; [lia|by left].
    + destruct (Z.le_gt_cases (2 * (size t + 1)) (nentries t)) as [Hroom|Htrig].
      * rewrite Hsame; [lia|by right].
      * rewrite Hgrow by (done || lia).
        rewrite (growth_target_trigger t Hok) by lia.
        pose proof (growth_target_le8 (size t + 1)). lia.
  - destruct r as [[k0 v0]|]; [destruct Hr as (_ & _ & ->)|destruct Hr as [_ ->]];
      lia.
Qed.

Lemma run_agrees fuel M :
  M ≤ 2 ^ 28 → (Z.to_nat (4 * M) + 28 < fuel)%nat →
  ∀ (ops : list op) (t : table) m,
    table_ok t = true → agrees t m → nentries t ≤ M →
    8 * (size t + Z.of_nat (length ops)) ≤ M →
    ∃ t', run fuel t ops = Done t' ∧ table_ok t' = true
          ∧ agrees t' (fold_left model_step ops m) ∧ nentries t' ≤ M.
Proof.
  intros HM Hfuel.
  induction ops as [|o ops IH]; intros t m Hok Hag Hn Hroom.
  { exists t. done. }
  cbn [length] in Hroom.
  destruct (table_ok_facts t Hok) as (_ & Ht & Hnr & Hs0 & Hload & _).
  assert (∃ t1, match o with
                | Put k v => r ⇐ put fuel t k v; Done (fst r)
                | Remove k => r ⇐ remove fuel t k; Done (fst r)
                | Clear => clear t
                | Copy => copy fuel t
                end = Done t1
                ∧ table_ok t1 = true ∧ agrees t1 (model_step m o)
                ∧ nentries t1 ≤ M ∧ size t1 ≤ size t + 1)
    as (t1 & E1 & Hok1 & Hag1 & Hn1 & Hs1).
  { destruct o as [k v|k| |]; cbn [THash.model_step].
    - destruct (put_total t k v Hok ltac:(lia)) as (t1 & r & Hret & _ & Hpost).
      destruct (put_post_capacity t k v t1 r Hok ltac:(lia) Hpost)
        as [Hcap Hsz].
      exists t1. rewrite Hret by lia. cbn [bind fst].
      refine (conj eq_refl (conj (proj1 Hpost) (conj _ (conj _ Hsz)))).
      + by eapply agrees_put.
      + lia.
    - destruct (remove_spec t k Hok) as (t1 & r & HY & Hok1 & Hn1 & Hr).
      exists t1. rewrite (proj2 (HY fuel)) by lia. cbn [bind fst].
      refine (conj eq_refl (conj Hok1 (conj _ (conj _ _)))); [|lia|].
      + destruct r as [[k0 v0]|].
        * destruct Hr as (Hs & Hk & Hsz & Hst1).
          destruct (agrees_without_stored t m k k0 v0 Hok Hag Hs Hk)
            as [Hnd Hlen].
          refine (conj Hnd (conj _ _)); [|lia].
          intros x y. rewrite Hst1, elem_of_model_without.
          destruct Hag as (_ & Hst & _). now rewrite Hst.
        * destruct Hr as [Habs ->].
          now rewrite (agrees_without_absent t m k Hag Habs).
      + destruct r as [[k0 v0]|]; [destruct Hr as (_ & _ & -> & _)
                                  |destruct Hr as [_ ->]]; lia.
    - destruct (clear_spec t Ht) as (t1 & E & Hok1 & Hn1 & Hsz1 & Hst1).
      exists t1. refine (conj E (conj Hok1 (conj _ (conj _ _)))); [|lia..].
      refine (conj (NoDup_nil_2) (conj _ Hsz1)).
      intros x y. split; [by intros ?%Hst1|by intros ?%elem_of_nil].
    - destruct (copy_returns t fuel Hok ltac:(lia) ltac:(lia)) as [t1 E].
      pose proof (copy_safe fuel t Hok) as Hsafe. rewrite E in Hsafe.
      destruct Hsafe as (Hok1 & Hst1 & Hsz1 & Hcap).
      exists t1. refine (conj E (conj Hok1 (conj _ (conj _ _)))); [| |lia].
      + destruct Hag as (Hnd & Hst & Hlen).
        refine (conj Hnd (conj _ _)); [|lia].
        intros x y. now rewrite Hst1.
      + rewrite Hcap by lia. pose proof (growth_target_le8 (size t)). lia. }
  destruct (IH t1 (model_step m o) Hok1 Hag1 Hn1 ltac:(lia))
    as (t' & E' & Hok' & Hag' & Hn').
  exists t'. cbn [THash.run fold_left]. rewrite E1. cbn [bind]. done.
Qed.

(** X11: any sequence of [put], [remove], [clear] and [copy] calls on
    the table of [create] returns, while the capacity stays within [int],
    a table at rest that stands for the association list of the
    specification after the same calls: it stores exactly the pairs of
    the list, [size] is their number, and [get] answers as the lookup in
    the list does. *)
Theorem run_refines_model (ops : list op) fuel :
  Z.of_nat (length ops) ≤ 2 ^ 24 →
  (Z.to_nat (32 * Z.of_nat (length ops)) + 200 < fuel)%nat →
  ∃ t0 t,
    create fuel = Done t0 ∧ run fuel t0 ops = Done t
    ∧ table_ok t = true
    ∧ size t = Z.of_nat (length (model ops))
    ∧ NoDup (model ops)
    ∧ (∀ k v, stored t k v ↔ (k, v) ∈ model ops)
    ∧ ∀ k f, (Z.to_nat (nentries t) ≤ f)%nat →
        get f t k = Done (model_get k (model ops)).
Proof.
  intros Hlen Hfuel.
  destruct (create_capacity_in_range 8 ltac:(lia) ltac:(lia)) as [HN Hcc].
  destruct (empty_table_ok _ HN) as [Hok0 Hst0].
  change (growth_target 8) with 32 in *.
  set (t0 := Table (replicate (Z.to_nat 32) zero_entry) 32 0) in *.
  assert (agrees t0 []) as Hag0.
  { refine (conj (NoDup_nil_2) (conj _ eq_refl)).
    intros x y. split; [by intros ?%Hst0|by intros ?%elem_of_nil]. }
  destruct (run_agrees fuel (8 * Z.of_nat (length ops) + 32) ltac:(lia)
              ltac:(lia) ops t0 [] Hok0 Hag0 ltac:(cbn; lia) ltac:(cbn; lia))
    as (t & E & Hok & Hag & Hn).
  exists t0, t. unfold THash.create. rewrite Hcc by lia.
  refine (conj eq_refl (conj E (conj Hok _))).
  pose proof Hag as (Hnd & Hst & Hsz).
  refine (conj Hsz (conj Hnd (conj Hst _))).
  intros k f Hf. by apply agrees_get.
Qed.

(** *** The entries that follow the cursor of a removal *)

(** When the [m'] slots after the cursor all hold entries that sit away
    from their home slots, [iterator_remove] moves each of them one slot
    back. *)
Lemma iterator_remove_shift (t : table) (iter : iterator) fuel t' m' :
  table_ok t = true → 0 ≤ last_entry iter < nentries t →
  valid (ent (entries t) (last_entry iter)) = true →
  (∀ x, 0 ≤ x < nentries t →
        1 ≤ cdist (nentries t) (last_entry iter) x ≤ m' →
        valid (ent (entries t) x) = true
        ∧ home (nentries t) (key (ent (entries t) x)) ≠ x) →
  iterator_remove fuel t iter = Done t' →
  ∀ x y, 0 ≤ x < nentries t → 0 ≤ y < nentries t →
         1 ≤ cdist (nentries t) (last_entry iter) y ≤ m' →
         cdist (nentries t) (last_entry iter) x
         = cdist (nentries t) (last_entry iter) y - 1 →
         ent (entries t') x = ent (entries t) y.
Proof.
  intros Hok Hi0 Hv0 Hrun. set (i0 := last_entry iter) in *.
  destruct (table_ok_facts t Hok) as (_ & Ht & Hnr & Hs0 & Hload & _).
  pose proof (shaped_cap t Ht) as Hn. pose proof (shaped_len t Ht) as Hlen.
  destruct (vacate_reput next_int t i0 (size t) next_int_mod Hok
              Hi0 Hv0 ltac:(lia) ltac:(lia))
    as (es' & HY & _ & _ & _ & _ & _ & Hland).
  specialize (Hland m' Hrun).
  unfold THash.iterator_remove. fold i0.
  rewrite ent_slot by lia. cbv zeta.
  rewrite next_int_mod; cbn [nentries]; [|rewrite <- Hn, <- Hlen|done].
  2:{ unfold shaped. cbn. now rewrite length_store, Z.eqb_refl. }
  destruct (HY fuel) as [[E'|E'] _]; rewrite E'; cbn [bind]; [|done].
  intros [= <-]. exact Hland.
Qed.

(** X12: when [iterator_next] has returned the entry of slot [i] and
    the next slot holds an entry that a collision displaced from its
    home, [iterator_remove] moves that entry into slot [i], behind the
    cursor.  The entry is still in the table, and [get] finds it, but
    the calls of [iterator_next] that follow return entries of later
    slots only, none with its key: the pass, which had not reached the
    entry before the removal, never returns it. *)
Theorem iterator_remove_skips_follower fuel (t : table)
    (iter iter' : iterator) kv :
  table_ok t = true →
  iterator_next fuel t iter = Done (iter', Some kv) →
  let i := last_entry iter' in
  let k1 := key (ent (entries t) (i + 1)) in
  let v1 := value (ent (entries t) (i + 1)) in
  i + 1 < nentries t →
  valid (ent (entries t) (i + 1)) = true →
  home (nentries t) k1 ≠ i + 1 →
  ∃ t',
    (∀ fuel', (2 * Z.to_nat (nentries t) < fuel')%nat →
       iterator_remove fuel' t iter' = Done t')
    ∧ ent (entries t') i = Entry true k1 v1
    ∧ (∀ f, (Z.to_nat (nentries t) ≤ f)%nat →
         get f t' k1 = Done (Some v1))
    ∧ ∀ calls f, (Z.to_nat (nentries t) < calls)%nat →
        (Z.to_nat (nentries t) < f)%nat →
        ∃ l it,
          iterate calls f t' iter' = Done (l, it)
          ∧ ∀ j k v, (j, k, v) ∈ l → i < j ∧ TKEYEQUAL k1 k = false.
Proof.
  intros Hok Enext i k1 v1 Hi1 Hv1 Hhome.
  pose proof (iterator_next_some _ _ _ _ _ Enext) as Hv. fold i in Hv.
  destruct (table_ok_facts t Hok) as (_ & Ht & Hnr & _).
  pose proof (valid_ent_range _ _ Hv) as Hr. rewrite (shaped_len t Ht) in Hr.
  destruct (iterator_remove_at t iter' Hok Hr Hv)
    as (t' & HY & Hok' & Hn' & _).
  assert (ent (entries t') i = Entry true k1 v1) as Hent.
  { rewrite (iterator_remove_shift t iter' (S (2 * Z.to_nat (nentries t)))
               t' 1 Hok Hr Hv) with (y := i + 1);
      [| |apply HY; lia|lia|lia|fold i; cdist_lia|fold i; cdist_lia].
    - unfold k1, v1. destruct (ent (entries t) (i + 1)) as [b x y].
      cbn in Hv1 |- *. now subst b.
    - fold i. intros x Hx Hoffx. assert (x = i + 1) as -> by cdist_lia.
      done. }
  destruct (table_ok_facts t' Hok') as (Hsound' & Ht' & _).
  apply sound_spec in Hsound' as (_ & _ & _ & Hnd').
  rewrite nodup_spec in Hnd'. pose proof (shaped_len t' Ht') as Hlen'.
  exists t'. refine (conj _ (conj Hent (conj _ _))).
  - intros fuel' Hfuel. now apply HY.
  - intros f Hf.
    apply (get_stored t' k1 k1 v1 Hok');
      [|apply (keq_refl _ _ Hcontract)|lia].
    exists i. rewrite Hent, Hn'. done.
  - intros calls f Hcalls Hf. destruct iter' as [a]. cbn [last_entry] in *.
    subst i. eexists _, _. split.
    + apply (iterate_from t' Hlen' ltac:(lia)
               (Z.to_nat (nentries t - 1 - a)) a calls f); lia.
    + intros j k v (x & [= -> -> ->] & Hin)%list_elem_of_fmap.
      apply list_elem_of_In, filter_In in Hin as [Hin Hvx].
      apply list_elem_of_In, elem_of_seqZ in Hin. split; [lia|].
      destruct (TKEYEQUAL k1 (key (ent (entries t') x))) eqn:Ek; [|done].
      exfalso. assert (a = x); [|lia].
      apply Hnd'; rewrite ?Hent, ?Hn'; try done; lia.
Qed.

(** X13: when the entries after the cursor [i] of [iterator_next] fill
    the slot array up to its end and go on in slot 0, each away from its
    home slot, [iterator_remove] moves each of them one slot back, and
    the entry of slot 0 into the last slot.  A pass over the table
    returns the entry of slot 0 at its first call, and after the
    removal at the cursor it returns the same entry again, from the last
    slot. *)
Theorem iterator_remove_returns_twice fuel (t : table)
    (iter iter' : iterator) kv :
  table_ok t = true →
  iterator_next fuel t iter = Done (iter', Some kv) →
  let i := last_entry iter' in
  let k0 := key (ent (entries t) 0) in
  let v0 := value (ent (entries t) 0) in
  0 < i → i + 1 < nentries t →
  (∀ x, i < x < nentries t ∨ x = 0 →
        valid (ent (entries t) x) = true
        ∧ home (nentries t) (key (ent (entries t) x)) ≠ x) →
  (∀ f, iterator_next (S f) t iterator_init
        = Done (Iterator 0, Some (k0, v0)))
  ∧ ∃ t',
      (∀ fuel', (2 * Z.to_nat (nentries t) < fuel')%nat →
         iterator_remove fuel' t iter' = Done t')
      ∧ ent (entries t') (nentries t - 1) = Entry true k0 v0
      ∧ ∀ calls f, (Z.to_nat (nentries t) < calls)%nat →
          (Z.to_nat (nentries t) < f)%nat →
          ∃ l it,
            iterate calls f t' iter' = Done (l, it)
            ∧ (nentries t - 1, k0, v0) ∈ l.
Proof.
  intros Hok Enext i k0 v0 Hi0 Hi1 Hrun.
  pose proof (iterator_next_some _ _ _ _ _ Enext) as Hv. fold i in Hv.
  destruct (table_ok_facts t Hok) as (_ & Ht & Hnr & _).
  pose proof (shaped_len t Ht) as Hlen.
  assert (0 ≤ i < nentries t) as Hr by lia.
  destruct (Hrun 0 ltac:(by right)) as [Hv0 _].
  split.
  { intros f. apply (iterator_next_hit t Hlen ltac:(lia) (-1) f); [lia|lia|].
    exact Hv0. }
  destruct (iterator_remove_at t iter' Hok Hr Hv)
    as (t' & HY & Hok' & Hn' & _).
  assert (ent (entries t') (nentries t - 1) = Entry true k0 v0) as Hent.
  { rewrite (iterator_remove_shift t iter' (S (2 * Z.to_nat (nentries t)))
               t' (nentries t - i) Hok Hr Hv) with (y := 0);
      [| |apply HY; lia|lia|lia|fold i; cdist_lia|fold i; cdist_lia].
    - unfold k0, v0. destruct (ent (entries t) 0) as [b x y].
      cbn in Hv0 |- *. now subst b.
    - fold i. intros x Hx Hoffx. apply Hrun.
      destruct (Z.eq_dec x 0); [by right|left]. cdist_lia. }
  destruct (table_ok_facts t' Hok') as (_ & Ht' & _).
  pose proof (shaped_len t' Ht') as Hlen'.
  exists t'. refine (conj _ (conj Hent _)).
  - intros fuel' Hfuel. now apply HY.
  - intros calls f Hcalls Hf. destruct iter' as [a]. cbn [last_entry] in *.
    subst i. eexists _, _. split.
    + apply (iterate_from t' Hlen' ltac:(lia)
               (Z.to_nat (nentries t - 1 - a)) a calls f); lia.
    + apply list_elem_of_fmap. exists (nentries t - 1).
      rewrite Hent. split; [done|].
      apply list_elem_of_In, filter_In. rewrite Hent. split; [|done].
      apply list_elem_of_In, elem_of_seqZ. lia.
Qed.

(** *** Filling a table up to the largest capacity that [int] allows *)

Lemma put_each_app fuel (l1 l2 : list (K * V)) :
  ∀ t : table,
    put_each fuel t (l1 ++ l2)
    = bind (put_each fuel t l1) (fun t1 => put_each fuel t1 l2).
Proof.
  induction l1 as [|[k v] l1 IH]; intros t; [done|].
  cbn [app THash.put_each].
  destruct (put fuel t k v) as [[t1 r]| | |]; cbn [bind fst]; [|done..].
  apply IH.
Qed.

(** When the growth trigger fires on a table at rest, the rehash makes
    four times the capacity. *)
Lemma growth_target_fourfold (t : table) :
  table_ok t = true → nentries t < 2 * (size t + 1) →
  growth_target (size t + 1 + 1) = 4 * nentries t.
Proof.
  intros Hok Htrig.
  destruct (table_ok_facts t Hok) as (_ & Ht & Hnr & Hs0 & Hload & _).
  destruct (cap_ok_pow2 _ (shaped_cap t Ht)) as (j & Hj & Ej).
  assert (2 ^ j = 2 * 2 ^ (j - 1)) as E2.
  { replace j with (j - 1 + 1) at 1 by lia. rewrite Z.pow_add_r by lia. lia. }
  assert (4 ≤ 2 ^ (j - 1)) as H4.
  { change 4 with (2 ^ 2). apply Z.pow_le_mono_r; lia. }
  assert (2 ^ (j + 1) = 4 * 2 ^ (j - 1)) as E4.
  { replace (j + 1) with (j - 1 + 2) by lia. rewrite Z.pow_add_r by lia. lia. }
  assert (2 ^ (j + 1 + 1) = 8 * 2 ^ (j - 1)) as E8.
  { replace (j + 1 + 1) with (j - 1 + 3) by lia.
    rewrite Z.pow_add_r by lia. lia. }
  rewrite (growth_target_between (size t + 1 + 1) (j + 1)) by lia.
  lia.
Qed.

End Proofs.

(** ** The claims at the integer instantiation *)

Lemma zcontract : contract zhash Z.eqb.
Proof.
  split.
  - intros a. apply Z.eqb_refl.
  - intros a b. rewrite !Z.eqb_eq. congruence.
  - intros a b c. rewrite !Z.eqb_eq. congruence.
  - intros a b. rewrite Z.eqb_eq. congruence.
Qed.

Lemma demo4_reachable : reachable zhash Z.eqb 0 0 demo4.
Proof.
  apply (reach_put zhash Z.eqb 0 0 20 demo3 2 20 demo4 None); [|reflexivity].
  apply (reach_put zhash Z.eqb 0 0 20 demo2 17 170 demo3 None); [|reflexivity].
  apply (reach_put zhash Z.eqb 0 0 20 demo1 9 90 demo2 None); [|reflexivity].
  apply (reach_put zhash Z.eqb 0 0 20 demo0 1 10 demo1 None); [|reflexivity].
  apply (reach_create zhash Z.eqb 0 0 20 0). reflexivity.
Qed.

Lemma demo4_absent k :
  k ≠ 1 → k ≠ 9 → k ≠ 17 → k ≠ 2 → absent Z.eqb 0 0 demo4 k.
Proof.
  intros H1 H9 H17 H2 i Hi Hv. change (nentries demo4) with 8 in Hi.
  assert (i = 0 ∨ i = 1 ∨ i = 2 ∨ i = 3 ∨ i = 4 ∨ i = 5 ∨ i = 6 ∨ i = 7)
    as Hcases by lia.
  repeat destruct Hcases as [->|Hcases]; try subst i;
    first [discriminate Hv|now apply Z.eqb_neq].
Qed.

Lemma remove_keeps_the_others_witness :
  ∃ t', remove zhash Z.eqb 0 0 20 demo4 9 = Done (t', Some (9, 90))
        ∧ size t' = 3
        ∧ get zhash Z.eqb 8 t' 9 = Done None
        ∧ get zhash Z.eqb 8 t' 17 = Done (Some 170).
Proof.
  destruct (remove_keeps_the_others zhash Z.eqb 0 0 zcontract demo4 9 9 90)
    as (t' & Hrem & Hok & Hsz & Hgone & Hkeep).
  - reflexivity.
  - exists 2. vm_compute. repeat split; discriminate.
  - reflexivity.
  - specialize (Hrem 20%nat ltac:(vm_compute; lia)).
    assert (nentries t' = 8) as Hn.
    { pose proof Hrem as H20. vm_compute in H20. injection H20 as <-.
      reflexivity. }
    exists t'. split; [exact Hrem|]. split; [exact Hsz|]. split.
    + apply Hgone. rewrite Hn. vm_compute. lia.
    + apply (Hkeep 17 170 17).
      * exists 3. vm_compute. repeat split; discriminate.
      * reflexivity.
      * reflexivity.
      * rewrite Hn. vm_compute. lia.
Defined.

Lemma put_then_get_witness :
  ∃ t' r, put zhash Z.eqb 0 0 40 demo4 3 30 = Done (t', r)
          ∧ get zhash Z.eqb 32 t' 3 = Done (Some 30).
Proof.
  destruct (put_then_get zhash Z.eqb 0 0 zcontract demo4 3 30)
    as (t' & r & Hput & _ & Hget).
  - reflexivity.
  - left. vm_compute. discriminate.
  - specialize (Hput 40%nat ltac:(vm_compute; lia)).
    exists t', r. split; [exact Hput|]. apply Hget.
    vm_compute in Hput. injection Hput as <- _. vm_compute. lia.
Defined.

Lemma default_table_grows_at_17_witness :
  ∃ t0 t16 t17,
    create 0 0 130 = Done t0 ∧ nentries t0 = 32
    ∧ put_each zhash Z.eqb 0 0 130 t0 demo_pairs = Done t16
    ∧ nentries t16 = 32 ∧ size t16 = 16
    ∧ put zhash Z.eqb 0 0 130 t16 17 170 = Done (t17, None)
    ∧ size t17 = 17 ∧ nentries t17 = 128
    ∧ get zhash Z.eqb 130 t17 5 = Done (Some 50).
Proof.
  destruct (default_table_grows_at_17 zhash Z.eqb 0 0 zcontract
              demo_pairs 17 170 130)
    as (t0 & t16 & t17 & H0 & Hn0 & _ & H16 & Hn16 & Hs16 & H17 & Hs17
        & Hn17 & Hget).
  - reflexivity.
  - reflexivity.
  - lia.
  - exists t0, t16, t17. repeat split; try assumption.
    apply Hget. apply list_elem_of_In. vm_compute.
    do 4 right. left. reflexivity.
Defined.

Lemma rehash_capacity_is_growth_target_witness :
  ∃ t', put zhash Z.eqb 0 0 40 demo4 3 30 = Done (t', None)
        ∧ size t' = 5 ∧ nentries t' = 32.
Proof.
  destruct (rehash_capacity_is_growth_target zhash Z.eqb 0 0 zcontract
              demo4 3 30) as (t' & Hput & _ & Hsz & Hn & _).
  - exact demo4_reachable.
  - vm_compute. discriminate.
  - apply demo4_absent; lia.
  - reflexivity.
  - exists t'. split; [apply Hput; vm_compute; lia|].
    split; [exact Hsz|]. rewrite Hn, Hsz. reflexivity.
Defined.

Lemma put_update_witness :
  ∃ t', put zhash Z.eqb 0 0 9 demo4 9 91 = Done (t', Some (9, 90))
        ∧ size t' = size demo4 ∧ nentries t' = nentries demo4
        ∧ get zhash Z.eqb 8 t' 9 = Done (Some 91).
Proof.
  destruct (put_update zhash Z.eqb 0 0 zcontract demo4 9 9 90 91)
    as (t' & Hput & Hsz & Hn & Hget).
  - reflexivity.
  - exists 2. vm_compute. repeat split; discriminate.
  - reflexivity.
  - exists t'. split; [apply Hput; vm_compute; lia|].
    split; [exact Hsz|]. split; [exact Hn|].
    apply Hget. rewrite Hn. vm_compute. lia.
Defined.

Lemma probe_terminates_witness :
  (∃ r, (∀ fuel, (8 ≤ fuel)%nat → scan Z.eqb fuel demo4 25 1 = Done r)
        ∧ match r with
          | Hit p e => slot (entries demo4) p = Some e ∧ valid e = true
                       ∧ Z.eqb 25 (key e) = true
          | Miss p => ∃ e, slot (entries demo4) p = Some e ∧ valid e = false
          end)
  ∧ 0 ≤ first_idx zhash demo4 25 < nentries demo4.
Proof.
  apply (probe_terminates zhash Z.eqb 0 0 demo4 25 1).
  - reflexivity.
  - reflexivity.
  - reflexivity.
  - change (nentries demo4) with 8. lia.
Defined.

Lemma reinsertion_asserts_unreachable_witness :
  put zhash Z.eqb 0 0 3 demo4 3 30 ≠ Abort
  ∧ remove zhash Z.eqb 0 0 3 demo4 1 ≠ Abort
  ∧ copy zhash Z.eqb 0 0 3 demo4 ≠ Abort.
Proof.
  destruct (reinsertion_asserts_unreachable zhash Z.eqb 0 0 zcontract
              demo4 eq_refl) as (Hput & Hremove & Hcopy & _).
  split; [apply Hput|]. split; [apply Hremove|apply Hcopy].
Defined.

Lemma capacity_invariant_preserved_witness :
  load_inv demo4
  ∧ ∀ k, ∃ t' r,
      (∀ fuel, (16 < fuel)%nat → remove zhash Z.eqb 0 0 fuel demo4 k = Done (t', r))
      ∧ nentries t' = nentries demo4.
Proof.
  destruct (capacity_invariant_preserved zhash Z.eqb 0 0 zcontract demo4
              eq_refl) as (Hinv & _ & _ & _ & Hrem & _).
  split; [exact Hinv|]. intros k.
  destruct (Hrem k) as (t' & r & Hret & _ & _ & _ & Hn).
  exists t', r. split; [exact Hret|exact Hn].
Defined.

Lemma not_found_leaves_table_witness :
  get zhash Z.eqb 8 demo4 25 = Done None
  ∧ remove zhash Z.eqb 0 0 8 demo4 25 = Done (demo4, None).
Proof.
  apply (not_found_leaves_table zhash Z.eqb 0 0 demo4 25).
  - reflexivity.
  - reflexivity.
  - reflexivity.
  - apply demo4_absent; lia.
  - vm_compute. lia.
Defined.

Lemma iteration_visits_each_once_witness :
  iterate 9 9 demo4 iterator_init
  = Done ([(1, 1, 10); (2, 9, 90); (3, 17, 170); (4, 2, 20)], Iterator 7).
Proof.
  destruct (iteration_visits_each_once 0 0 demo4 9 9) as [H _].
  - reflexivity.
  - reflexivity.
  - vm_compute. lia.
  - vm_compute. lia.
  - exact H.
Defined.

(** ** The further properties at the integer instantiation *)

Lemma get_finds_exactly_stored_witness :
  ∃ r, get zhash Z.eqb 8 demo4 17 = Done r
       ∧ (∀ v, r = Some v
               ↔ ∃ k', stored 0 0 demo4 k' v ∧ Z.eqb 17 k' = true)
       ∧ (r = None ↔ absent Z.eqb 0 0 demo4 17).
Proof.
  destruct (get_finds_exactly_stored zhash Z.eqb 0 0 zcontract demo4 17)
    as (r & Hret & _ & Hsome & Hnone).
  - reflexivity.
  - exists r. split; [apply Hret; vm_compute; lia|]. split; assumption.
Defined.

Lemma get_volatile_points_at_get_witness :
  ∃ ri rv,
    get_volatile zhash Z.eqb 8 demo4 17 = Done ri
    ∧ get zhash Z.eqb 8 demo4 17 = Done rv
    ∧ match ri, rv with
      | Some i, Some v =>
          0 ≤ i < nentries demo4
          ∧ valid (ent 0 0 (entries demo4) i) = true
          ∧ Z.eqb 17 (key (ent 0 0 (entries demo4) i)) = true
          ∧ value (ent 0 0 (entries demo4) i) = v
      | None, None => absent Z.eqb 0 0 demo4 17
      | _, _ => False
      end.
Proof.
  destruct (get_volatile_points_at_get zhash Z.eqb 0 0 zcontract demo4 17)
    as (ri & rv & Hret & _ & Hrel).
  - reflexivity.
  - exists ri, rv. destruct (Hret 8%nat) as [Hv Hg]; [vm_compute; lia|].
    split; [exact Hv|]. split; [exact Hg|].
    destruct ri, rv; exact Hrel.
Defined.

Lemma create_capacity_empty_witness :
  ∃ t : @table Z Z,
    create_capacity 0 0 28 8 = Done t ∧ nentries t = 32 ∧ size t = 0
    ∧ get zhash Z.eqb 32 t 5 = Done None
    ∧ visits 0 0 t = [].
Proof.
  destruct (create_capacity_empty zhash Z.eqb 0 0 8)
    as (t & Hret & Hn & Hsz & _ & _ & _ & Hget & Hvis).
  - lia.
  - lia.
  - exists t. split; [apply Hret; lia|]. split; [exact Hn|].
    split; [exact Hsz|]. split; [|exact Hvis].
    apply Hget. rewrite Hn. vm_compute. lia.
Defined.

Lemma create_capacity_leaves_room_witness :
  ∃ t0 t',
    create_capacity 0 0 60 8 = Done t0
    ∧ put_each zhash Z.eqb 0 0 60 t0 demo_pairs = Done t'
    ∧ nentries t' = nentries t0 ∧ nentries t0 = 32.
Proof.
  destruct (create_capacity_leaves_room zhash Z.eqb 0 0 zcontract 8
              demo_pairs 60)
    as (t0 & t' & Hcc & Hput & Hn & Hn0 & _).
  - lia.
  - lia.
  - vm_compute. discriminate.
  - vm_compute. lia.
  - exists t0, t'. split; [exact Hcc|]. split; [exact Hput|].
    split; [exact Hn|exact Hn0].
Defined.

Lemma clear_forgets_everything_witness :
  ∃ t', clear 0 0 demo4 = Done t' ∧ nentries t' = 8 ∧ size t' = 0
        ∧ get zhash Z.eqb 8 t' 17 = Done None.
Proof.
  destruct (clear_forgets_everything zhash Z.eqb 0 0 demo4)
    as (t' & Hret & Hn & Hsz & _ & _ & Hget).
  - reflexivity.
  - exists t'. split; [exact Hret|]. split; [exact Hn|].
    split; [exact Hsz|]. apply Hget. rewrite Hn. vm_compute. lia.
Defined.

Lemma copy_same_content_witness :
  ∃ t', copy zhash Z.eqb 0 0 50 demo4 = Done t'
        ∧ size t' = 4 ∧ nentries t' = 16
        ∧ (∀ x y, stored 0 0 t' x y ↔ stored 0 0 demo4 x y)
        ∧ get zhash Z.eqb 16 t' 17 = get zhash Z.eqb 8 demo4 17.
Proof.
  destruct (copy_same_content zhash Z.eqb 0 0 zcontract demo4)
    as (t' & Hret & _ & _ & Hsz & Hn & Hst & Hget).
  - reflexivity.
  - vm_compute. discriminate.
  - exists t'. split; [apply Hret; vm_compute; lia|].
    split; [exact Hsz|]. split; [exact Hn|]. split; [exact Hst|].
    apply Hget; [vm_compute; lia|]. rewrite Hn. vm_compute. lia.
Defined.

Lemma put_keeps_the_others_witness :
  ∃ t' r, put zhash Z.eqb 0 0 40 demo4 3 30 = Done (t', r)
          ∧ (r = None ↔ absent Z.eqb 0 0 demo4 3)
          ∧ nentries demo4 ≤ nentries t'
          ∧ get zhash Z.eqb 32 t' 17 = Done (Some 170).
Proof.
  destruct (put_keeps_the_others zhash Z.eqb 0 0 zcontract demo4 3 30)
    as (t' & r & Hret & _ & Hr & _ & Hn & Hkeep & _).
  - reflexivity.
  - vm_compute. discriminate.
  - specialize (Hret 40%nat ltac:(vm_compute; lia)).
    exists t', r. split; [exact Hret|]. split; [exact Hr|].
    split; [exact Hn|]. apply (Hkeep 17 170 17).
    + exists 3. vm_compute. repeat split; discriminate.
    + reflexivity.
    + reflexivity.
    + vm_compute in Hret. injection Hret as <- _. vm_compute. lia.
Defined.

Lemma iterator_remove_removes_current_witness :
  stored 0 0 demo4 1 10
  ∧ ∃ t', iterator_remove zhash Z.eqb 0 0 17 demo4 (Iterator 1) = Done t'
          ∧ size t' = 3
          ∧ get zhash Z.eqb 8 t' 1 = Done None
          ∧ get zhash Z.eqb 8 t' 17 = Done (Some 170).
Proof.
  destruct (iterator_remove_removes_current zhash Z.eqb 0 0 zcontract 9
              demo4 iterator_init (Iterator 1) 1 10)
    as (Hst & t' & Hret & _ & _ & Hsz & Hgone & Hkeep).
  - reflexivity.
  - reflexivity.
  - split; [exact Hst|]. exists t'.
    split; [apply Hret; vm_compute; lia|]. split; [exact Hsz|]. split.
    + apply Hgone. vm_compute. lia.
    + apply (Hkeep 17 170 17).
      * exists 3. vm_compute. repeat split; discriminate.
      * reflexivity.
      * reflexivity.
      * vm_compute. lia.
Defined.

Lemma iterator_remove_skips_follower_witness :
  ∃ t', iterator_remove zhash Z.eqb 0 0 17 demo4 (Iterator 1) = Done t'
        ∧ ent 0 0 (entries t') 1 = Entry true 9 90
        ∧ get zhash Z.eqb 8 t' 9 = Done (Some 90)
        ∧ ∃ l it, iterate 9 9 t' (Iterator 1) = Done (l, it)
                  ∧ ∀ j k v, (j, k, v) ∈ l → 1 < j ∧ Z.eqb 9 k = false.
Proof.
  destruct (iterator_remove_skips_follower zhash Z.eqb 0 0 zcontract 9
              demo4 iterator_init (Iterator 1) (1, 10))
    as (t' & Hret & Hent & Hget & Hrest).
  - reflexivity.
  - reflexivity.
  - vm_compute. reflexivity.
  - reflexivity.
  - vm_compute. discriminate.
  - exists t'. split; [apply Hret; vm_compute; lia|].
    split; [exact Hent|]. split; [apply Hget; vm_compute; lia|].
    apply Hrest; vm_compute; lia.
Defined.

Lemma size_counts_entries_witness :
  size demo4 = count_valid (entries demo4)
  ∧ ∃ l it, iterate 9 9 demo4 iterator_init = Done (l, it)
            ∧ Z.of_nat (length l) = size demo4
            ∧ ∀ k v, stored 0 0 demo4 k v ↔ ∃ j, (j, k, v) ∈ l.
Proof.
  apply (size_counts_entries zhash Z.eqb 0 0 zcontract demo4 9 9).
  - exact demo4_reachable.
  - vm_compute. lia.
  - vm_compute. lia.
Defined.

Lemma put_then_remove_restores_witness :
  ∃ t1 t2,
    put zhash Z.eqb 0 0 40 demo4 3 30 = Done (t1, None)
    ∧ (∀ fuel, (2 * Z.to_nat (nentries t1) < fuel)%nat →
         remove zhash Z.eqb 0 0 fuel t1 3 = Done (t2, Some (3, 30)))
    ∧ size t2 = size demo4
    ∧ (∀ x y, stored 0 0 t2 x y ↔ stored 0 0 demo4 x y).
Proof.
  destruct (put_then_remove_restores zhash Z.eqb 0 0 zcontract demo4 3 30)
    as (t1 & t2 & Hput & Hrem & _ & Hsz & Hst & _).
  - reflexivity.
  - vm_compute. discriminate.
  - apply demo4_absent; lia.
  - exists t1, t2. split; [apply Hput; vm_compute; lia|].
    split; [exact Hrem|]. split; [exact Hsz|exact Hst].
Defined.

Lemma run_refines_model_witness :
  ∃ t0 t,
    create 0 0 400 = Done t0
    ∧ run zhash Z.eqb 0 0 400 t0
        [Put 1 10; Put 9 90; Remove 1; Copy; Put 9 91; Put 2 20] = Done t
    ∧ size t = 2
    ∧ (∀ k v, stored 0 0 t k v ↔ (k, v) ∈ [(2, 20); (9, 91)])
    ∧ ∀ k f, (Z.to_nat (nentries t) ≤ f)%nat →
        get zhash Z.eqb f t k
        = Done (model_get Z.eqb k [(2, 20); (9, 91)]).
Proof.
  destruct (run_refines_model zhash Z.eqb 0 0 zcontract
              [Put 1 10; Put 9 90; Remove 1; Copy; Put 9 91; Put 2 20] 400)
    as (t0 & t & Hcr & Hrun & _ & Hsz & _ & Hst & Hget).
  - vm_compute. discriminate.
  - vm_compute. lia.
  - exists t0, t. split; [exact Hcr|]. split; [exact Hrun|].
    split; [exact Hsz|]. split; [exact Hst|exact Hget].
Defined.


Lemma iterator_remove_returns_twice_witness :
  iterator_next 1 demo_wrap iterator_init = Done (Iterator 0, Some (22, 220))
  ∧ ∃ t', iterator_remove zhash Z.eqb 0 0 17 demo_wrap (Iterator 6) = Done t'
          ∧ ent 0 0 (entries t') 7 = Entry true 22 220
          ∧ ∃ l it, iterate 9 9 t' (Iterator 6) = Done (l, it)
                    ∧ (7, 22, 220) ∈ l.
Proof.
  destruct (iterator_remove_returns_twice zhash Z.eqb 0 0 zcontract 9
              demo_wrap (Iterator 5) (Iterator 6) (6, 60))
    as (Hfirst & t' & Hret & Hent & Hrest).
  - reflexivity.
  - reflexivity.
  - vm_compute. reflexivity.
  - vm_compute. reflexivity.
  - change (last_entry (Iterator 6)) with 6.
    change (nentries demo_wrap) with 8. intros x Hx.
    assert (x = 7 ∨ x = 0) as [->| ->] by lia;
      (split; [reflexivity|vm_compute; discriminate]).
  - split; [apply Hfirst|]. exists t'.
    split; [apply Hret; vm_compute; lia|]. split; [exact Hent|].
    apply Hrest; vm_compute; lia.
Defined.


(** ** A table that cannot grow

    [create] and [2 ^ 28] puts of new keys lead, through the capacities
    [2 ^ 5], [2 ^ 7], ..., [2 ^ 27], to a table of [2 ^ 29] slots that is
    half full.  The next new key fires the growth trigger, and the rehash
    asks [create_capacity] for more than [2 ^ 30] slots. *)

Lemma fill_snoc m : 0 ≤ m → fill (m + 1) = fill m ++ [(m, 0)].
Proof.
  intros Hm. unfold fill. rewrite seqZ_app by lia. rewrite fmap_app.
  by f_equal.
Qed.

Lemma fill_reaches (F m : nat) :
  (Z.to_nat (2 ^ 29) + 1 < F)%nat → Z.of_nat m ≤ 2 ^ 28 →
  ∃ t0 t,
    create 0 0 F = Done t0
    ∧ put_each zhash Z.eqb 0 0 F t0 (fill (Z.of_nat m)) = Done t
    ∧ reachable zhash Z.eqb 0 0 t
    ∧ size t = Z.of_nat m
    ∧ (∃ j, 0 ≤ j ≤ 12 ∧ nentries t = 2 ^ (2 * j + 5))
    ∧ ∀ x y, stored 0 0 t x y → 0 ≤ x < Z.of_nat m.
Proof.
  intros HF. induction m as [|m IH]; intros Hm.
  - destruct (create_capacity_in_range zhash Z.eqb 0 0 8 ltac:(lia)
                ltac:(lia)) as [HN Hcc].
    destruct (empty_table_ok zhash Z.eqb 0 0 _ HN) as [_ Hst0].
    change (growth_target 8) with 32 in *.
    specialize (Hcc F ltac:(lia)).
    eexists _, _. split; [exact Hcc|]. split; [reflexivity|].
    split; [exact (reach_create zhash Z.eqb 0 0 F 8 _ Hcc)|].
    split; [reflexivity|]. split; [exists 0; split; [lia|reflexivity]|].
    intros x y Hs. destruct (Hst0 x y Hs).
  - destruct (IH ltac:(lia))
      as (t0 & t & Hcr & Hpe & Hreach & Hsz & (j & Hj & Hn) & Hst).
    pose proof (reachable_ok zhash Z.eqb 0 0 zcontract t Hreach) as Hok.
    destruct (table_ok_facts zhash Z.eqb 0 0 t Hok)
      as (_ & _ & _ & _ & Hload & _).
    assert (absent Z.eqb 0 0 t (Z.of_nat m)) as Habs.
    { apply absent_stored. intros x y Hs. apply Z.eqb_neq.
      pose proof (Hst x y Hs). lia. }
    assert (∃ t' r,
              put zhash Z.eqb 0 0 F t (Z.of_nat m) 0 = Done (t', r)
              ∧ put_post zhash Z.eqb 0 0 t (Z.of_nat m) 0 t' r
              ∧ ∃ j', 0 ≤ j' ≤ 12 ∧ nentries t' = 2 ^ (2 * j' + 5))
      as (t' & r & E & Hpost & Hcap).
    { destruct (Z.eq_dec j 12) as [->|Hj12].
      - change (2 ^ (2 * 12 + 5)) with (2 ^ 29) in Hn.
        destruct (put_returns_room zhash Z.eqb 0 0 t (Z.of_nat m) 0 F Hok
                    ltac:(lia) ltac:(lia)) as [[t' r] E].
        pose proof (put_safe zhash Z.eqb 0 0 zcontract F t (Z.of_nat m) 0 Hok)
          as Hpost.
        rewrite E in Hpost. exists t', r. split; [done|]. split; [done|].
        exists 12. split; [lia|].
        destruct Hpost as (_ & _ & _ & Hsame & _).
        rewrite Hsame by (right; lia). done.
      - assert (2 ^ (2 * j + 5) ≤ 2 ^ 27) as H27
          by (apply Z.pow_le_mono_r; lia).
        destruct (put_total zhash Z.eqb 0 0 zcontract t (Z.of_nat m) 0 Hok
                    ltac:(lia)) as (t' & r & Hret & _ & Hpost).
        exists t', r. split; [apply Hret; lia|]. split; [done|].
        destruct Hpost as (_ & _ & Hr & Hsame & Hgrow).
        destruct (Z.le_gt_cases (2 * (size t + 1)) (nentries t))
          as [Hroom|Htrig].
        + exists j. split; [lia|]. rewrite Hsame by (by right). done.
        + exists (j + 1). split; [lia|].
          destruct r as [[k0 v0]|].
          { destruct Hr as (Hs & Hk & _). rewrite absent_stored in Habs.
            rewrite (Habs _ _ Hs) in Hk. discriminate. }
          rewrite Hgrow by (done || lia).
          rewrite (growth_target_fourfold zhash Z.eqb 0 0 t Hok Htrig), Hn.
          replace (2 * (j + 1) + 5) with (2 * j + 5 + 2) by lia.
          rewrite (Z.pow_add_r 2 (2 * j + 5) 2) by lia.
          change (2 ^ 2) with 4. lia. }
    destruct Hpost as (_ & Hst' & Hr & _).
    destruct r as [[k0 v0]|].
    { destruct Hr as (Hs & Hk & _). rewrite absent_stored in Habs.
      rewrite (Habs _ _ Hs) in Hk. discriminate. }
    destruct Hr as [_ Hsz'].
    exists t0, t'. split; [exact Hcr|]. split.
    { replace (Z.of_nat (S m)) with (Z.of_nat m + 1) by lia.
      rewrite fill_snoc, put_each_app, Hpe by lia. cbn [bind put_each].
      rewrite E. done. }
    split; [exact (reach_put zhash Z.eqb 0 0 F t _ _ t' None Hreach E)|].
    split; [lia|]. split; [exact Hcap|].
    intros x y [[-> ->]|[Hs _]]%Hst'; [lia|].
    pose proof (Hst x y Hs). lia.
Qed.

Lemma overflow_table :
  ∃ t0 t,
    create 0 0 (Z.to_nat (2 ^ 30)) = Done t0
    ∧ put_each zhash Z.eqb 0 0 (Z.to_nat (2 ^ 30)) t0 (fill (2 ^ 28)) = Done t
    ∧ reachable zhash Z.eqb 0 0 t
    ∧ nentries t = 2 ^ 29 ∧ size t = 2 ^ 28
    ∧ absent Z.eqb 0 0 t (2 ^ 28).
Proof.
  destruct (fill_reaches (Z.to_nat (2 ^ 30)) (Z.to_nat (2 ^ 28))
              ltac:(lia) ltac:(lia))
    as (t0 & t & Hcr & Hpe & Hreach & Hsz & (j & Hj & Hn) & Hst).
  rewrite Z2Nat.id in Hpe, Hsz, Hst by lia.
  pose proof (reachable_ok zhash Z.eqb 0 0 zcontract t Hreach) as Hok.
  destruct (table_ok_facts zhash Z.eqb 0 0 t Hok)
    as (_ & _ & _ & _ & Hload & _).
  assert (j = 12) as ->.
  { destruct (Z.eq_dec j 12) as [|Hne]; [done|]. exfalso.
    assert (2 ^ (2 * j + 5) ≤ 2 ^ 27) by (apply Z.pow_le_mono_r; lia).
    lia. }
  change (2 ^ (2 * 12 + 5)) with (2 ^ 29) in Hn.
  exists t0, t.
  refine (conj Hcr (conj Hpe (conj Hreach (conj Hn (conj Hsz _))))).
  apply absent_stored. intros x y Hs. apply Z.eqb_neq.
  pose proof (Hst x y Hs). lia.
Qed.

(** C2, as it is stated for every table, fails: on the table that
    [create] and the puts of the keys [0 .. 2 ^ 28 - 1] build, a table at
    rest of [2 ^ 29] slots, [put] of the new key [2 ^ 28] does not return
    for any budget, so no [get] follows it. *)
Lemma put_then_get_counterexample :
  ∃ t0 t,
    create 0 0 (Z.to_nat (2 ^ 30)) = Done t0
    ∧ put_each zhash Z.eqb 0 0 (Z.to_nat (2 ^ 30)) t0 (fill (2 ^ 28)) = Done t
    ∧ table_ok zhash Z.eqb 0 0 t = true
    ∧ nentries t = 2 ^ 29 ∧ size t = 2 ^ 28
    ∧ (∀ fuel, put zhash Z.eqb 0 0 fuel t (2 ^ 28) 1 = OutOfFuel)
    ∧ ¬ ∃ fuel fuel' t' r,
          put zhash Z.eqb 0 0 fuel t (2 ^ 28) 1 = Done (t', r)
          ∧ get zhash Z.eqb fuel' t' (2 ^ 28) = Done (Some 1).
Proof.
  destruct overflow_table as (t0 & t & Hcr & Hpe & Hreach & Hn & Hsz & Habs).
  pose proof (reachable_ok zhash Z.eqb 0 0 zcontract t Hreach) as Hok.
  assert (∀ fuel, put zhash Z.eqb 0 0 fuel t (2 ^ 28) 1 = OutOfFuel) as Hput.
  { intros fuel. now apply put_overflow. }
  exists t0, t.
  refine (conj Hcr (conj Hpe (conj Hok (conj Hn (conj Hsz (conj Hput _)))))).
  intros (fuel & fuel' & t' & r & E & _). rewrite Hput in E. discriminate.
Qed.

(** C4, as it is stated for every reachable table, fails: on the same
    reachable table the put of the new key [2 ^ 28] fires the growth
    trigger, the growth target of the length after the insert is
    [2 ^ 31], which is no [int], and the rehash, and with it [put], does
    not return for any budget: no new capacity is computed. *)
Lemma rehash_capacity_is_growth_target_counterexample :
  ∃ t0 t,
    create 0 0 (Z.to_nat (2 ^ 30)) = Done t0
    ∧ put_each zhash Z.eqb 0 0 (Z.to_nat (2 ^ 30)) t0 (fill (2 ^ 28)) = Done t
    ∧ reachable zhash Z.eqb 0 0 t
    ∧ absent Z.eqb 0 0 t (2 ^ 28)
    ∧ nentries t < 2 * (size t + 1)
    ∧ growth_target (size t + 1) = 2 ^ 31
    ∧ (∀ fuel, create_capacity 0 0 fuel (size t + 1 + 1)
               = @OutOfFuel (@table Z Z))
    ∧ ∀ fuel v, put zhash Z.eqb 0 0 fuel t (2 ^ 28) v = OutOfFuel.
Proof.
  destruct overflow_table as (t0 & t & Hcr & Hpe & Hreach & Hn & Hsz & Habs).
  pose proof (reachable_ok zhash Z.eqb 0 0 zcontract t Hreach) as Hok.
  exists t0, t.
  refine (conj Hcr (conj Hpe (conj Hreach (conj Habs (conj _ (conj _
            (conj _ _))))))).
  - lia.
  - rewrite Hsz. reflexivity.
  - intros fuel. rewrite Hsz. replace (2 ^ 28 + 1 + 1) with (2 ^ 28 + 2) by lia.
    apply (create_capacity_overflow zhash Z.eqb).
  - intros fuel v. now apply put_overflow.
Qed.


End THash.
